(** * Argus: DLQ, broadcast hub, compression and storage queries

    A shallow embedding of the Go sources

    - [internal/queue] (the dead-letter queue: [Enqueue], [processFiles]),
    - [internal/realtime/hub.go] (the buffered broadcast hub),
    - [internal/compress/zstd.go] ([Compress], [Decompress]),
    - [internal/storage] (the repository queries [GetTrafficMetrics],
      [GetDashboardStats], [GetTracesFiltered], [GetServiceMapMetrics],
      [GetLatencyHeatmap], [GetLogContext], and [NewDatabase] and
      [AutoMigrateModels] of [factory.go]),

    followed by the properties proved about them. *)

From Stdlib Require Import ZArith List String Ascii Strings.Byte Floats Uint63 Lia Bool.
From stdpp Require Import gmap strings list fin_maps pretty sorting.

Abbreviation byte := Byte.byte.
Open Scope string_scope.
Open Scope list_scope.
Open Scope Z_scope.

(** ** Go data *)

(** A Go slice is either [nil] or a (possibly empty) backing sequence.  The
    two are different values: [encoding/json] writes the first as [null] and
    the second as an array. *)
Inductive slice (A : Type) : Type :=
| nil_slice : slice A
| mk_slice (elems : list A) : slice A.
Arguments nil_slice {A}.
Arguments mk_slice {A} elems.

Definition elems {A} (s : slice A) : list A :=
  match s with nil_slice => [] | mk_slice l => l end.

(** [len(s)] *)
Definition len {A} (s : slice A) : nat := length (elems s).

(** [append(s, x)]: the result is never nil. *)
Definition append {A} (s : slice A) (x : A) : slice A :=
  mk_slice (elems s ++ [x]).

(** An error value, as its message. *)
Definition error : Type := string.

(** [fmt.Errorf(prefix + ": %w", err)] *)
Definition wrap_error (prefix : string) (err : error) : error :=
  prefix +:+ ": " +:+ err.

(** A buffered Go channel: the queued elements, the capacity it was made
    with, and whether it has been closed. *)
Record chan (A : Type) : Type := mk_chan {
  ch_buf : list A;
  ch_cap : nat;
  ch_closed : bool
}.
Arguments mk_chan {A} ch_buf ch_cap ch_closed.
Arguments ch_buf {A} c.
Arguments ch_cap {A} c.
Arguments ch_closed {A} c.

(** [make(chan A, n)] *)
Definition make_chan {A} (n : nat) : chan A := mk_chan [] n false.

(** The outcome of [select { case c <- x: ...; default: ... }]. *)
Inductive send_result (A : Type) : Type :=
| Sent (c : chan A)      (* the send case ran *)
| WouldBlock             (* the default case ran *)
| SendPanic.             (* send on a closed channel *)
Arguments Sent {A} c.
Arguments WouldBlock {A}.
Arguments SendPanic {A}.

Definition try_send {A} (c : chan A) (x : A) : send_result A :=
  if ch_closed c then SendPanic
  else if (length (ch_buf c) <? ch_cap c)%nat
       then Sent (mk_chan (ch_buf c ++ [x]) (ch_cap c) false)
       else WouldBlock.

(** [close(c)] *)
Definition close_chan {A} (c : chan A) : chan A :=
  mk_chan (ch_buf c) (ch_cap c) true.

(** The byte-wise order of Go strings, by which [os.ReadDir] lists the
    entries and [sort.Strings] sorts. *)
Definition string_le (a b : string) : Prop := String.leb a b = true.

#[global] Instance string_le_dec (a b : string) : Decision (string_le a b).
Proof. unfold string_le. apply _. Defined.

Definition sort_strings (l : list string) : list string :=
  merge_sort string_le l.

(** ** [internal/compress]: Zstandard *)

Module Compress.
Section Zstd.

(** The encoder and decoder of [github.com/klauspost/compress/zstd]:
    [enc.EncodeAll(src, dst)] and [dec.DecodeAll(input, dst)]. *)
Variable EncodeAll : slice byte -> slice byte -> slice byte.
Variable DecodeAll : slice byte -> slice byte -> slice byte * option error.

(** [make([]byte, 0, n)]: empty, not nil. *)
Definition make_bytes (capacity : nat) : slice byte := mk_slice [].

Definition Compress (data : slice byte) : slice byte :=
  if (len data =? 0)%nat then nil_slice
  else EncodeAll data (make_bytes (len data / 2)).

Definition Decompress (data : slice byte) : slice byte * option error :=
  if (len data =? 0)%nat then (nil_slice, None)
  else
    match DecodeAll data nil_slice with
    | (result, None) => (result, None)
    | (_, Some err) =>
        (nil_slice, Some (wrap_error "zstd decompression failed" err))
    end.

End Zstd.
End Compress.

(** ** [internal/queue]: the dead-letter queue *)

Module Queue.

(** [filepath.Ext]: the suffix of the last path element starting at its last
    dot, empty when there is none.  [scan] walks the reversed name. *)
Fixpoint ext_scan (rev_name : list ascii) (acc : list ascii) : list ascii :=
  match rev_name with
  | [] => []
  | c :: rest =>
      if Ascii.eqb c "/" then []
      else if Ascii.eqb c "." then c :: acc
      else ext_scan rest (c :: acc)
  end.

Definition Ext (name : string) : string :=
  string_of_list_ascii (ext_scan (rev (list_ascii_of_string name)) []).

(** The elements of a path: what stands between its slashes.  [cur] is the
    element being read. *)
Fixpoint split_slash (s cur : string) : list string :=
  match s with
  | EmptyString => [cur]
  | String c rest =>
      if Ascii.eqb c "/" then cur :: split_slash rest ""
      else split_slash rest (cur +:+ String c "")
  end.

(** The element walk of [filepath.Clean].  [stack] holds the elements kept so
    far, the last one first: an empty element and [.] are skipped, [..] takes
    the last element back, and where there is none to take back it is
    dropped in a rooted path and kept in an unrooted one. *)
Fixpoint clean_elems (rooted : bool) (elems stack : list string) : list string :=
  match elems with
  | [] => rev stack
  | e :: rest =>
      if String.eqb e "" || String.eqb e "." then clean_elems rooted rest stack
      else if String.eqb e ".." then
        match stack with
        | top :: below =>
            if String.eqb top ".." then clean_elems rooted rest (e :: stack)
            else clean_elems rooted rest below
        | [] => clean_elems rooted rest (if rooted then [] else [e])
        end
      else clean_elems rooted rest (e :: stack)
  end.

(** [filepath.Clean(path)], with [/] as the separator. *)
Definition Clean (path : string) : string :=
  match path with
  | EmptyString => "."
  | String c _ =>
      let rooted := Ascii.eqb c "/" in
      let out := String.concat "/" (clean_elems rooted (split_slash path "") []) in
      if rooted then "/" +:+ out
      else if String.eqb out "" then "." else out
  end.

(** [filepath.Join(dir, name)]: the elements from the first one that is not
    empty, joined by slashes and cleaned; the empty string when both are
    empty. *)
Definition Join (dir name : string) : string :=
  if String.eqb dir "" then
    (if String.eqb name "" then "" else Clean name)
  else Clean (dir +:+ "/" +:+ name).

(** One entry of the DLQ directory. *)
Record node : Type := mk_node {
  n_isdir : bool;
  n_data : list byte;
  n_perm : Z
}.

(** The DLQ directory as the operating system presents it: its entries by
    name, which calls the system lets succeed, and where a write that
    fails stops. *)
Record fs : Type := mk_fs {
  files : gmap string node;
  readdir_ok : bool;               (* os.ReadDir(dir) *)
  read_ok : string -> bool;        (* os.ReadFile(path) *)
  remove_ok : string -> bool;      (* os.Remove(path) *)
  write_ok : string -> bool;       (* os.WriteFile(path, ...) returns nil *)
  write_cut : string -> option nat (* where a failing os.WriteFile stops:
                                      [None] at the open, [Some k] after the
                                      open, with [k] bytes written *)
}.

Definition set_files (f : fs) (m : gmap string node) : fs :=
  mk_fs m (readdir_ok f) (read_ok f) (remove_ok f) (write_ok f) (write_cut f).

(** [os.ReadDir]: entry names with their directory bit, sorted by name. *)
Definition ReadDir (f : fs) : option (list (string * bool)) :=
  if readdir_ok f then
    Some (omap (fun name => nd ← files f !! name; Some (name, n_isdir nd))
            (sort_strings (elements (dom (files f)))))
  else None.

Definition ReadFile (f : fs) (name : string) : option (list byte) :=
  match files f !! name with
  | Some nd => if read_ok f name && negb (n_isdir nd)
               then Some (n_data nd) else None
  | None => None
  end.

Definition Remove (f : fs) (name : string) : option fs :=
  match files f !! name with
  | Some _ => if remove_ok f name
              then Some (set_files f (delete name (files f))) else None
  | None => None
  end.

(** What a successful [OpenFile(name, O_WRONLY|O_CREATE|O_TRUNC, perm)]
    followed by a write of [data] leaves: a new file with [perm], or the file
    that was there with its mode kept and its content replaced.  [n_perm] of
    a created file is the mode the call passes; the process's umask is
    outside this model. *)
Definition opened (f : fs) (name : string) (data : list byte) (perm : Z) : fs :=
  match files f !! name with
  | Some nd => set_files f (<[name := mk_node false data (n_perm nd)]> (files f))
  | None => set_files f (<[name := mk_node false data perm]> (files f))
  end.

Definition is_directory (f : fs) (name : string) : bool :=
  match files f !! name with
  | Some nd => n_isdir nd
  | None => false
  end.

(** [os.WriteFile]: the open, then [Write(data)], then [Close].  The open
    fails on a directory, and a failed open changes nothing; a write or a
    close that fails after it leaves the file with the bytes written so far.
    The result is the directory after the call and whether the call returned
    nil. *)
Definition WriteFile (f : fs) (name : string) (data : list byte) (perm : Z)
  : fs * bool :=
  if is_directory f name then (f, false)
  else if write_ok f name then (opened f name data perm, true)
  else
    match write_cut f name with
    | None => (f, false)
    | Some k => (opened f name (take k data) perm, false)
    end.

(** What the queue does to the outside, in order. *)
Inductive effect : Type :=
| MuLock
| MuUnlock
| OsReadDir (dir : string) (ok : bool)
| OsReadFile (path : string) (ok : bool)
| OsRemove (path : string) (ok : bool)
| OsWriteFile (path : string) (data : list byte) (perm : Z) (ok : bool)
| OsSync (path : string)   (* fsync of a file or directory; never issued *)
| CallReplay (file : string) (data : list byte) (ok : bool).

Record DeadLetterQueue : Type := mk_dlq {
  dir : string;
  interval : Z
}.

Section DLQ.

(** The batch handed to [Enqueue], and [json.Marshal] on it. *)
Variable Batch : Type.
Variable Marshal : Batch -> list byte + error.

(** The replay callback [replayFn], with the state it works on; [true] is
    a nil error. *)
Variable S : Type.
Variable replayFn : list byte -> S -> bool * S.

(** The world a queue runs in. *)
Record world : Type := mk_world {
  w_fs : fs;
  w_cb : S;
  w_trace : list effect
}.

Definition emit (w : world) (es : list effect) : world :=
  mk_world (w_fs w) (w_cb w) (w_trace w ++ es).

Definition with_fs (w : world) (f : fs) : world :=
  mk_world f (w_cb w) (w_trace w).

(** The mode [0o644], [rw-r--r--]. *)
Definition perm_0o644 : Z := 6 * 64 + 4 * 8 + 4.

(** [fmt.Sprintf("batch_%d.json", nanos)] *)
Definition batch_filename (nanos : Z) : string :=
  "batch_" +:+ pretty nanos +:+ ".json".

(** [Enqueue]; [now] is [time.Now().UnixNano()].  The error of a failed
    write is its message up to the path; the text of the system's error,
    which follows it, is not modelled. *)
Definition Enqueue (d : DeadLetterQueue) (now : Z) (batch : Batch) (w : world)
  : world * option error :=
  let w := emit w [MuLock] in
  match Marshal batch with
  | inr err =>
      (emit w [MuUnlock], Some (wrap_error "DLQ: failed to marshal batch" err))
  | inl data =>
      let filename := batch_filename now in
      let path := Join (dir d) filename in
      let (f', ok) := WriteFile (w_fs w) filename data perm_0o644 in
      if ok then
        (emit (with_fs w f') [OsWriteFile path data perm_0o644 true; MuUnlock],
         None)
      else
        (emit (with_fs w f') [OsWriteFile path data perm_0o644 false; MuUnlock],
         Some ("DLQ: failed to write file " +:+ path))
  end.

(** [Size] *)
Definition Size (d : DeadLetterQueue) (w : world) : world * nat :=
  let w := emit w [MuLock] in
  match ReadDir (w_fs w) with
  | None => (emit w [OsReadDir (dir d) false; MuUnlock], 0%nat)
  | Some entries =>
      (emit w [OsReadDir (dir d) true; MuUnlock],
       length (filter (fun e => negb (snd e) && String.eqb (Ext (fst e)) ".json")
                 entries))
  end.

(** The body of the loop of [processFiles] for one directory entry;
    [replayed] is the counter of that name. *)
Definition process_entry (d : DeadLetterQueue) (entry : string * bool)
    (st : world * nat) : world * nat :=
  let '(w, replayed) := st in
  let name := fst entry in
  if snd entry || negb (String.eqb (Ext name) ".json") then (w, replayed)
  else
    let path := Join (dir d) name in
    match ReadFile (w_fs w) name with
    | None => (emit w [OsReadFile path false], replayed)
    | Some data =>
        let w := emit w [OsReadFile path true] in
        let '(ok, s') := replayFn data (w_cb w) in
        let w := mk_world (w_fs w) s' (w_trace w ++ [CallReplay name data ok]) in
        if negb ok then (w, replayed)
        else
          let w := emit w [MuLock] in
          match Remove (w_fs w) name with
          | None => (emit w [OsRemove path false; MuUnlock], replayed)
          | Some f' =>
              (emit (with_fs w f') [OsRemove path true; MuUnlock],
               Datatypes.S replayed)
          end
    end.

(** [processFiles]: one replay cycle.  The result carries the number of
    files replayed and removed. *)
Definition processFiles (d : DeadLetterQueue) (w : world) : world * nat :=
  let w := emit w [MuLock] in
  match ReadDir (w_fs w) with
  | None => (emit w [OsReadDir (dir d) false; MuUnlock], 0%nat)
  | Some entries =>
      let w := emit w [OsReadDir (dir d) true; MuUnlock] in
      foldl (fun st entry => process_entry d entry st) (w, 0%nat) entries
  end.

(** The events the select of [replayWorker] waits for. *)
Inductive worker_event : Type := StopClosed | TickerFired.

(** One iteration of [replayWorker]; [None] when the worker returns. *)
Definition replayWorker_step (d : DeadLetterQueue) (ev : worker_event)
    (w : world) : option world :=
  match ev with
  | StopClosed => None
  | TickerFired => Some (fst (processFiles d w))
  end.

End DLQ.

Arguments mk_world {S} w_fs w_cb w_trace.
Arguments w_fs {S} w.
Arguments w_cb {S} w.
Arguments w_trace {S} w.
Arguments emit {S} w es.
Arguments with_fs {S} w f.
Arguments Enqueue {Batch} Marshal {S} d now batch w.
Arguments Size {S} d w.
Arguments process_entry {S} replayFn d entry st.
Arguments processFiles {S} replayFn d w.
Arguments replayWorker_step {S} replayFn d ev w.

End Queue.

(** ** [internal/realtime]: the buffered broadcast hub *)

Module Realtime.

Record LogEntry : Type := mk_LogEntry {
  ID : N;
  TraceID : string;
  SpanID : string;
  Severity : string;
  Body : string;
  ServiceName : string;
  AttributesJSON : string;
  AIInsight : string;
  Timestamp : Z
}.

(** The state of a [websocket.Conn]: open, or closed with a status code. *)
Inductive conn_state : Type :=
| ConnOpen
| ConnClosed (code : Z) (reason : string).

Definition StatusNormalClosure : Z := 1000.

(** Where the goroutines that [HandleWebSocket] runs for a client stand. *)
Inductive handler_pc : Type :=
| AtRegister      (* blocked in [h.register <- c] *)
| InRange         (* writer in [for msg := range c.send] *)
| AtUnregister    (* writer's deferred [h.unregister <- c] *)
| AtClose         (* writer's deferred [conn.Close(...)] *)
| Finished.

(** A [client] object, with the connection it owns: [wire] lists the
    messages written to the connection. *)
Record client : Type := mk_client {
  send : chan (list byte);
  conn : conn_state;
  wire : list (list byte);
  pc : handler_pc
}.

Definition set_send (cl : client) (ch : chan (list byte)) : client :=
  mk_client ch (conn cl) (wire cl) (pc cl).
Definition set_pc (cl : client) (p : handler_pc) : client :=
  mk_client (send cl) (conn cl) (wire cl) p.

(** The hub.  [clients] holds the addresses of the registered [client]
    objects and [heap] the objects themselves; [stopCh] is [true] once the
    channel is closed, [running] while [Run] has not returned, and [gauge]
    lists the arguments [onConnectionChange] was called with. *)
Record Hub : Type := mk_Hub {
  clients : gset nat;
  heap : gmap nat client;
  broadcast : chan LogEntry;
  buffer : list LogEntry;
  maxBufferSize : nat;
  flushInterval : Z;
  stopCh : bool;
  running : bool;
  onConnectionChange : bool;
  gauge : list nat
}.

Definition set_clients (h : Hub) (s : gset nat) : Hub :=
  mk_Hub s (heap h) (broadcast h) (buffer h) (maxBufferSize h)
         (flushInterval h) (stopCh h) (running h) (onConnectionChange h) (gauge h).
Definition set_heap (h : Hub) (m : gmap nat client) : Hub :=
  mk_Hub (clients h) m (broadcast h) (buffer h) (maxBufferSize h)
         (flushInterval h) (stopCh h) (running h) (onConnectionChange h) (gauge h).
Definition set_broadcast (h : Hub) (c : chan LogEntry) : Hub :=
  mk_Hub (clients h) (heap h) c (buffer h) (maxBufferSize h)
         (flushInterval h) (stopCh h) (running h) (onConnectionChange h) (gauge h).
Definition set_buffer (h : Hub) (b : list LogEntry) : Hub :=
  mk_Hub (clients h) (heap h) (broadcast h) b (maxBufferSize h)
         (flushInterval h) (stopCh h) (running h) (onConnectionChange h) (gauge h).
Definition set_stopCh (h : Hub) (b : bool) : Hub :=
  mk_Hub (clients h) (heap h) (broadcast h) (buffer h) (maxBufferSize h)
         (flushInterval h) b (running h) (onConnectionChange h) (gauge h).
Definition set_running (h : Hub) (b : bool) : Hub :=
  mk_Hub (clients h) (heap h) (broadcast h) (buffer h) (maxBufferSize h)
         (flushInterval h) (stopCh h) b (onConnectionChange h) (gauge h).

(** [if h.onConnectionChange != nil { h.onConnectionChange(len(h.clients)) }] *)
Definition notify (h : Hub) : Hub :=
  mk_Hub (clients h) (heap h) (broadcast h) (buffer h) (maxBufferSize h)
         (flushInterval h) (stopCh h) (running h) (onConnectionChange h)
         (if onConnectionChange h then gauge h ++ [size (clients h)] else gauge h).

(** [NewHub]; the interval is in nanoseconds. *)
Definition NewHub (callback : bool) : Hub :=
  {| clients := ∅;
     heap := ∅;
     broadcast := make_chan 5000;
     buffer := [];
     maxBufferSize := 100;
     flushInterval := 500 * 1000000;
     stopCh := false;
     running := true;
     onConnectionChange := callback;
     gauge := [] |}.

Section Hub.

(** [json.Marshal] on a batch of entries. *)
Variable Marshal : list LogEntry -> list byte + error.

(** The body of the loop of [flush] for the client at address [c];
    [None] is a panic. *)
Definition flush_client (data : list byte) (c : nat) (h : Hub) : option Hub :=
  match heap h !! c with
  | None => None
  | Some cl =>
      match try_send (send cl) data with
      | Sent ch => Some (set_heap h (<[c := set_send cl ch]> (heap h)))
      | WouldBlock =>
          let h := set_clients h (clients h ∖ {[c]}) in
          let h := set_heap h (<[c := set_send cl (close_chan (send cl))]> (heap h)) in
          Some (notify h)
      | SendPanic => None
      end
  end.

(** [for c := range h.clients], over the keys in the order [cs]. *)
Fixpoint flush_loop (data : list byte) (cs : list nat) (h : Hub) : option Hub :=
  match cs with
  | [] => Some h
  | c :: rest =>
      match flush_client data c h with
      | Some h' => flush_loop data rest h'
      | None => None
      end
  end.

Definition flush (h : Hub) : option Hub :=
  match buffer h with
  | [] => Some h
  | _ :: _ =>
      let batch := buffer h in
      let h := set_buffer h [] in
      match Marshal batch with
      | inr _ => Some h
      | inl data => flush_loop data (elements (clients h)) h
      end
  end.

(** [Broadcast]; [None] is a panic. *)
Definition Broadcast (entry : LogEntry) (h : Hub) : option Hub :=
  match try_send (broadcast h) entry with
  | Sent ch => Some (set_broadcast h ch)
  | WouldBlock => Some h
  | SendPanic => None
  end.

(** [Stop] up to its wait for [Run]: [close(h.stopCh)], a panic when the
    channel is closed already. *)
Definition Stop (h : Hub) : option Hub :=
  if stopCh h then None else Some (set_stopCh h true).

(** [HandleWebSocket] up to its send on [h.register]: a new [client] at
    the unused address [c]. *)
Definition HandleWebSocket (c : nat) (h : Hub) : option Hub :=
  match heap h !! c with
  | Some _ => None
  | None =>
      Some (set_heap h (<[c := mk_client (make_chan 256) ConnOpen [] AtRegister]>
                          (heap h)))
  end.

(** The cases of the select in [Run]. *)
Inductive event : Type :=
| StopClosed                (* <-h.stopCh *)
| Register (c : nat)        (* c := <-h.register *)
| Unregister (c : nat)      (* c := <-h.unregister *)
| Receive                   (* entry := <-h.broadcast *)
| TickerFired.              (* <-flushTicker.C *)

Inductive step (A : Type) : Type :=
| Stepped (a : A)
| NotReady
| Panicked.
Arguments Stepped {A} a.
Arguments NotReady {A}.
Arguments Panicked {A}.

Definition of_option {A} (o : option A) : step A :=
  match o with Some a => Stepped a | None => Panicked end.

(** One iteration of the loop of [Run] taking the case [ev]; [NotReady]
    when that case cannot be taken, for one when [Run] has returned. *)
Definition Run_step (ev : event) (h : Hub) : step Hub :=
  if negb (running h) then NotReady
  else
    match ev with
    | StopClosed =>
        if stopCh h
        then of_option (h' ← flush h; Some (set_running h' false))
        else NotReady
    | Register c =>
        match heap h !! c with
        | Some cl =>
            match pc cl with
            | AtRegister =>
                let h := set_heap h (<[c := set_pc cl InRange]> (heap h)) in
                Stepped (notify (set_clients h ({[c]} ∪ clients h)))
            | _ => NotReady
            end
        | None => NotReady
        end
    | Unregister c =>
        match heap h !! c with
        | Some cl =>
            match pc cl with
            | AtUnregister =>
                let cl := set_pc cl AtClose in
                if bool_decide (c ∈ clients h) then
                  let h := set_clients h (clients h ∖ {[c]}) in
                  let h := set_heap h (<[c := set_send cl (close_chan (send cl))]>
                                         (heap h)) in
                  Stepped (notify h)
                else Stepped (set_heap h (<[c := cl]> (heap h)))
            | _ => NotReady
            end
        | None => NotReady
        end
    | Receive =>
        match ch_buf (broadcast h) with
        | [] => NotReady
        | entry :: rest =>
            let h := set_broadcast h (mk_chan rest (ch_cap (broadcast h))
                                              (ch_closed (broadcast h))) in
            let h := set_buffer h (buffer h ++ [entry]) in
            let shouldFlush := (maxBufferSize h <=? length (buffer h))%nat in
            if shouldFlush then of_option (flush h) else Stepped h
        end
    | TickerFired => of_option (flush h)
    end.

(** One step of the writer goroutine of the client at [c]; [write_ok]
    tells whether [conn.Write] succeeds. *)
Definition writer_step (c : nat) (write_ok : bool) (h : Hub) : step Hub :=
  match heap h !! c with
  | None => NotReady
  | Some cl =>
      match pc cl with
      | InRange =>
          match ch_buf (send cl) with
          | msg :: rest =>
              let ch := mk_chan rest (ch_cap (send cl)) (ch_closed (send cl)) in
              let cl' :=
                if write_ok
                then mk_client ch (conn cl) (wire cl ++ [msg]) InRange
                else mk_client ch (conn cl) (wire cl) AtUnregister in
              Stepped (set_heap h (<[c := cl']> (heap h)))
          | [] =>
              if ch_closed (send cl)
              then Stepped (set_heap h (<[c := set_pc cl AtUnregister]> (heap h)))
              else NotReady
          end
      | AtClose =>
          let cl' := mk_client (send cl) (ConnClosed StatusNormalClosure "closing")
                               (wire cl) Finished in
          Stepped (set_heap h (<[c := cl']> (heap h)))
      | _ => NotReady
      end
  end.

(** Everything that can happen to a hub. *)
Inductive action : Type :=
| ARun (ev : event)
| AWriter (c : nat) (write_ok : bool)
| ABroadcast (entry : LogEntry)
| AHandle (c : nat)
| AStop.

Definition do_action (a : action) (h : Hub) : step Hub :=
  match a with
  | ARun ev => Run_step ev h
  | AWriter c ok => writer_step c ok h
  | ABroadcast e => of_option (Broadcast e h)
  | AHandle c => match HandleWebSocket c h with
                 | Some h' => Stepped h'
                 | None => NotReady
                 end
  | AStop => of_option (Stop h)
  end.

(** A schedule: the actions taken one after the other. *)
Fixpoint exec (acts : list action) (h : Hub) : step Hub :=
  match acts with
  | [] => Stepped h
  | a :: rest =>
      match do_action a h with
      | Stepped h' => exec rest h'
      | NotReady => NotReady
      | Panicked => Panicked
      end
  end.

End Hub.

Arguments Stepped {A} a.
Arguments NotReady {A}.
Arguments Panicked {A}.

End Realtime.

(** ** [internal/storage]: the repository queries *)

Module Storage.

(** Instants are nanoseconds since the Unix epoch. *)
Definition second : Z := 1000000000.
Definition minute : Z := 60 * second.

(** The zero [time.Time], January 1 of year 1. *)
Definition zeroTime : Z := -62135596800 * second.
Definition IsZero (t : Z) : bool := t =? zeroTime.

(** [t.Truncate(time.Minute).Unix()] *)
Definition truncate_minute_unix (t : Z) : Z := (t / minute) * 60.

(** [time.Unix(sec, 0)] *)
Definition time_Unix (sec : Z) : Z := sec * second.

(** Arithmetic of [int64]. *)
Definition wrap64 (z : Z) : Z := (z + 2 ^ 63) mod 2 ^ 64 - 2 ^ 63.
Definition add64 (a b : Z) : Z := wrap64 (a + b).

(** [float64(n)] for an [int64]: the nearest double.  The magnitude of every
    [int64] but the least one fits the 63 bits of [of_uint63]; the least one
    is [-2^63], a double itself. *)
Definition float64 (n : Z) : float :=
  if n =? - 2 ^ 63 then
    PrimFloat.opp (PrimFloat.mul (PrimFloat.of_uint63 (Uint63.of_Z (2 ^ 62)))
                                 (PrimFloat.of_uint63 (Uint63.of_Z 2)))
  else if n <? 0 then PrimFloat.opp (PrimFloat.of_uint63 (Uint63.of_Z (- n)))
  else PrimFloat.of_uint63 (Uint63.of_Z n).

(** [strings.Contains(s, sub)] *)
Fixpoint Contains (s sub : string) : bool :=
  String.prefix sub s ||
  match s with
  | EmptyString => false
  | String _ rest => Contains rest sub
  end.

(** Modelled from the spec: the rows of the [traces], [logs] and [spans]
    tables, whose Go types ([Trace], [Log], [Span]) are declared outside the
    files at hand; the columns are those the queries name. *)
Record Trace : Type := mk_Trace {
  trace_id : string;
  service_name : string;
  status : string;
  duration : Z;
  timestamp : Z
}.

Record Log : Type := mk_Log {
  log_service_name : string;
  log_timestamp : Z
}.

Record Span : Type := mk_Span {
  span_trace_id : string
}.

(** The statements a query function runs, by the data they ask for. *)
Inductive query : Type :=
| QTraffic | QCountTraces | QCountLogs | QCountErrors | QAvgLatency
| QActiveServices | QDurations | QTopFailing | QNodes | QSpans | QTraceInfos.

(** The database behind [r.db]: the tables, and the statements that fail.
    A table is the list of its rows.  The design document
    (docs/SPEC_V5.md, the indexes of [Trace]) gives [traces] a unique index
    on [trace_id]; the query functions read the rows without relying on it
    (the service map groups the rows of one trace), so the index is the
    predicate [unique_trace_ids] and no part of the record: what is proved
    for every list of rows holds for the tables the index allows. *)
Record Repository : Type := mk_Repository {
  traces : list Trace;
  logs : list Log;
  spans : list Span;
  fails : query -> bool
}.

Definition unique_trace_ids (r : Repository) : Prop :=
  NoDup (trace_id <$> traces r).

Record TrafficPoint : Type := mk_TrafficPoint {
  tp_Timestamp : Z;
  tp_Count : Z;
  tp_ErrorCount : Z
}.

Record ServiceError : Type := mk_ServiceError {
  se_ServiceName : string;
  se_ErrorCount : Z;
  se_TotalCount : Z;
  se_ErrorRate : float
}.

Record DashboardStats : Type := mk_DashboardStats {
  TotalTraces : Z;
  TotalLogs : Z;
  TotalErrors : Z;
  AvgLatencyMs : float;
  ErrorRate : float;
  ActiveServices : Z;
  P99Latency : Z;
  TopFailingServices : slice ServiceError
}.

Record ServiceMapNode : Type := mk_ServiceMapNode {
  node_Name : string;
  node_TotalTraces : Z;
  node_ErrorCount : Z;
  node_AvgLatencyMs : float
}.

Record ServiceMapEdge : Type := mk_ServiceMapEdge {
  Source : string;
  Target : string;
  CallCount : Z;
  edge_AvgLatencyMs : float;
  edge_ErrorRate : float
}.

Record ServiceMapMetrics : Type := mk_ServiceMapMetrics {
  Nodes : slice ServiceMapNode;
  Edges : slice ServiceMapEdge
}.

(** [encoding/json] on a slice field: a nil slice is written as [null], any
    other as an array of its encoded elements. *)
Definition json_slice {A} (enc : A -> string) (s : slice A) : string :=
  match s with
  | nil_slice => "null"
  | mk_slice l => "[" +:+ String.concat "," (map enc l) +:+ "]"
  end.

(** *** SQL *)

(** [WHERE timestamp BETWEEN start AND end] *)
Definition between (start end_ t : Z) : bool := (start <=? t) && (t <=? end_).

(** [WHERE service_name IN serviceNames], applied when the list is not
    empty. *)
Definition in_services (serviceNames : list string) (name : string) : bool :=
  match serviceNames with
  | [] => true
  | _ => existsb (String.eqb name) serviceNames
  end.

(** [GROUP BY service_name]: the groups in the order their names first
    occur. *)
Fixpoint group_insert (t : Trace) (groups : list (string * list Trace))
  : list (string * list Trace) :=
  match groups with
  | [] => [(service_name t, [t])]
  | (name, rows) :: rest =>
      if String.eqb name (service_name t) then (name, (rows ++ [t])%list) :: rest
      else (name, rows) :: group_insert t rest
  end.

Definition group_by_service (rows : list Trace) : list (string * list Trace) :=
  foldl (fun groups t => group_insert t groups) [] rows.

(** [COUNT] of the rows *)
Definition count {A} (rows : list A) : Z := Z.of_nat (length rows).

Section Queries.

(** The database engine: [status LIKE '%ERROR%'], and [AVG(duration)]
    over at least one row. *)
Variable like_error : string -> bool.
Variable avg_duration : list Z -> float.

(** The [math] package and the conversion [int(f)]. *)
Variable math_Ceil : float -> float.
Variable math_Round : float -> float.
Variable int_of_float : float -> Z.

(** [AVG(duration)]: NULL over no row. *)
Definition sql_avg (rows : list Trace) : option float :=
  match rows with
  | [] => None
  | _ => Some (avg_duration (map duration rows))
  end.

(** [SUM(CASE WHEN status LIKE '%ERROR%' THEN 1 ELSE 0 END)] *)
Definition sum_errors (rows : list Trace) : Z :=
  count (filter (fun t => like_error (status t)) rows).

(** *** [GetTrafficMetrics] *)

Record bucket : Type := mk_bucket { b_count : Z; b_errorCount : Z }.

Definition add_row (buckets : gmap Z bucket) (r : Trace) : gmap Z bucket :=
  let ts := truncate_minute_unix (timestamp r) in
  let b := default (mk_bucket 0 0) (buckets !! ts) in
  let b := mk_bucket (add64 (b_count b) 1) (b_errorCount b) in
  let b := if Contains (status r) "ERROR"
           then mk_bucket (b_count b) (add64 (b_errorCount b) 1) else b in
  <[ts := b]> buckets.

Definition before (p q : TrafficPoint) : Prop := tp_Timestamp p <= tp_Timestamp q.

#[local] Instance before_dec p q : Decision (before p q).
Proof. unfold before. apply _. Defined.

(** [sort.Slice(points, ...)] by timestamp; the timestamps are distinct. *)
Definition sort_points (points : slice TrafficPoint) : slice TrafficPoint :=
  match points with
  | nil_slice => nil_slice
  | mk_slice l => mk_slice (merge_sort before l)
  end.

Definition GetTrafficMetrics (r : Repository) (start end_ : Z)
    (serviceNames : list string) : slice TrafficPoint + error :=
  if fails r QTraffic then inr "query failed"
  else
    let rows := filter (fun t => between start end_ (timestamp t)
                                 && in_services serviceNames (service_name t))
                  (traces r) in
    let buckets := foldl add_row ∅ rows in
    let points :=
      foldl (fun points tb =>
               append points (mk_TrafficPoint (time_Unix (fst tb))
                                (b_count (snd tb)) (b_errorCount (snd tb))))
            nil_slice (map_to_list buckets) in
    inl (sort_points points).

(** *** [GetDashboardStats] *)

(** [COUNT(DISTINCT service_name)] *)
Definition count_distinct_services (rows : list Trace) : Z :=
  count (remove_dups (map service_name rows)).

(** The constant [0.99] as a [float64]. *)
Definition const_0_99 : float := 0x1.fae147ae147aep-1%float.

(** Step 6, the 99th percentile of the durations. *)
Definition p99 (durations : list Z) : Z :=
  match durations with
  | [] => 0
  | _ =>
      let sorted := merge_sort Z.le durations in
      let n := Z.of_nat (length sorted) in
      let p99Index :=
        int_of_float (math_Ceil (PrimFloat.mul (float64 n) const_0_99)) - 1 in
      let p99Index := if p99Index >=? n then n - 1 else p99Index in
      let p99Index := if p99Index <? 0 then 0 else p99Index in
      nth (Z.to_nat p99Index) sorted 0
  end.

(** Step 7, the rows of the statement: per service with at least one
    error, by falling error count, five at most. *)
Definition desc_errors (a b : string * Z * Z) : Prop := snd a >= snd b.

#[local] Instance desc_errors_dec a b : Decision (desc_errors a b).
Proof. unfold desc_errors. apply _. Defined.

Definition top_failing_rows (rows : list Trace) : list (string * Z * Z) :=
  let groups := group_by_service rows in
  let counted := map (fun g => (fst g, count (snd g), sum_errors (snd g))) groups in
  let having := filter (fun sc => 0 <? snd sc) counted in
  take 5 (merge_sort desc_errors having).

Definition GetDashboardStats (r : Repository) (start end_ : Z)
    (serviceNames : list string) : DashboardStats + error :=
  let base := filter (fun t => between start end_ (timestamp t)
                               && in_services serviceNames (service_name t))
                (traces r) in
  (* 1. Total Traces *)
  if fails r QCountTraces then inr "failed to count traces" else
  let totalTraces := count base in
  (* 2. Total Logs *)
  let logRows := filter (fun l => between start end_ (log_timestamp l)
                                  && in_services serviceNames (log_service_name l))
                   (logs r) in
  if fails r QCountLogs then inr "failed to count logs" else
  let totalLogs := count logRows in
  (* 3. Total Errors *)
  if fails r QCountErrors then inr "failed to count error traces" else
  let totalErrors := sum_errors base in
  let errorRate :=
    if 0 <? totalTraces
    then PrimFloat.mul (PrimFloat.div (float64 totalErrors) (float64 totalTraces))
                       100%float
    else 0%float in
  (* 4. Average Latency *)
  let avgLatencyMs :=
    if fails r QAvgLatency then 0%float
    else PrimFloat.div (default 0%float (sql_avg base)) 1000%float in
  (* 5. Active Services *)
  if fails r QActiveServices then inr "failed to count active services" else
  let activeServices := count_distinct_services base in
  (* 6. P99 Latency *)
  if fails r QDurations then inr "failed to fetch durations" else
  let p99Latency := p99 (map duration base) in
  (* 7. Top Failing Services *)
  let topFailing :=
    if fails r QTopFailing then nil_slice
    else
      foldl (fun acc sc =>
               let '(name, total, errors) := sc in
               let rate := if 0 <? total
                           then PrimFloat.div (float64 errors) (float64 total)
                           else 0%float in
               append acc (mk_ServiceError name errors total rate))
            nil_slice (top_failing_rows base) in
  inl (mk_DashboardStats totalTraces totalLogs totalErrors avgLatencyMs
         errorRate activeServices p99Latency topFailing).

(** *** [GetServiceMapMetrics] *)

(** The time filter of the three statements, applied when neither bound
    is the zero time. *)
Definition windowed (start end_ : Z) (t : Z) : bool :=
  if negb (IsZero start) && negb (IsZero end_) then between start end_ t
  else true.

(** What a trace holds for one of its services, and the zero value a map
    lookup gives for a missing key. *)
Record svc_agg : Type := mk_svc_agg {
  sa_count : Z;
  sa_errors : Z;
  sa_totalD : Z
}.
Definition svc_zero : svc_agg := mk_svc_agg 0 0 0.

Record edge_agg : Type := mk_edge_agg {
  ea_calls : Z;
  ea_errors : Z;
  ea_totalMs : float
}.
Definition edge_zero : edge_agg := mk_edge_agg 0 0 0%float.

(** The loop over [traceInfos] (lines 484-502), one row. *)
Definition add_trace_info (m : gmap string (gmap string svc_agg)) (ti : Trace)
  : gmap string (gmap string svc_agg) :=
  if String.eqb (service_name ti) "" then m
  else
    let services := default ∅ (m !! trace_id ti) in
    let entry := default svc_zero (services !! service_name ti) in
    let entry := mk_svc_agg (add64 (sa_count entry) 1) (sa_errors entry)
                            (sa_totalD entry) in
    let entry := if Contains (status ti) "ERROR"
                 then mk_svc_agg (sa_count entry) (add64 (sa_errors entry) 1)
                                 (sa_totalD entry)
                 else entry in
    let entry := mk_svc_agg (sa_count entry) (sa_errors entry)
                            (add64 (sa_totalD entry) (duration ti)) in
    <[trace_id ti := <[service_name ti := entry]> services]> m.

(** The index pairs [i < j] of the two nested loops, as the names they
    select. *)
Fixpoint pairs (svcNames : list string) : list (string * string) :=
  match svcNames with
  | [] => []
  | a :: rest => (map (fun b => (a, b)) rest ++ pairs rest)%list
  end.

(** The body of the inner loop (lines 521-532) for the key
    [(svcNames[i], svcNames[j])]. *)
Definition add_pair (services : gmap string svc_agg)
    (edgeAgg : gmap (string * string) edge_agg) (key : string * string)
  : gmap (string * string) edge_agg :=
  let entry := default edge_zero (edgeAgg !! key) in
  let calls := add64 (ea_calls entry) 1 in
  let si := default svc_zero (services !! fst key) in
  let sj := default svc_zero (services !! snd key) in
  let avgD :=
    PrimFloat.div
      (PrimFloat.div (float64 (add64 (sa_totalD si) (sa_totalD sj)))
                     (float64 (add64 (sa_count si) (sa_count sj))))
      1000%float in
  let totalMs := PrimFloat.add (ea_totalMs entry) avgD in
  let errors := if (0 <? sa_errors si) || (0 <? sa_errors sj)
                then add64 (ea_errors entry) 1 else ea_errors entry in
  <[key := mk_edge_agg calls errors totalMs]> edgeAgg.

(** The body of the loop over [traceServiceMap] (lines 512-535) for one
    trace. *)
Definition add_trace_edges (edgeAgg : gmap (string * string) edge_agg)
    (services : gmap string svc_agg) : gmap (string * string) edge_agg :=
  let svcNames := sort_strings ((map_to_list services).*1) in
  foldl (add_pair services) edgeAgg (pairs svcNames).

Definition make_edge (ka : string * string * edge_agg) : ServiceMapEdge :=
  let '(key, agg) := ka in
  let errRate :=
    if 0 <? ea_calls agg
    then PrimFloat.div
           (math_Round (PrimFloat.mul
                          (PrimFloat.div (float64 (ea_errors agg))
                                         (float64 (ea_calls agg)))
                          1000%float))
           1000%float
    else 0%float in
  mk_ServiceMapEdge (fst key) (snd key) (ea_calls agg)
    (PrimFloat.div
       (math_Round (PrimFloat.mul
                      (PrimFloat.div (ea_totalMs agg) (float64 (ea_calls agg)))
                      100%float))
       100%float)
    errRate.

Definition make_node (g : string * list Trace) : ServiceMapNode :=
  mk_ServiceMapNode (fst g) (count (snd g)) (sum_errors (snd g))
    (PrimFloat.div
       (math_Round (PrimFloat.mul
                      (PrimFloat.div (default 0%float (sql_avg (snd g)))
                                     1000%float)
                      100%float))
       100%float).

(** The maps are ranged over in the order of [map_to_list]; Go leaves the
    order open.  The span rows are fetched and not used; the minutes of
    the range are computed and not used. *)
Definition GetServiceMapMetrics (r : Repository) (start end_ : Z)
  : ServiceMapMetrics + error :=
  let inWindow := filter (fun t => windowed start end_ (timestamp t)) (traces r) in
  (* 1. Per-service node metrics from traces *)
  if fails r QNodes then inr "failed to get service map nodes" else
  let nodeRows := group_by_service inWindow in
  let nodes :=
    foldl (fun nodes nr =>
             if String.eqb (fst nr) "" then nodes
             else append nodes (make_node nr))
          (mk_slice []) nodeRows in
  (* 2. Per-edge metrics *)
  let spanRows :=
    if negb (IsZero start) && negb (IsZero end_)
    then filter (fun s => existsb (fun t => String.eqb (span_trace_id s)
                                                       (trace_id t))
                           inWindow)
                (spans r)
    else spans r in
  if fails r QSpans then inr "failed to get spans for service map" else
  if fails r QTraceInfos then inr "failed to get trace infos" else
  let traceInfos := inWindow in
  let traceServiceMap := foldl add_trace_info ∅ traceInfos in
  let edgeAgg :=
    foldl (fun agg kv => add_trace_edges agg (snd kv)) ∅
          (map_to_list traceServiceMap) in
  let edges :=
    foldl (fun edges ka => append edges (make_edge ka))
          (mk_slice []) (map_to_list edgeAgg) in
  inl (mk_ServiceMapMetrics nodes edges).

End Queries.

(** *** [GetLatencyHeatmap] and [GetLogContext] *)

Record LatencyPoint : Type := mk_LatencyPoint {
  lp_Timestamp : Z;
  lp_Duration : Z
}.

(** [ORDER BY timestamp DESC] and [ORDER BY timestamp asc]; rows of equal
    timestamp come in the order of the table. *)
Definition newer (a b : Trace) : Prop := timestamp b <= timestamp a.

#[global] Instance newer_dec (a b : Trace) : Decision (newer a b).
Proof. unfold newer. apply _. Defined.

Definition older (a b : Log) : Prop := log_timestamp a <= log_timestamp b.

#[global] Instance older_dec (a b : Log) : Decision (older a b).
Proof. unfold older. apply _. Defined.

(** [GetLatencyHeatmap]; [failed] tells whether the statement fails.  [Find]
    hands back a slice it made, also over no row. *)
Definition GetLatencyHeatmap (failed : bool) (r : Repository) (start end_ : Z)
    (serviceNames : list string) : slice LatencyPoint + error :=
  if failed then inr "query failed"
  else
    let rows := filter (fun t => between start end_ (timestamp t)
                                 && in_services serviceNames (service_name t))
                  (traces r) in
    let ordered := merge_sort newer rows in
    let limited := take 2000 ordered in
    inl (mk_slice (map (fun t => mk_LatencyPoint (timestamp t) (duration t)) limited)).

(** [GetLogContext]: the logs within a minute of [targetTime]. *)
Definition GetLogContext (failed : bool) (r : Repository) (targetTime : Z)
  : slice Log + error :=
  let start := targetTime + (-1) * minute in
  let end_ := targetTime + 1 * minute in
  if failed then inr "query failed"
  else
    inl (mk_slice (merge_sort older
                     (filter (fun l => between start end_ (log_timestamp l))
                        (logs r)))).

End Storage.

(** ** [internal/storage]: the ORDER BY clause of [GetTracesFiltered] *)

Module Sorting.

(** The whitelist literal [validSorts]. *)
Definition validSorts : gmap string string :=
  list_to_map
    [ ("timestamp", "timestamp");
      ("duration", "duration");
      ("service_name", "service_name");
      ("status", "status");
      ("trace_id", "trace_id") ].

(** [fmt.Sprintf("%s %s", field, direction)] *)
Definition sprintf_s_s (field direction : string) : string :=
  field +:+ " " +:+ direction.

(** Lines 281-298 of [GetTracesFiltered]: the clause handed to [Order]. *)
Definition orderClause (sortBy orderBy : string) : string :=
  if String.eqb sortBy "" then "timestamp DESC"
  else
    let direction := if String.eqb orderBy "desc" then "DESC" else "ASC" in
    match validSorts !! sortBy with
    | Some field => sprintf_s_s field direction
    | None => "timestamp DESC"
    end.

(** The sort keys a caller may name. *)
Definition whitelist : list string :=
  [ "timestamp"; "duration"; "service_name"; "status"; "trace_id" ].

(** Every clause the function can produce. *)
Definition allClauses : list string :=
  flat_map (fun f => [f +:+ " ASC"; f +:+ " DESC"]) whitelist.

End Sorting.


(** ** [internal/storage/factory.go]: opening and migrating the database *)

Module Factory.

(** The dialectors of the four drivers. *)
Inductive dialect : Type := Postgres | SQLServer | MySQL | SQLite.

(** What the two functions do to the database, in order; the log lines
    are left out.  [Exec] stands for [db.Exec(sql)], whose result the code
    does not look at. *)
Inductive effect : Type :=
| GormOpen (d : dialect) (dsn : string) (ok : bool)
| Exec (sql : string)
| GetDB (ok : bool)                        (* db.DB() *)
| SetMaxIdleConns (n : Z)
| SetMaxOpenConns (n : Z)
| SetConnMaxLifetime (d : Z)
| AutoMigrate (ok : bool).                 (* db.AutoMigrate(&Trace{}, &Span{}, &Log{}) *)

(** The [*gorm.DB] handed back. *)
Record DB : Type := mk_DB {
  db_dialect : dialect;
  db_dsn : string
}.

(** [time.Hour], in nanoseconds. *)
Definition hour : Z := 3600 * 1000000000.

Section Drivers.

(** [strings.ToLower]. *)
Variable ToLower : string -> string.

(** The outcome of [gorm.Open] for a dialector, and whether [db.DB()]
    succeeds. *)
Variable open_error : dialect -> string -> option error.
Variable db_ok : bool.

(** The first switch of [NewDatabase]: the dialector, the DSN it is opened
    with, and [driver] as the rest of the function sees it. *)
Definition choose (driver dsn : string) : dialect * string * string + error :=
  let d := ToLower driver in
  if String.eqb d "postgres" || String.eqb d "postgresql" then
    if String.eqb dsn "" then inr "DB_DSN is required for postgres driver"
    else inl (Postgres, dsn, driver)
  else if String.eqb d "sqlserver" || String.eqb d "mssql" then
    if String.eqb dsn "" then inr "DB_DSN is required for sqlserver driver"
    else inl (SQLServer, dsn, driver)
  else if String.eqb d "mysql" then
    let dsn :=
      if String.eqb dsn ""
      then "root:admin@tcp(127.0.0.1:3306)/argus?charset=utf8mb4&parseTime=True&loc=Local"
      else dsn in
    inl (MySQL, dsn, driver)
  else if String.eqb d "sqlite" || String.eqb d "" then
    let dsn := if String.eqb dsn "" then "argus.db" else dsn in
    let driver := if String.eqb driver "" then "sqlite" else driver in
    inl (SQLite, dsn, driver)
  else inr ("unsupported database driver: " +:+ driver).

Definition NewDatabase (driver dsn : string) : list effect * (DB + error) :=
  match choose driver dsn with
  | inr err => ([], inr err)
  | inl (dl, dsn, driver) =>
      match open_error dl dsn with
      | Some err =>
          ([GormOpen dl dsn false],
           inr ("failed to connect to database (" +:+ driver +:+ "): " +:+ err))
      | None =>
          let pragmas :=
            if String.eqb (ToLower driver) "sqlite" || String.eqb driver ""
            then [Exec "PRAGMA journal_mode=WAL";
                  Exec "PRAGMA busy_timeout=5000";
                  Exec "PRAGMA synchronous=NORMAL"]
            else [] in
          let pool :=
            if db_ok then
              if String.eqb (ToLower driver) "sqlite"
                 || String.eqb (ToLower driver) ""
              then [SetMaxIdleConns 1; SetMaxOpenConns 1; SetConnMaxLifetime hour]
              else [SetMaxIdleConns 10; SetMaxOpenConns 50; SetConnMaxLifetime hour]
            else [] in
          ([GormOpen dl dsn true] ++ pragmas ++ [GetDB db_ok] ++ pool,
           inl (mk_DB dl dsn))
      end
  end.

(** [AutoMigrateModels]; [migrate] is the error of [db.AutoMigrate], if
    any. *)
Definition AutoMigrateModels (migrate : option error) (driver : string)
  : list effect * option error :=
  let before :=
    if String.eqb (ToLower driver) "mysql"
    then [Exec "SET FOREIGN_KEY_CHECKS = 0"] else [] in
  match migrate with
  | Some err =>
      (before ++ [AutoMigrate false],
       Some (wrap_error "failed to migrate database" err))
  | None =>
      let after :=
        if String.eqb (ToLower driver) "mysql"
        then [Exec "ALTER TABLE spans DROP FOREIGN KEY fk_traces_spans";
              Exec "ALTER TABLE logs DROP FOREIGN KEY fk_traces_logs";
              Exec "SET FOREIGN_KEY_CHECKS = 1"]
        else [] in
      (before ++ [AutoMigrate true] ++ after, None)
  end.

End Drivers.

End Factory.
(** * The vocabulary of the statements, and sample inputs *)

Module CompressSpec.
Import Compress.

(** A codec to run the functions on: a frame is a marker byte followed by
    the bytes as they are. *)
Definition frame_EncodeAll (src dst : slice byte) : slice byte :=
  mk_slice (elems dst ++ Byte.x28 :: elems src).

Definition frame_DecodeAll (input dst : slice byte) : slice byte * option error :=
  match elems input with
  | Byte.x28 :: rest => (mk_slice (elems dst ++ rest), None)
  | _ => (nil_slice, Some "magic number mismatch")
  end.

End CompressSpec.

Module QueueSpec.
Import Queue.

Section Cycle.

Variable S : Type.
Variable replayFn : list byte -> S -> bool * S.

(** What a stretch of a replay cycle over the entries [names], from [w]
    to [w'] with the effects [tr], keeps true. *)
Definition cycle_ok (names : list string) (w w' : world S) (tr : list effect) : Prop :=
  w_trace w' = w_trace w ++ tr
  /\ w_fs w' = set_files (w_fs w) (files (w_fs w'))
  /\ (forall name, files (w_fs w') !! name = files (w_fs w) !! name
                   \/ files (w_fs w') !! name = None)
  /\ (forall name, name ∉ names ->
                   files (w_fs w') !! name = files (w_fs w) !! name)
  /\ (forall name data ok, CallReplay name data ok ∈ tr ->
        name ∈ names
        /\ (exists nd, files (w_fs w) !! name = Some nd /\ data = n_data nd)
        /\ exists s s', replayFn data s = (ok, s'))
  /\ (forall name nd, files (w_fs w) !! name = Some nd ->
        (files (w_fs w') !! name = None
         <-> CallReplay name (n_data nd) true ∈ tr
             /\ remove_ok (w_fs w) name = true))
  /\ (forall name data, CallReplay name data false ∈ tr ->
        files (w_fs w') !! name = files (w_fs w) !! name).

End Cycle.

Arguments cycle_ok {S} replayFn names w w' tr.

Definition dlq0 : DeadLetterQueue := mk_dlq "./data/dlq" (300 * 1000000000).

Definition always (b : bool) : string -> bool := fun _ => b.

(** The two bytes of the JSON text [[]]. *)
Definition payload : list byte := [Byte.x5b; Byte.x5d].

(** A directory holding [batch_7.json]; [rm] tells whether [os.Remove] is
    let through. *)
Definition fs1 (rm : bool) : fs :=
  mk_fs {[ "batch_7.json" := mk_node false payload 420 ]}
        true (always true) (always rm) (always true) (fun _ => None).

Definition fs_empty : fs :=
  mk_fs ∅ true (always true) (always true) (always true) (fun _ => None).

(** A callback that always succeeds. *)
Definition replay_ok (data : list byte) (s : unit) : bool * unit := (true, s).

(** A batch that is its own JSON text. *)
Definition marshal_bytes (b : list byte) : list byte + error := inl b.

End QueueSpec.

Module RealtimeSpec.
Import Realtime.

(** A registered client has an open send channel of capacity 256. *)
Definition client_ok (cl : client) : Prop :=
  ch_closed (send cl) = false
  /\ ch_cap (send cl) = 256%nat
  /\ (length (ch_buf (send cl)) <= 256)%nat.

Definition clients_ok (h : Hub) : Prop :=
  forall c, c ∈ clients h -> exists cl, heap h !! c = Some cl /\ client_ok cl.

(** A registered client is past its send on [h.register]. *)
Definition registered_started (h : Hub) : Prop :=
  forall c cl, c ∈ clients h -> heap h !! c = Some cl -> pc cl <> AtRegister.

(** A client waiting to be registered has its channel as it was made. *)
Definition pending_ok (h : Hub) : Prop :=
  forall c cl, heap h !! c = Some cl -> pc cl = AtRegister -> client_ok cl.

(** What holds of every hub made by [NewHub], whatever happens to it. *)
Definition hub_inv (h : Hub) : Prop :=
  ch_closed (broadcast h) = false
  /\ ch_cap (broadcast h) = 5000%nat
  /\ maxBufferSize h = 100%nat
  /\ flushInterval h = 500 * 1000000
  /\ (length (buffer h) < 100)%nat
  /\ clients_ok h
  /\ registered_started h
  /\ pending_ok h.

(** The send channel of the client has no room. *)
Definition full (cl : client) : bool :=
  (ch_cap (send cl) <=? length (ch_buf (send cl)))%nat.

(** What a flush of [data] does to a client: the message is queued, or the
    channel is closed when it has no room. *)
Definition deliver (data : list byte) (cl : client) : client :=
  if full cl then set_send cl (close_chan (send cl))
  else set_send cl (mk_chan (ch_buf (send cl) ++ [data]) (ch_cap (send cl)) false).

(** The fields a flush leaves alone. *)
Definition same_settings (h h' : Hub) : Prop :=
  broadcast h' = broadcast h
  /\ maxBufferSize h' = maxBufferSize h
  /\ flushInterval h' = flushInterval h
  /\ stopCh h' = stopCh h
  /\ running h' = running h
  /\ onConnectionChange h' = onConnectionChange h.

(** The entries the buffer holds once the event is taken in. *)
Definition pending (ev : event) (h : Hub) : list LogEntry :=
  match ev with
  | Receive => buffer h ++ take 1 (ch_buf (broadcast h))
  | _ => buffer h
  end.

(** The events on which [Run] calls [flush]. *)
Definition triggers_flush (ev : event) (h : Hub) : bool :=
  match ev with
  | StopClosed | TickerFired => true
  | Receive => (100 <=? length (pending Receive h))%nat
  | Register _ | Unregister _ => false
  end.

(** The connection of the client is open and its writer has not got to
    closing it. *)
Definition waiting (cl : client) : Prop :=
  conn cl = ConnOpen
  /\ (pc cl = AtRegister \/ pc cl = InRange \/ pc cl = AtUnregister).

Definition entry1 : LogEntry :=
  mk_LogEntry 1 "" "" "INFO" "hello" "order" "{}" "" 0.

(** A stand-in for [json.Marshal]: brackets around one comma per entry. *)
Definition marshal_len (l : list LogEntry) : list byte + error :=
  inl (Byte.x5b :: repeat Byte.x2c (length l) ++ [Byte.x5d]).

Definition message1 : list byte := [Byte.x5b; Byte.x2c; Byte.x5d].

(** The hub a schedule leads to from [NewHub]. *)
Definition run_from_new (acts : list action) : Hub :=
  match exec marshal_len acts (NewHub true) with
  | Stepped h => h
  | _ => NewHub true
  end.

(** A client connects and is registered. *)
Definition connect (c : nat) : list action := [AHandle c; ARun (Register c)].

(** An entry is broadcast and taken into the buffer. *)
Definition push : list action := [ABroadcast entry1; ARun Receive].

(** One client, one buffered entry, and [Stop] called. *)
Definition acts_stop : list action := connect 1 ++ push ++ [AStop].

(** Client 1 never reads while client 2 reads every message: 256 flushes
    later the channel of client 1 is full, and one more entry is buffered. *)
Definition acts_slow : list action :=
  connect 1 ++ connect 2
  ++ concat (replicate 256 (push ++ [ARun TickerFired; AWriter 2 true]))
  ++ push.

End RealtimeSpec.

Module StorageSpec.
Import Storage.

(** The trace [tid] has a row of the service [name], a name that is not
    empty. *)
Definition carries (rows : list Trace) (tid name : string) : Prop :=
  name <> "" /\ exists t, t ∈ rows /\ trace_id t = tid /\ service_name t = name.

(** The map built from the rows has [name] under [tid]. *)
Definition has (M : gmap string (gmap string svc_agg)) (tid name : string) : Prop :=
  exists sv, M !! tid = Some sv /\ is_Some (sv !! name).

(** The source and target of the edges, in the order of the slice. *)
Definition edge_keys (m : ServiceMapMetrics) : list (string * string) :=
  (fun e => (Source e, Target e)) <$> elems (Edges m).

Definition like_upper (s : string) : bool := Contains s "ERROR".
Definition avg_zero (l : list Z) : float := 0%float.
Definition float_id (x : float) : float := x.
Definition int_zero (x : float) : Z := 0.

Definition no_failure (q : query) : bool := false.

Definition empty_repository : Repository := mk_Repository [] [] [] no_failure.

(** Rows as a table without the unique index holds them, one for each
    service of a trace: a trace over the services a, b and c, one over a
    and b, and one of the single service z. *)
Definition repository1 : Repository :=
  mk_Repository
    [ mk_Trace "T1" "a" "OK" 5 100; mk_Trace "T1" "c" "ERROR" 7 100;
      mk_Trace "T1" "b" "OK" 2 100; mk_Trace "T2" "b" "OK" 1 100;
      mk_Trace "T2" "a" "OK" 1 100; mk_Trace "T3" "z" "OK" 1 100 ]
    [] [] no_failure.

(** Rows as the unique index keeps them: one for each trace. *)
Definition repository3 : Repository :=
  mk_Repository
    [ mk_Trace "T1" "a" "OK" 5 100; mk_Trace "T2" "b" "ERROR" 7 100;
      mk_Trace "T3" "c" "OK" 2 100 ]
    [] [] no_failure.

Definition map1 : ServiceMapMetrics :=
  match Storage.GetServiceMapMetrics like_upper avg_zero float_id
          repository1 zeroTime zeroTime with
  | inl m => m
  | inr _ => mk_ServiceMapMetrics nil_slice nil_slice
  end.

End StorageSpec.

(** ** Further vocabulary: the dead-letter queue *)

Module QueueTerms.
Import Queue QueueSpec.

(** A batch file: a regular file with the extension [.json]. *)
Definition is_batch (name : string) (nd : node) : bool :=
  negb (n_isdir nd) && String.eqb (Ext name) ".json".

(** The batch file of the name [name], with its contents, when there is
    one that can be read. *)
Definition batch_at (f : fs) (name : string) : option (string * list byte) :=
  nd ← files f !! name;
  if is_batch name nd && read_ok f name then Some (name, n_data nd) else None.

(** The readable batch files among the entries [es], in the order of
    [es]; and those of a directory, by ascending name. *)
Definition readable (f : fs) (es : list (string * bool)) : list (string * list byte) :=
  omap (fun e : string * bool => batch_at f (fst e)) es.

Definition batch_files (f : fs) : list (string * list byte) :=
  omap (batch_at f) (sort_strings (elements (dom (files f)))).

(** The number of batch files of a directory. *)
Definition batch_count (m : gmap string node) : nat :=
  length (filter (fun kv => is_batch (fst kv) (snd kv)) (map_to_list m)).

Definition is_replay (e : effect) : bool :=
  match e with CallReplay _ _ _ => true | _ => false end.

(** A call of the callback for the file [name]. *)
Definition replay_of (name : string) (e : effect) : bool :=
  match e with CallReplay n _ _ => String.eqb n name | _ => false end.

(** The calls of the callback in a trace. *)
Definition replays (tr : list effect) : list effect := filter is_replay tr.

(** The mutex over a trace, from the state [held]: [None] when the mutex
    is locked while held or unlocked while free, when the directory is
    listed or changed without it, or when a file is read or the callback
    runs under it; else whether it is held at the end. *)
Fixpoint locking (held : bool) (tr : list effect) : option bool :=
  match tr with
  | [] => Some held
  | e :: rest =>
      match e with
      | MuLock => if held then None else locking true rest
      | MuUnlock => if held then locking false rest else None
      | OsReadDir _ _ | OsRemove _ _ | OsWriteFile _ _ _ _ =>
          if held then locking held rest else None
      | OsReadFile _ _ | CallReplay _ _ _ =>
          if held then None else locking held rest
      | OsSync _ => None
      end
  end.

(** The effects a replay cycle has on the entries of the directory: they
    are about batch files. *)
Definition about_batch (d : DeadLetterQueue) (f : fs) (e : effect) : Prop :=
  match e with
  | MuLock | MuUnlock => True
  | OsReadFile p _ | OsRemove p _ =>
      exists name nd, p = Join (dir d) name /\ files f !! name = Some nd
                      /\ is_batch name nd = true
  | CallReplay name _ _ =>
      exists nd, files f !! name = Some nd /\ is_batch name nd = true
  | _ => False
  end.

Section Calls.

Variable S : Type.
Variable replayFn : list byte -> S -> bool * S.

(** The callback run over the batches one after the other, from the state
    [s]: the calls with their results, and the state at the end. *)
Fixpoint replay_calls (batches : list (string * list byte)) (s : S)
  : list effect * S :=
  match batches with
  | [] => ([], s)
  | (name, data) :: rest =>
      let '(ok, s') := replayFn data s in
      let '(calls, s'') := replay_calls rest s' in
      (CallReplay name data ok :: calls, s'')
  end.

(** What a stretch of a replay cycle over the entries [es], from [(w, n)]
    to [(w', n')] with the effects [tr], keeps true. *)
Definition cycle_facts (d : DeadLetterQueue) (es : list (string * bool))
    (w : world S) (n : nat) (w' : world S) (n' : nat) (tr : list effect) : Prop :=
  w_trace w' = w_trace w ++ tr
  /\ w_fs w' = set_files (w_fs w) (files (w_fs w'))
  /\ (forall name, name ∉ es.*1 ->
        files (w_fs w') !! name = files (w_fs w) !! name)
  /\ (forall name nd, files (w_fs w') !! name = Some nd ->
        files (w_fs w) !! name = Some nd)
  /\ (forall name nd, files (w_fs w) !! name = Some nd ->
        is_batch name nd = false -> files (w_fs w') !! name = Some nd)
  /\ replays tr = fst (replay_calls (readable (w_fs w) es) (w_cb w))
  /\ w_cb w' = snd (replay_calls (readable (w_fs w) es) (w_cb w))
  /\ locking false tr = Some false
  /\ (batch_count (files (w_fs w')) + n' = batch_count (files (w_fs w)) + n)%nat
  /\ Forall (about_batch d (w_fs w)) tr.

End Calls.

Arguments replay_calls {S} replayFn batches s.
Arguments cycle_facts {S} replayFn d es w n w' n' tr.

(** A directory with two batch files, a text file and a subdirectory. *)
Definition fs2 : fs :=
  mk_fs {[ "batch_9.json" := mk_node false [Byte.x39] 420;
           "batch_10.json" := mk_node false [Byte.x31; Byte.x30] 420;
           "notes.txt" := mk_node false [] 420;
           "old.json" := mk_node true [] 493 ]}
        true (always true) (always true) (always true) (fun _ => None).

(** An empty directory on a full disk: every [os.WriteFile] creates its file
    and fails after one byte. *)
Definition fs_full : fs :=
  mk_fs ∅ true (always true) (always true) (always false) (fun _ => Some 1%nat).

(** A callback that keeps the batches it is given and refuses a batch of
    one byte. *)
Definition replay_log (data : list byte) (s : list (list byte))
  : bool * list (list byte) :=
  (negb (length data =? 1)%nat, s ++ [data]).

Definition world2 : world (list (list byte)) := mk_world fs2 [] [].

Definition world_full : world unit := mk_world fs_full tt [].

End QueueTerms.

(** ** Further vocabulary: the broadcast hub *)

Module RealtimeTerms.
Import Realtime RealtimeSpec.

(** The count last handed to [onConnectionChange], zero before the first
    call. *)
Definition reported (h : Hub) : nat := default 0%nat (last (gauge h)).

(** The gauge is up to date, or there is no callback and no call. *)
Definition gauge_ok (h : Hub) : Prop :=
  if onConnectionChange h then reported h = size (clients h) else gauge h = [].

(** The queues of the hub are within their capacities. *)
Definition bounded (h : Hub) : Prop :=
  (length (ch_buf (broadcast h)) <= 5000)%nat
  /\ (length (buffer h) < 100)%nat
  /\ forall c cl, heap h !! c = Some cl -> (length (ch_buf (send cl)) <= 256)%nat.

(** What a client has been sent: the messages written to its connection,
    then those queued for it. *)
Definition stream (cl : client) : list (list byte) := wire cl ++ ch_buf (send cl).

(** The writer of the client has not met a failed write or a closed
    channel. *)
Definition writing (cl : client) : Prop := pc cl = AtRegister \/ pc cl = InRange.

Section Follows.

Variable Marshal : list LogEntry -> list byte + error.

(** A message of the hub: the JSON text of a batch that is not empty. *)
Definition batch_message (m : list byte) : Prop :=
  exists batch, batch <> [] /\ Marshal batch = inl m.

(** The client [cl'] is a later state of [cl]: what was written stays
    written, and as long as the writer goes on, what the client has been
    sent grows at its end only, by messages of the hub. *)
Definition follows (cl cl' : client) : Prop :=
  (exists more, wire cl' = wire cl ++ more)
  /\ (writing cl' ->
      writing cl
      /\ exists new, stream cl' = stream cl ++ new /\ Forall batch_message new).

End Follows.

(** The schedule on which the writer of the client at [c] makes [k] writes
    that succeed and then leaves its loop, on a write with the result [ok]
    or at the end of its closed channel; it hands itself to [Run] to be
    unregistered and closes the connection (a step that writes nothing). *)
Definition wind_down (c : nat) (k : nat) (ok : bool) : list action :=
  replicate k (AWriter c true)
  ++ [AWriter c ok; ARun (Unregister c); AWriter c true].

(** A client that is not registered waits to be registered, or has had
    its channel closed. *)
Definition closed_when_removed (h : Hub) : Prop :=
  forall c cl, heap h !! c = Some cl -> c ∉ clients h ->
               pc cl = AtRegister \/ ch_closed (send cl) = true.

(** The client as [HandleWebSocket] makes it. *)
Definition new_client : client := mk_client (make_chan 256) ConnOpen [] AtRegister.

(** The client [cl'] is a later state of [cl] in which no message was
    queued for it and its channel was not closed: messages were taken
    from the front of its channel at most, and a client that waits to be
    registered is as it was. *)
Definition drained (cl cl' : client) : Prop :=
  (pc cl = AtRegister -> cl' = cl)
  /\ ch_closed (send cl') = ch_closed (send cl)
  /\ exists taken, ch_buf (send cl) = taken ++ ch_buf (send cl').

(** The hub after client 1 has let its channel fill up and a flush has
    shed it, and that client, with the 256 messages still queued. *)
Definition hub_after_shed : Hub := run_from_new (acts_slow ++ [ARun TickerFired]).

Definition client_1_shed : client :=
  default new_client (heap hub_after_shed !! 1%nat).

(** A client that has just been registered. *)
Definition client_registered : client :=
  mk_client (make_chan 256) ConnOpen [] InRange.

End RealtimeTerms.

(** ** Further vocabulary: the storage queries *)

Module StorageTerms.
Import Storage StorageSpec.

(** The rows of [traces] a statement with the time window and the service
    filter selects. *)
Definition selected (r : Repository) (start end_ : Z) (names : list string)
  : list Trace :=
  filter (fun t => between start end_ (timestamp t)
                   && in_services names (service_name t)) (traces r).

(** The start of the minute an instant falls in. *)
Definition minute_of (t : Z) : Z := t / minute * minute.

Definition in_minute (m : Z) (rows : list Trace) : list Trace :=
  filter (fun t => minute_of (timestamp t) = m) rows.

Definition with_error (rows : list Trace) : list Trace :=
  filter (fun t => Contains (status t) "ERROR") rows.

(** The point a minute of the rows is summed up in. *)
Definition point_of (rows : list Trace) (m : Z) : TrafficPoint :=
  mk_TrafficPoint m (wrap64 (count (in_minute m rows)))
    (wrap64 (count (with_error (in_minute m rows)))).

Definition Zsum (l : list Z) : Z := foldr Z.add 0 l.

(** The rows of one service. *)
Definition of_service (name : string) (rows : list Trace) : list Trace :=
  filter (fun t => service_name t = name) rows.

(** What the loop of [GetTrafficMetrics] holds for the key [ts] after
    [rows]. *)
Definition bucket_of (rows : list Trace) (ts : Z) : option Storage.bucket :=
  let l := filter (fun t => truncate_minute_unix (timestamp t) = ts) rows in
  match l with
  | [] => None
  | _ => Some (mk_bucket (wrap64 (count l)) (wrap64 (count (with_error l))))
  end.

(** The statements of [GetDashboardStats] whose failure is returned. *)
Definition dashboard_fatal (r : Repository) : bool :=
  fails r QCountTraces || fails r QCountLogs || fails r QCountErrors
  || fails r QActiveServices || fails r QDurations.

(** The entry of [TopFailingServices] made from a row [(name, total,
    errors)] of the statement. *)
Definition service_error (sc : string * Z * Z) : ServiceError :=
  let '(name, total, errors) := sc in
  mk_ServiceError name errors total
    (if 0 <? total then PrimFloat.div (float64 errors) (float64 total)
     else 0%float).

(** The index [p99Index] after the two bounds checks, over [n] durations,
    from the index [i] first computed. *)
Definition clamp_index (n i : Z) : Z :=
  let i := if i >=? n then n - 1 else i in
  if i <? 0 then 0 else i.

(** The statements of [GetServiceMapMetrics] whose failure is returned. *)
Definition service_map_fatal (r : Repository) : bool :=
  fails r QNodes || fails r QSpans || fails r QTraceInfos.

(** The rows of [traces] within the window of the service map. *)
Definition in_window (r : Repository) (start end_ : Z) : list Trace :=
  filter (fun t => windowed start end_ (timestamp t)) (traces r).

(** The trace [tid] has a row of the service [name], a name that is not
    empty; and the traces of the rows that have a row of [a] and one of
    [b]. *)
Definition carriesb (rows : list Trace) (tid name : string) : bool :=
  negb (String.eqb name "")
  && existsb (fun t => String.eqb (trace_id t) tid
                       && String.eqb (service_name t) name) rows.

Definition shared_traces (rows : list Trace) (a b : string) : list string :=
  filter (fun tid => carriesb rows tid a && carriesb rows tid b)
    (remove_dups (map trace_id rows)).

(** The call count held for a key, zero for a missing key. *)
Definition calls (agg : gmap (string * string) edge_agg) (k : string * string) : Z :=
  ea_calls (default edge_zero (agg !! k)).

(** The point of the heatmap made from a row. *)
Definition latency_point (t : Trace) : LatencyPoint :=
  mk_LatencyPoint (timestamp t) (duration t).

(** A table of five traces over three minutes and two services, and a table
    of logs. *)
Definition repository2 : Repository :=
  mk_Repository
    [ mk_Trace "T1" "a" "OK" 5 (10 * second);
      mk_Trace "T2" "a" "ERROR" 9 (20 * second);
      mk_Trace "T3" "b" "STATUS_CODE_ERROR" 7 (70 * second);
      mk_Trace "T4" "b" "OK" 3 (130 * second);
      mk_Trace "T4" "a" "OK" 4 (131 * second) ]
    [ mk_Log "a" (10 * second); mk_Log "b" (100 * second);
      mk_Log "a" (30 * second) ]
    [] no_failure.

End StorageTerms.

(** ** Further vocabulary: opening the database *)

Module FactoryTerms.
Import Factory.

(** The three pragmas of SQLite, and the pool settings of a dialect. *)
Definition sqlite_pragmas : list effect :=
  [Exec "PRAGMA journal_mode=WAL";
   Exec "PRAGMA busy_timeout=5000";
   Exec "PRAGMA synchronous=NORMAL"].

Definition pool_of (d : dialect) : list effect :=
  match d with
  | SQLite => [SetMaxIdleConns 1; SetMaxOpenConns 1; SetConnMaxLifetime hour]
  | _ => [SetMaxIdleConns 10; SetMaxOpenConns 50; SetConnMaxLifetime hour]
  end.

Definition pragmas_of (d : dialect) : list effect :=
  match d with SQLite => sqlite_pragmas | _ => [] end.

(** The DSN of MySQL when none is given. *)
Definition mysql_default_dsn : string :=
  "root:admin@tcp(127.0.0.1:3306)/argus?charset=utf8mb4&parseTime=True&loc=Local".

(** Lower case for the letters of ASCII. *)
Definition lower_ascii (c : ascii) : ascii :=
  let n := nat_of_ascii c in
  if (65 <=? n)%nat && (n <=? 90)%nat then ascii_of_nat (n + 32) else c.

Fixpoint lower (s : string) : string :=
  match s with
  | EmptyString => EmptyString
  | String c rest => String (lower_ascii c) (lower rest)
  end.

(** A database that can always be opened. *)
Definition open_fine (d : dialect) (dsn : string) : option error := None.

End FactoryTerms.
(** * Properties *)

(** ** The order of strings *)

Section StringOrder.

Lemma ascii_compare_refl (a : ascii) : Ascii.compare a a = Eq.
Proof. unfold Ascii.compare. apply N.compare_refl. Qed.

Lemma ascii_compare_lt_trans (a b c : ascii) :
  Ascii.compare a b = Lt -> Ascii.compare b c = Lt -> Ascii.compare a c = Lt.
Proof.
  unfold Ascii.compare. rewrite !N.compare_lt_iff. lia.
Qed.

Lemma string_compare_refl (s : string) : String.compare s s = Eq.
Proof.
  induction s as [|a s IH]; simpl; [reflexivity|].
  rewrite ascii_compare_refl. exact IH.
Qed.

Lemma string_compare_lt_trans (a b c : string) :
  String.compare a b = Lt -> String.compare b c = Lt -> String.compare a c = Lt.
Proof.
  revert b c. induction a as [|x a IH]; intros [|y b] [|z c]; simpl;
    try discriminate; try reflexivity.
  destruct (Ascii.compare x y) eqn:Hxy; destruct (Ascii.compare y z) eqn:Hyz;
    try discriminate; intros Hab Hbc.
  - apply Ascii.compare_eq_iff in Hxy, Hyz. subst.
    rewrite ascii_compare_refl. eauto.
  - apply Ascii.compare_eq_iff in Hxy. subst. rewrite Hyz. reflexivity.
  - apply Ascii.compare_eq_iff in Hyz. subst. rewrite Hxy. reflexivity.
  - rewrite (ascii_compare_lt_trans _ _ _ Hxy Hyz). reflexivity.
Qed.

Lemma string_le_cases (a b : string) :
  string_le a b <-> a = b \/ String.compare a b = Lt.
Proof.
  unfold string_le, String.leb. split.
  - destruct (String.compare a b) eqn:H; intros; try discriminate.
    + left. apply String.compare_eq_iff. exact H.
    + right. reflexivity.
  - intros [->|H].
    + rewrite string_compare_refl. reflexivity.
    + rewrite H. reflexivity.
Qed.

#[global] Instance string_le_trans : Transitive string_le.
Proof.
  intros a b c. rewrite !string_le_cases.
  intros [->|Hab] [->|Hbc]; eauto using string_compare_lt_trans.
Qed.

#[global] Instance string_le_total : Total string_le.
Proof. intros a b. apply String.leb_total. Qed.

#[global] Instance string_le_antisym : AntiSymm (=) string_le.
Proof. intros a b. apply String.leb_antisym. Qed.

Lemma string_lt_of_le_ne (a b : string) :
  string_le a b -> a <> b -> String.ltb a b = true.
Proof.
  rewrite string_le_cases. intros [->|H] Hne; [congruence|].
  unfold String.ltb. rewrite H. reflexivity.
Qed.

Lemma string_ltb_irrefl (a : string) : String.ltb a a = false.
Proof. unfold String.ltb. rewrite string_compare_refl. reflexivity. Qed.

Lemma sort_strings_perm (l : list string) : sort_strings l ≡ₚ l.
Proof. apply merge_sort_Permutation. Qed.

Lemma sort_strings_sorted (l : list string) :
  StronglySorted string_le (sort_strings l).
Proof. apply StronglySorted_merge_sort; apply _. Qed.

Lemma elem_of_sort_strings (x : string) (l : list string) :
  x ∈ sort_strings l <-> x ∈ l.
Proof. rewrite sort_strings_perm. reflexivity. Qed.

Lemma NoDup_sort_strings (l : list string) : NoDup l -> NoDup (sort_strings l).
Proof. rewrite sort_strings_perm. auto. Qed.

End StringOrder.

(** ** Zstandard *)

Module CompressProps.
Import Compress CompressSpec.

Section RoundTrip.

Variable EncodeAll : slice byte -> slice byte -> slice byte.
Variable DecodeAll : slice byte -> slice byte -> slice byte * option error.

(** What the library promises: a frame encoded into an empty buffer
    decodes to the bytes it was made from, and a frame is never empty. *)
Hypothesis DecodeAll_EncodeAll : forall d : slice byte,
  len d <> 0%nat ->
  DecodeAll (EncodeAll d (mk_slice [])) nil_slice = (d, None).
Hypothesis EncodeAll_nonempty : forall d : slice byte,
  len d <> 0%nat -> len (EncodeAll d (mk_slice [])) <> 0%nat.

(** C9: for a non-empty [d], [Decompress (Compress d)] is [d] with a nil
    error; for an input of length zero, nil or not, [Compress] returns nil
    and [Decompress] returns nil with a nil error. *)
Theorem Decompress_Compress (d : slice byte) :
  (len d <> 0%nat ->
     Decompress DecodeAll (Compress EncodeAll d) = (d, None))
  /\ (len d = 0%nat ->
        Compress EncodeAll d = nil_slice
        /\ Decompress DecodeAll d = (nil_slice, None)).
Proof.
  unfold Compress, Decompress, make_bytes. split.
  - intros Hd.
    destruct (Nat.eqb_spec (len d) 0) as [|_]; [contradiction|].
    destruct (Nat.eqb_spec (len (EncodeAll d (mk_slice []))) 0) as [He|_].
    + exfalso. exact (EncodeAll_nonempty d Hd He).
    + rewrite DecodeAll_EncodeAll by exact Hd. reflexivity.
  - intros Hd. rewrite Hd. simpl. split; reflexivity.
Qed.

End RoundTrip.

Lemma Decompress_Compress_witness :
  Decompress frame_DecodeAll
    (Compress frame_EncodeAll (mk_slice [Byte.x68; Byte.x69]))
  = (mk_slice [Byte.x68; Byte.x69], None).
Proof.
  apply (Decompress_Compress frame_EncodeAll frame_DecodeAll).
  - intros [|l] Hl; [contradiction|]. destruct l; [contradiction|reflexivity].
  - intros [|l] Hl; [contradiction|]. destruct l; [contradiction|discriminate].
  - discriminate.
Defined.

End CompressProps.

(** ** The dead-letter queue *)

Module QueueProps.
Import Queue QueueSpec.

(** Membership in a list that is written out. *)
Ltac inv_elem :=
  repeat match goal with
  | H : _ ∈ [] |- _ => apply elem_of_nil in H; destruct H
  | H : _ ∈ _ :: _ |- _ =>
      apply elem_of_cons in H; destruct H as [H|H];
      [ try discriminate H; try (injection H as ? ? ?; subst) | ]
  | H : _ ∈ _ ++ _ |- _ => apply elem_of_app in H; destruct H as [H|H]
  end.

Lemma omap_fst_sublist {A} (g : string -> option (string * A)) (l : list string) :
  (forall x y, g x = Some y -> fst y = x) ->
  sublist ((omap g l).*1) l.
Proof.
  intros Hg. induction l as [|x l IH]; simpl; [constructor|].
  destruct (g x) as [y|] eqn:Hx; simpl.
  - rewrite (Hg _ _ Hx). constructor. exact IH.
  - constructor. exact IH.
Qed.

Lemma ReadDir_NoDup (f : fs) (es : list (string * bool)) :
  ReadDir f = Some es -> NoDup (es.*1).
Proof.
  unfold ReadDir. destruct (readdir_ok f); [|discriminate].
  intros [= <-].
  eapply sublist_NoDup;
    [apply NoDup_sort_strings, (NoDup_elements (dom (files f)))|].
  apply omap_fst_sublist. intros x y.
  destruct (files f !! x); simpl; [|discriminate]. intros [= <-]. reflexivity.
Qed.

(** [ReadDir] lists every entry, with its directory bit. *)
Lemma ReadDir_complete (f : fs) (es : list (string * bool)) (name : string) (nd : node) :
  ReadDir f = Some es -> files f !! name = Some nd -> (name, n_isdir nd) ∈ es.
Proof.
  unfold ReadDir. destruct (readdir_ok f); [|discriminate].
  intros [= <-] Hnd. apply list_elem_of_omap. exists name. split.
  - apply elem_of_sort_strings, elem_of_elements, elem_of_dom. eauto.
  - rewrite Hnd. reflexivity.
Qed.

Section Replay.

Variable S : Type.
Variable replayFn : list byte -> S -> bool * S.

Abbreviation world := (world S).
Abbreviation process_entry := (process_entry replayFn).
Abbreviation processFiles := (processFiles replayFn).
Abbreviation cycle_ok := (cycle_ok replayFn).

(** A stretch that leaves the directory as it is. *)
Lemma cycle_ok_unchanged (name : string) (w w' : world) (tr : list effect) :
  w_fs w' = w_fs w ->
  w_trace w' = w_trace w ++ tr ->
  (forall k data ok, CallReplay k data ok ∈ tr ->
     k = name
     /\ (exists nd, files (w_fs w) !! name = Some nd /\ data = n_data nd)
     /\ (exists s s', replayFn data s = (ok, s'))
     /\ (ok = true -> remove_ok (w_fs w) name = false)) ->
  cycle_ok [name] w w' tr.
Proof.
  intros Hfs Htr Hc. unfold cycle_ok. rewrite Hfs.
  split; [exact Htr|].
  split; [destruct (w_fs w); reflexivity|].
  split; [intros k; left; reflexivity|].
  split; [intros k _; reflexivity|].
  split; [|split].
  - intros k data ok H. destruct (Hc _ _ _ H) as (-> & Hnd & Hcb & _).
    split; [apply list_elem_of_singleton; reflexivity|]. split; assumption.
  - intros k nd Hk. rewrite Hk. split; [discriminate|].
    intros [H Hrm]. destruct (Hc _ _ _ H) as (-> & _ & _ & Hno).
    rewrite Hno in Hrm by reflexivity. discriminate.
  - intros k data _. reflexivity.
Qed.

Lemma cycle_ok_nil (w : world) : cycle_ok [] w w [].
Proof.
  unfold cycle_ok. rewrite app_nil_r.
  split; [reflexivity|].
  split; [destruct (w_fs w); reflexivity|].
  split; [intros k; left; reflexivity|].
  split; [intros k _; reflexivity|].
  split; [|split].
  - intros k data ok H. inv_elem.
  - intros k nd Hk. rewrite Hk. split; [discriminate|]. intros [H _]. inv_elem.
  - intros k data H. inv_elem.
Qed.

Lemma ReadFile_Some (f : fs) (name : string) (data : list byte) :
  ReadFile f name = Some data ->
  exists nd, files f !! name = Some nd /\ data = n_data nd.
Proof.
  unfold ReadFile. destruct (files f !! name) as [nd|]; [|discriminate].
  destruct (read_ok f name && negb (n_isdir nd)); [|discriminate].
  intros [= <-]. eauto.
Qed.

Lemma process_entry_ok (d : DeadLetterQueue) (name : string) (isdir : bool)
    (w w' : world) (n n' : nat) :
  process_entry d (name, isdir) (w, n) = (w', n') ->
  exists tr, cycle_ok [name] w w' tr.
Proof.
  unfold process_entry. simpl fst. simpl snd.
  destruct (isdir || negb (Ext name =? ".json")%string).
  { intros [= <- <-]. exists []. apply cycle_ok_unchanged.
    - reflexivity.
    - rewrite app_nil_r. reflexivity.
    - intros k data ok H. inv_elem. }
  destruct (ReadFile (w_fs w) name) as [data|] eqn:Hread.
  2:{ intros [= <- <-]. eexists. apply cycle_ok_unchanged.
      - reflexivity.
      - reflexivity.
      - intros k data ok H. inv_elem. }
  destruct (ReadFile_Some _ _ _ Hread) as (nd & Hnd & ->).
  simpl w_cb. destruct (replayFn (n_data nd) (w_cb w)) as [ok s'] eqn:Hcb.
  destruct ok; simpl negb; cbv iota.
  2:{ intros [= <- <-]. eexists. apply cycle_ok_unchanged.
      - reflexivity.
      - simpl. rewrite <- app_assoc. reflexivity.
      - intros k data ok H. inv_elem.
        split; [reflexivity|]. split; [eauto|]. split; [eauto|discriminate]. }
  unfold Remove. simpl w_fs. rewrite Hnd.
  destruct (remove_ok (w_fs w) name) eqn:Hrm.
  - intros [= <- <-]. eexists. unfold cycle_ok, emit, with_fs. simpl.
    split; [rewrite <- !app_assoc; reflexivity|].
    split; [reflexivity|].
    split; [|split; [|split; [|split]]].
    + intros k. destruct (decide (k = name)) as [->|Hne].
      * right. apply lookup_delete_eq.
      * left. apply lookup_delete_ne. congruence.
    + intros k Hk. apply lookup_delete_ne.
      intros ->. apply Hk, list_elem_of_singleton. reflexivity.
    + intros k data ok H. inv_elem.
      split; [apply list_elem_of_singleton; reflexivity|].
      split; [exists nd; split; [exact Hnd|reflexivity]|].
      exists (w_cb w), s'. exact Hcb.
    + intros k nd' Hk. destruct (decide (k = name)) as [->|Hne].
      * rewrite lookup_delete_eq. rewrite Hnd in Hk. injection Hk as <-.
        split; [intros _|reflexivity]. split; [|exact Hrm].
        apply elem_of_cons. right. apply elem_of_cons. left. reflexivity.
      * rewrite lookup_delete_ne by congruence. rewrite Hk.
        split; [discriminate|]. intros [H _]. inv_elem. congruence.
    + intros k data H. inv_elem.
  - intros [= <- <-]. eexists. apply cycle_ok_unchanged.
    + reflexivity.
    + simpl. rewrite <- !app_assoc. reflexivity.
    + intros k data ok H. inv_elem.
      split; [reflexivity|]. split; [eauto|]. split; [eauto|]. intros _. exact Hrm.
Qed.

Lemma cycle_ok_app (a : string) (names : list string) (w w1 w' : world)
    (tr1 tr2 : list effect) :
  a ∉ names ->
  cycle_ok [a] w w1 tr1 -> cycle_ok names w1 w' tr2 ->
  cycle_ok (a :: names) w w' (tr1 ++ tr2).
Proof.
  intros Ha (Ht1 & Hf1 & Hs1 & Hfr1 & Hc1 & Hi1 & Hn1)
            (Ht2 & Hf2 & Hs2 & Hfr2 & Hc2 & Hi2 & Hn2).
  assert (Hro : remove_ok (w_fs w1) = remove_ok (w_fs w))
    by (rewrite Hf1; reflexivity).
  assert (Hother : forall k, k <> a -> files (w_fs w1) !! k = files (w_fs w) !! k).
  { intros k Hk. apply Hfr1. rewrite list_elem_of_singleton. exact Hk. }
  assert (Hno1 : forall k data ok, CallReplay k data ok ∈ tr1 -> k = a).
  { intros k data ok H. apply Hc1 in H as [H _].
    apply list_elem_of_singleton in H. exact H. }
  assert (Hno2 : forall data ok, CallReplay a data ok ∉ tr2).
  { intros data ok H. apply Hc2 in H as [H _]. contradiction. }
  unfold cycle_ok.
  split; [rewrite Ht2, Ht1, app_assoc; reflexivity|].
  split; [rewrite Hf2 at 1; rewrite Hf1; reflexivity|].
  split; [|split; [|split; [|split]]].
  - intros k. destruct (Hs2 k) as [H2|H2]; [|right; exact H2].
    rewrite H2. apply Hs1.
  - intros k Hk. rewrite not_elem_of_cons in Hk. destruct Hk as [Hka Hk].
    rewrite (Hfr2 k Hk). apply Hother. exact Hka.
  - intros k data ok H. apply elem_of_app in H as [H|H].
    + pose proof (Hno1 _ _ _ H) as ->.
      destruct (Hc1 _ _ _ H) as (_ & Hnd & Hcb).
      split; [apply elem_of_cons; left; reflexivity|]. split; assumption.
    + destruct (Hc2 _ _ _ H) as (Hin & (nd & Hnd & ->) & Hcb).
      split; [apply elem_of_cons; right; exact Hin|]. split; [|exact Hcb].
      exists nd. split; [|reflexivity].
      rewrite <- Hother; [exact Hnd|]. intros ->. contradiction.
  - intros k nd Hk. rewrite elem_of_app.
    destruct (decide (k = a)) as [->|Hne].
    + rewrite (Hfr2 a Ha). rewrite (Hi1 a nd Hk).
      split.
      * intros [H1 H2]. split; [left; exact H1|exact H2].
      * intros [[H1|H1] H2]; [split; assumption|].
        exfalso. exact (Hno2 _ _ H1).
    + rewrite <- (Hother k Hne) in Hk. rewrite (Hi2 k nd Hk), Hro.
      split.
      * intros [H1 H2]. split; [right; exact H1|exact H2].
      * intros [[H1|H1] H2]; [|split; assumption].
        exfalso. apply Hne. exact (Hno1 _ _ _ H1).
  - intros k data H. apply elem_of_app in H as [H|H].
    + pose proof (Hno1 _ _ _ H) as ->.
      rewrite (Hfr2 a Ha). apply (Hn1 _ _ H).
    + rewrite (Hn2 _ _ H). apply Hother.
      intros ->. exact (Hno2 _ _ H).
Qed.

Lemma foldl_process_entry_ok (d : DeadLetterQueue) (es : list (string * bool)) :
  NoDup (es.*1) ->
  forall (w : world) (n : nat),
  exists tr, cycle_ok (es.*1) w
               (fst (foldl (fun st e => process_entry d e st) (w, n) es)) tr.
Proof.
  induction es as [|[name isdir] es IH]; intros Hnd w n.
  - exists []. apply cycle_ok_nil.
  - rewrite fmap_cons in Hnd. apply NoDup_cons in Hnd as [Hname Hnd].
    cbn [foldl]. rewrite fmap_cons. cbn [fst].
    destruct (process_entry d (name, isdir) (w, n)) as [w1 n1] eqn:Hstep.
    destruct (process_entry_ok _ _ _ _ _ _ _ Hstep) as [tr1 H1].
    destruct (IH Hnd w1 n1) as [tr2 H2].
    exists (tr1 ++ tr2).
    exact (cycle_ok_app _ _ _ _ _ _ _ Hname H1 H2).
Qed.

(** C1, as the code has it: a file of the DLQ directory is gone after a
    replay cycle if and only if the callback, called on the bytes of that
    file, returned success and [os.Remove] then succeeded; after a failed
    replay it is in place as it was; and the callback is only ever called
    on the bytes of the file. *)
Theorem processFiles_removes_iff (d : DeadLetterQueue) (w : world)
    (name : string) (nd : node) :
  files (w_fs w) !! name = Some nd ->
  exists tr,
    w_trace (fst (processFiles d w)) = w_trace w ++ tr
    /\ (files (w_fs (fst (processFiles d w))) !! name = None
        <-> CallReplay name (n_data nd) true ∈ tr
            /\ remove_ok (w_fs w) name = true)
    /\ (forall data, CallReplay name data false ∈ tr ->
          files (w_fs (fst (processFiles d w))) !! name = Some nd)
    /\ (forall data ok, CallReplay name data ok ∈ tr ->
          data = n_data nd /\ exists s s', replayFn data s = (ok, s')).
Proof.
  intros Hnd. unfold processFiles. simpl w_fs.
  destruct (ReadDir (w_fs w)) as [es|] eqn:Hdir.
  - destruct (foldl_process_entry_ok d es (ReadDir_NoDup _ _ Hdir)
                (emit (emit w [MuLock]) [OsReadDir (dir d) true; MuUnlock]) 0%nat)
      as [tr (Ht & Hf & Hs & Hfr & Hc & Hi & Hn)].
    simpl in Ht, Hf, Hs, Hfr, Hc, Hi, Hn.
    exists ([MuLock] ++ [OsReadDir (dir d) true; MuUnlock] ++ tr).
    split; [rewrite Ht, <- !app_assoc; reflexivity|].
    split; [|split].
    + rewrite (Hi name nd Hnd). split.
      * intros [H1 H2]. split; [|exact H2].
        apply elem_of_app. right. apply elem_of_app. right. exact H1.
      * intros [H1 H2]. split; [|exact H2]. inv_elem. exact H1.
    + intros data H. inv_elem. rewrite (Hn _ _ H). exact Hnd.
    + intros data ok H. inv_elem.
      destruct (Hc _ _ _ H) as (_ & (nd' & Hnd' & ->) & Hcb).
      split; [congruence|exact Hcb].
  - simpl. eexists. split; [rewrite <- app_assoc; reflexivity|].
    split; [|split].
    + rewrite Hnd. split; [discriminate|]. intros [H _]. inv_elem.
    + intros data H. inv_elem.
    + intros data ok H. inv_elem.
Qed.

End Replay.

Section EnqueueProps.

Variable Batch : Type.
Variable Marshal : Batch -> list byte + error.
Variable S : Type.

(** C3, as the code has it: when the batch marshals and the write is let
    through, [Enqueue] returns a nil error, having taken the mutex, written
    the marshalled bytes and nothing else to [batch_<nanos>.json] (created
    with mode 0644), and released the mutex; no other entry changes and
    nothing is synced. *)
Theorem Enqueue_writes_batch (d : DeadLetterQueue) (now : Z) (batch : Batch)
    (w : world S) (data : list byte) :
  Marshal batch = inl data ->
  write_ok (w_fs w) (batch_filename now) = true ->
  (forall nd, files (w_fs w) !! batch_filename now = Some nd -> n_isdir nd = false) ->
  exists w',
    Enqueue Marshal d now batch w = (w', None)
    /\ w_trace w' =
         w_trace w ++ [MuLock;
                       OsWriteFile (Join (dir d) (batch_filename now)) data
                                   perm_0o644 true;
                       MuUnlock]
    /\ (exists nd, files (w_fs w') !! batch_filename now = Some nd
                   /\ n_isdir nd = false /\ n_data nd = data
                   /\ (files (w_fs w) !! batch_filename now = None ->
                       n_perm nd = perm_0o644))
    /\ (forall other, other <> batch_filename now ->
          files (w_fs w') !! other = files (w_fs w) !! other).
Proof.
  intros Hm Hw Hdir. unfold Enqueue. rewrite Hm. unfold WriteFile, is_directory.
  simpl w_fs. unfold opened.
  destruct (files (w_fs w) !! batch_filename now) as [nd|] eqn:Hnd.
  - rewrite (Hdir nd eq_refl), Hw. eexists. split; [reflexivity|].
    unfold emit, with_fs; simpl. split; [rewrite <- app_assoc; reflexivity|].
    split.
    + eexists. rewrite lookup_insert_eq. split; [reflexivity|].
      simpl. repeat split. discriminate.
    + intros other Hne. apply lookup_insert_ne. congruence.
  - rewrite Hw. eexists. split; [reflexivity|].
    unfold emit, with_fs; simpl. split; [rewrite <- app_assoc; reflexivity|].
    split.
    + eexists. rewrite lookup_insert_eq. split; [reflexivity|].
      simpl. repeat split.
    + intros other Hne. apply lookup_insert_ne. congruence.
Qed.

End EnqueueProps.

(** *** The queue on a small directory *)

Lemma processFiles_removes_iff_witness :
  exists tr,
    w_trace (fst (processFiles replay_ok dlq0 (mk_world (fs1 true) tt []))) = [] ++ tr
    /\ (files (w_fs (fst (processFiles replay_ok dlq0 (mk_world (fs1 true) tt []))))
          !! "batch_7.json" = None
        <-> CallReplay "batch_7.json" payload true ∈ tr
            /\ always true "batch_7.json" = true)
    /\ (forall data, CallReplay "batch_7.json" data false ∈ tr ->
          files (w_fs (fst (processFiles replay_ok dlq0 (mk_world (fs1 true) tt []))))
            !! "batch_7.json" = Some (mk_node false payload 420))
    /\ (forall data ok, CallReplay "batch_7.json" data ok ∈ tr ->
          data = payload /\ exists s s', replay_ok data s = (ok, s')).
Proof.
  apply (processFiles_removes_iff unit replay_ok dlq0
           (mk_world (fs1 true) tt []) "batch_7.json" (mk_node false payload 420)).
  vm_compute. reflexivity.
Defined.

(** C1 as stated fails where the removal fails: the callback returned
    success on the bytes of [batch_7.json], and the file is still there. *)
Lemma processFiles_replayed_not_removed :
  CallReplay "batch_7.json" payload true
    ∈ w_trace (fst (processFiles replay_ok dlq0 (mk_world (fs1 false) tt [])))
  /\ files (w_fs (fst (processFiles replay_ok dlq0 (mk_world (fs1 false) tt []))))
       !! "batch_7.json" = Some (mk_node false payload 420).
Proof.
  split.
  - assert (Htr : w_trace (fst (processFiles replay_ok dlq0
                                  (mk_world (fs1 false) tt [])))
                  = [MuLock; OsReadDir "./data/dlq" true; MuUnlock;
                     OsReadFile "data/dlq/batch_7.json" true;
                     CallReplay "batch_7.json" payload true;
                     MuLock; OsRemove "data/dlq/batch_7.json" false; MuUnlock])
      by (vm_compute; reflexivity).
    rewrite Htr. rewrite !elem_of_cons. tauto.
  - vm_compute. reflexivity.
Qed.

Lemma Enqueue_writes_batch_witness :
  exists w',
    Enqueue marshal_bytes dlq0 42 payload (mk_world fs_empty tt []) = (w', None)
    /\ w_trace w' =
         [] ++ [MuLock;
                OsWriteFile (Join (dir dlq0) (batch_filename 42)) payload
                            perm_0o644 true;
                MuUnlock]
    /\ (exists nd, files (w_fs w') !! batch_filename 42 = Some nd
                   /\ n_isdir nd = false /\ n_data nd = payload
                   /\ (files fs_empty !! batch_filename 42 = None ->
                       n_perm nd = perm_0o644))
    /\ (forall other, other <> batch_filename 42 ->
          files (w_fs w') !! other = files fs_empty !! other).
Proof.
  apply (Enqueue_writes_batch (list byte) marshal_bytes unit dlq0 42 payload
           (mk_world fs_empty tt []) payload).
  - reflexivity.
  - reflexivity.
  - intros nd H. vm_compute in H. discriminate H.
Defined.

(** C3 as stated fails: the file holds the marshalled batch and nothing
    around it, and no sync of the file or the directory is issued. *)
Lemma Enqueue_no_envelope_no_sync :
  snd (Enqueue marshal_bytes dlq0 42 payload (mk_world fs_empty tt [])) = None
  /\ n_data <$> files (w_fs (fst (Enqueue marshal_bytes dlq0 42 payload
                                    (mk_world fs_empty tt []))))
                 !! "batch_42.json" = Some payload
  /\ ~ (exists p, OsSync p ∈ w_trace (fst (Enqueue marshal_bytes dlq0 42 payload
                                             (mk_world fs_empty tt [])))).
Proof.
  split; [vm_compute; reflexivity|]. split; [vm_compute; reflexivity|].
  intros [p Hp].
  assert (Htr : w_trace (fst (Enqueue marshal_bytes dlq0 42 payload
                                (mk_world fs_empty tt [])))
                = [MuLock;
                   OsWriteFile "data/dlq/batch_42.json" payload 420 true;
                   MuUnlock])
    by (vm_compute; reflexivity).
  rewrite Htr in Hp. inv_elem.
Qed.

End QueueProps.

(** ** The broadcast hub *)

Module RealtimeProps.
Import Realtime RealtimeSpec.

Lemma same_settings_refl (h : Hub) : same_settings h h.
Proof. unfold same_settings. tauto. Qed.

Lemma same_settings_trans (h1 h2 h3 : Hub) :
  same_settings h1 h2 -> same_settings h2 h3 -> same_settings h1 h3.
Proof. unfold same_settings. intuition congruence. Qed.

Lemma NewHub_inv (callback : bool) : hub_inv (NewHub callback).
Proof.
  unfold hub_inv, NewHub; simpl.
  split; [reflexivity|]. split; [reflexivity|]. split; [reflexivity|].
  split; [reflexivity|]. split; [lia|]. split; [|split].
  - intros c Hc. simpl in Hc. set_solver.
  - intros c cl Hc. simpl in Hc. set_solver.
  - intros c cl Hc. simpl in Hc. rewrite lookup_empty in Hc. discriminate.
Qed.

Lemma pc_deliver (data : list byte) (cl : client) : pc (deliver data cl) = pc cl.
Proof. unfold deliver. destruct (full cl); reflexivity. Qed.

Lemma conn_deliver (data : list byte) (cl : client) : conn (deliver data cl) = conn cl.
Proof. unfold deliver. destruct (full cl); reflexivity. Qed.

Lemma deliver_ok (data : list byte) (cl : client) :
  client_ok cl -> full cl = false -> client_ok (deliver data cl).
Proof.
  unfold client_ok, deliver, full. intros (Hc & Hcap & Hlen) Hfull.
  rewrite Hfull. simpl. rewrite length_app. simpl.
  apply Nat.leb_gt in Hfull. repeat split; [assumption|lia].
Qed.

Lemma flush_client_eq (data : list byte) (c : nat) (h : Hub) (cl : client) :
  heap h !! c = Some cl ->
  ch_closed (send cl) = false ->
  flush_client data c h =
    Some (if full cl
          then notify (set_heap (set_clients h (clients h ∖ {[c]}))
                                (<[c := deliver data cl]> (heap h)))
          else set_heap h (<[c := deliver data cl]> (heap h))).
Proof.
  intros Hc Hopen. unfold flush_client, try_send, deliver, full.
  rewrite Hc, Hopen, Nat.ltb_antisym.
  destruct (ch_cap (send cl) <=? length (ch_buf (send cl)))%nat; reflexivity.
Qed.

(** The loop of [flush] over the registered clients [cs]. *)
Lemma flush_loop_spec (data : list byte) (cs : list nat) :
  NoDup cs ->
  forall h : Hub,
  (forall c, c ∈ cs -> c ∈ clients h) ->
  clients_ok h ->
  exists h',
    flush_loop data cs h = Some h'
    /\ buffer h' = buffer h
    /\ same_settings h h'
    /\ (forall c, c ∈ clients h' <->
                  c ∈ clients h
                  /\ ~ (c ∈ cs /\ exists cl, heap h !! c = Some cl /\ full cl = true))
    /\ (forall c, c ∈ cs -> heap h' !! c = deliver data <$> heap h !! c)
    /\ (forall c, c ∉ cs -> heap h' !! c = heap h !! c)
    /\ clients_ok h'.
Proof.
  induction cs as [|c cs IH]; intros Hnd h Hin Hok.
  - exists h. simpl. split; [reflexivity|]. split; [reflexivity|].
    split; [apply same_settings_refl|].
    split; [|split; [|split]]; auto.
    + intros c. split; [intros H; split; [exact H|]|tauto].
      intros [H' _]. apply elem_of_nil in H'. exact H'.
    + intros c H. apply elem_of_nil in H. destruct H.
  - apply NoDup_cons in Hnd as [Hc Hnd].
    destruct (Hok c) as (cl & Hcl & Hclok); [apply Hin; left|].
    pose proof Hclok as (Hopen & Hcap & Hlen).
    cbn [flush_loop]. rewrite (flush_client_eq data c h cl Hcl Hopen).
    destruct (full cl) eqn:Hfull.
    + destruct (IH Hnd (notify (set_heap (set_clients h (clients h ∖ {[c]}))
                                         (<[c := deliver data cl]> (heap h)))))
        as (h' & Hrun & Hbuf & Hset & Hcli & Hin' & Hout' & Hok').
      * intros c' Hc'. simpl. apply elem_of_difference. split.
        -- apply Hin. right. exact Hc'.
        -- intros Heq. apply elem_of_singleton in Heq. subst. contradiction.
      * intros c' Hc'. simpl in Hc'. apply elem_of_difference in Hc' as [Hc1 Hc2].
        rewrite elem_of_singleton in Hc2. simpl.
        rewrite lookup_insert_ne by congruence. apply Hok. exact Hc1.
      * exists h'. split; [exact Hrun|]. split; [exact Hbuf|].
        split; [exact Hset|]. simpl in Hcli, Hin', Hout'.
        split; [|split; [|split]]; [| | |exact Hok'].
        -- intros c'. rewrite Hcli, elem_of_difference, elem_of_singleton, elem_of_cons.
           destruct (decide (c' = c)) as [->|Hne].
           ++ split; [tauto|]. intros [_ H]. exfalso. apply H. eauto.
           ++ rewrite lookup_insert_ne by congruence. tauto.
        -- intros c' Hc'. apply elem_of_cons in Hc' as [->|Hc'].
           ++ rewrite (Hout' c Hc), lookup_insert_eq, Hcl. reflexivity.
           ++ rewrite (Hin' c' Hc'), lookup_insert_ne; [reflexivity|].
              intros ->. contradiction.
        -- intros c' Hc'. apply not_elem_of_cons in Hc' as [Hne Hc'].
           rewrite (Hout' c' Hc'), lookup_insert_ne by congruence. reflexivity.
    + destruct (IH Hnd (set_heap h (<[c := deliver data cl]> (heap h))))
        as (h' & Hrun & Hbuf & Hset & Hcli & Hin' & Hout' & Hok').
      * intros c' Hc'. simpl. apply Hin. right. exact Hc'.
      * intros c' Hc'. simpl in Hc'. simpl.
        destruct (decide (c' = c)) as [->|Hne].
        -- rewrite lookup_insert_eq. eexists. split; [reflexivity|].
           apply deliver_ok; assumption.
        -- rewrite lookup_insert_ne by congruence. apply Hok. exact Hc'.
      * exists h'. split; [exact Hrun|]. split; [exact Hbuf|].
        split; [exact Hset|]. simpl in Hcli, Hin', Hout'.
        split; [|split; [|split]]; [| | |exact Hok'].
        -- intros c'. rewrite Hcli, elem_of_cons.
           destruct (decide (c' = c)) as [->|Hne].
           ++ split.
              ** intros [H1 H2]. split; [exact H1|].
                 intros [_ (cl' & Hcl' & Hf)]. congruence.
              ** intros [H1 H2]. split; [exact H1|]. intros [H3 _]. contradiction.
           ++ rewrite lookup_insert_ne by congruence. tauto.
        -- intros c' Hc'. apply elem_of_cons in Hc' as [->|Hc'].
           ++ rewrite (Hout' c Hc), lookup_insert_eq, Hcl. reflexivity.
           ++ rewrite (Hin' c' Hc'), lookup_insert_ne; [reflexivity|].
              intros ->. contradiction.
        -- intros c' Hc'. apply not_elem_of_cons in Hc' as [Hne Hc'].
           rewrite (Hout' c' Hc'), lookup_insert_ne by congruence. reflexivity.
Qed.

Lemma hub_inv_set_buffer_nil (h : Hub) : hub_inv h -> hub_inv (set_buffer h []).
Proof.
  intros (Hc & Hcap & Hmax & Hint & Hlen & Hok & Hreg & Hpend).
  unfold hub_inv. simpl. repeat (split; [assumption || lia|]). assumption.
Qed.

(** Replacing the object at [c]. *)
Lemma hub_inv_update_client (h : Hub) (c : nat) (cl' : client) :
  hub_inv h ->
  (c ∈ clients h -> client_ok cl' /\ pc cl' <> AtRegister) ->
  (pc cl' = AtRegister -> client_ok cl') ->
  hub_inv (set_heap h (<[c := cl']> (heap h))).
Proof.
  intros (Hc & Hcap & Hmax & Hint & Hlen & Hok & Hreg & Hpend) Hin Hp.
  unfold hub_inv. simpl.
  split; [exact Hc|]. split; [exact Hcap|]. split; [exact Hmax|].
  split; [exact Hint|]. split; [exact Hlen|]. split; [|split].
  - intros c' Hc'. simpl in *. destruct (decide (c' = c)) as [->|Hne].
    + rewrite lookup_insert_eq. exists cl'. split; [reflexivity|]. apply Hin, Hc'.
    + rewrite lookup_insert_ne by congruence. apply Hok, Hc'.
  - intros c' cl Hc' Hcl. simpl in *. destruct (decide (c' = c)) as [->|Hne].
    + rewrite lookup_insert_eq in Hcl. injection Hcl as <-. apply Hin, Hc'.
    + rewrite lookup_insert_ne in Hcl by congruence. eauto.
  - intros c' cl Hcl Hpc. simpl in *. destruct (decide (c' = c)) as [->|Hne].
    + rewrite lookup_insert_eq in Hcl. injection Hcl as <-. auto.
    + rewrite lookup_insert_ne in Hcl by congruence. eauto.
Qed.

Lemma hub_inv_add_client (h : Hub) (c : nat) (cl : client) :
  hub_inv h ->
  heap h !! c = Some cl -> client_ok cl -> pc cl <> AtRegister ->
  hub_inv (set_clients h ({[c]} ∪ clients h)).
Proof.
  intros (Hc & Hcap & Hmax & Hint & Hlen & Hok & Hreg & Hpend) Hcl Hclok Hpc.
  unfold hub_inv. simpl.
  split; [exact Hc|]. split; [exact Hcap|]. split; [exact Hmax|].
  split; [exact Hint|]. split; [exact Hlen|]. split; [|split].
  - intros c' Hc'. simpl in *. apply elem_of_union in Hc' as [Hc'|Hc'].
    + apply elem_of_singleton in Hc'. subst. eauto.
    + apply Hok, Hc'.
  - intros c' cl' Hc' Hcl'. simpl in *. apply elem_of_union in Hc' as [Hc'|Hc'].
    + apply elem_of_singleton in Hc'. subst. congruence.
    + eauto.
  - exact Hpend.
Qed.

Lemma hub_inv_remove_client (h : Hub) (c : nat) :
  hub_inv h -> hub_inv (set_clients h (clients h ∖ {[c]})).
Proof.
  intros (Hc & Hcap & Hmax & Hint & Hlen & Hok & Hreg & Hpend).
  unfold hub_inv. simpl.
  split; [exact Hc|]. split; [exact Hcap|]. split; [exact Hmax|].
  split; [exact Hint|]. split; [exact Hlen|]. split; [|split].
  - intros c' Hc'. simpl in *. apply elem_of_difference in Hc' as [Hc' _]. eauto.
  - intros c' cl' Hc' Hcl'. simpl in *.
    apply elem_of_difference in Hc' as [Hc' _]. eauto.
  - exact Hpend.
Qed.

Lemma hub_inv_notify (h : Hub) : hub_inv h -> hub_inv (notify h).
Proof. intros H. exact H. Qed.

Lemma hub_inv_set_running (h : Hub) (b : bool) : hub_inv h -> hub_inv (set_running h b).
Proof. intros H. exact H. Qed.

Lemma hub_inv_set_stopCh (h : Hub) (b : bool) : hub_inv h -> hub_inv (set_stopCh h b).
Proof. intros H. exact H. Qed.

Section HubProps.

Variable Marshal : list LogEntry -> list byte + error.

Abbreviation flush := (flush Marshal).
Abbreviation Run_step := (Run_step Marshal).
Abbreviation do_action := (do_action Marshal).
Abbreviation exec := (exec Marshal).

(** [flush] returns, with the buffer emptied; when there was something to
    send and it marshalled, the clients are dealt with as by [deliver]. *)
Lemma flush_spec (h : Hub) :
  clients_ok h ->
  exists h',
    flush h = Some h'
    /\ buffer h' = []
    /\ same_settings h h'
    /\ clients_ok h'
    /\ (forall data, buffer h <> [] -> Marshal (buffer h) = inl data ->
          (forall c, c ∈ clients h' <->
                     c ∈ clients h
                     /\ ~ exists cl, heap h !! c = Some cl /\ full cl = true)
          /\ (forall c, c ∈ clients h -> heap h' !! c = deliver data <$> heap h !! c)
          /\ (forall c, c ∉ clients h -> heap h' !! c = heap h !! c))
    /\ (buffer h = [] \/ (exists e, Marshal (buffer h) = inr e) ->
        clients h' = clients h /\ heap h' = heap h).
Proof.
  intros Hok. unfold Realtime.flush.
  destruct (buffer h) as [|e b] eqn:Hb.
  { exists h. repeat split; auto using same_settings_refl; congruence. }
  destruct (Marshal (e :: b)) as [data|err] eqn:Hm.
  2:{ eexists. split; [reflexivity|]. simpl.
      repeat split; auto; congruence. }
  destruct (flush_loop_spec data (elements (clients (set_buffer h [])))
              (NoDup_elements _) (set_buffer h []))
    as (h' & Hrun & Hbuf & Hset & Hcli & Hin & Hout & Hok').
  { intros c Hc. apply elem_of_elements in Hc. exact Hc. }
  { exact Hok. }
  exists h'. simpl in *. split; [exact Hrun|]. split; [exact Hbuf|].
  split; [exact Hset|]. split; [exact Hok'|]. split.
  - intros data' _ [= <-]. split; [|split].
    + intros c. rewrite Hcli, elem_of_elements. tauto.
    + intros c Hc. apply Hin, elem_of_elements. exact Hc.
    + intros c Hc. apply Hout. rewrite elem_of_elements. exact Hc.
  - intros [H|[e' H]]; congruence.
Qed.

Lemma flush_heap_cases (h h' : Hub) :
  clients_ok h -> flush h = Some h' ->
  forall c, heap h' !! c = heap h !! c
            \/ exists data cl, c ∈ clients h /\ heap h !! c = Some cl
                               /\ heap h' !! c = Some (deliver data cl).
Proof.
  intros Hok Hf c.
  destruct (flush_spec h Hok) as (h1 & Hf1 & _ & _ & _ & Hsent & Hnot).
  rewrite Hf in Hf1. injection Hf1 as <-.
  destruct (buffer h) as [|e b] eqn:Hb.
  { left. destruct Hnot as [_ ->]; auto. }
  destruct (Marshal (e :: b)) as [data|err] eqn:Hm.
  2:{ left. destruct Hnot as [_ ->]; eauto. }
  destruct (Hsent data) as (_ & Hin & Hout); [discriminate|reflexivity|].
  destruct (decide (c ∈ clients h)) as [Hc|Hc].
  - right. destruct (Hok c Hc) as (cl & Hcl & _).
    exists data, cl. split; [exact Hc|]. split; [exact Hcl|].
    rewrite (Hin c Hc), Hcl. reflexivity.
  - left. apply Hout. exact Hc.
Qed.

Lemma flush_clients_subset (h h' : Hub) :
  clients_ok h -> flush h = Some h' -> forall c, c ∈ clients h' -> c ∈ clients h.
Proof.
  intros Hok Hf c.
  destruct (flush_spec h Hok) as (h1 & Hf1 & _ & _ & _ & Hsent & Hnot).
  rewrite Hf in Hf1. injection Hf1 as <-.
  destruct (buffer h) as [|e b] eqn:Hb.
  { destruct Hnot as [-> _]; auto. }
  destruct (Marshal (e :: b)) as [data|err] eqn:Hm.
  2:{ destruct Hnot as [-> _]; eauto. }
  destruct (Hsent data) as (Hcli & _); [discriminate|reflexivity|].
  rewrite Hcli. tauto.
Qed.

Lemma flush_inv (h h' : Hub) :
  hub_inv (set_buffer h []) -> flush h = Some h' -> hub_inv h'.
Proof.
  intros (Hc & Hcap & Hmax & Hint & Hlen & Hok & Hreg & Hpend) Hf.
  change (clients_ok h) in Hok. change (registered_started h) in Hreg.
  change (pending_ok h) in Hpend. simpl in Hc, Hcap, Hmax, Hint.
  destruct (flush_spec h Hok) as (h1 & Hf1 & Hbuf & Hset & Hok' & _).
  rewrite Hf in Hf1. injection Hf1 as <-.
  destruct Hset as (Hb & Hm & Hi & _).
  unfold hub_inv. rewrite Hb, Hm, Hi, Hbuf.
  split; [exact Hc|]. split; [exact Hcap|]. split; [exact Hmax|].
  split; [exact Hint|]. split; [simpl; lia|]. split; [exact Hok'|]. split.
  - intros c cl Hin Hcl.
    pose proof (flush_clients_subset h h' Hok Hf c Hin) as Hin0.
    destruct (flush_heap_cases h h' Hok Hf c) as [Heq|(data & cl0 & _ & Hcl0 & Hcl')].
    + rewrite Heq in Hcl. eauto.
    + rewrite Hcl' in Hcl. injection Hcl as <-. rewrite pc_deliver. eauto.
  - intros c cl Hcl Hpc.
    destruct (flush_heap_cases h h' Hok Hf c) as [Heq|(data & cl0 & Hin0 & Hcl0 & Hcl')].
    + rewrite Heq in Hcl. eauto.
    + rewrite Hcl' in Hcl. injection Hcl as <-. rewrite pc_deliver in Hpc.
      exfalso. exact (Hreg c cl0 Hin0 Hcl0 Hpc).
Qed.

Lemma Run_step_inv (ev : event) (h h' : Hub) :
  hub_inv h -> Run_step ev h = Stepped h' -> hub_inv h'.
Proof.
  intros Hinv. unfold Realtime.Run_step.
  destruct (running h); simpl negb; cbv iota; [|discriminate].
  destruct ev as [|c|c| |].
  - destruct (stopCh h); [|discriminate].
    destruct (flush h) as [h1|] eqn:Hf; simpl; [|discriminate].
    intros [= <-]. apply hub_inv_set_running.
    eapply flush_inv; [apply hub_inv_set_buffer_nil|]; eassumption.
  - destruct (heap h !! c) as [cl|] eqn:Hcl; [|discriminate].
    destruct (pc cl) eqn:Hpc; try discriminate.
    intros [= <-]. apply hub_inv_notify.
    pose proof Hinv as (_ & _ & _ & _ & _ & _ & _ & Hpend).
    assert (Hclok : client_ok cl) by (eapply Hpend; eassumption).
    apply (hub_inv_add_client
             (set_heap h (<[c:=set_pc cl InRange]> (heap h))) c (set_pc cl InRange)).
    + apply hub_inv_update_client; [exact Hinv| |discriminate].
      intros _. split; [exact Hclok|discriminate].
    + simpl. apply lookup_insert_eq.
    + exact Hclok.
    + discriminate.
  - destruct (heap h !! c) as [cl|] eqn:Hcl; [|discriminate].
    destruct (pc cl) eqn:Hpc; try discriminate.
    destruct (bool_decide (c ∈ clients h)) eqn:Hin.
    + intros [= <-]. apply hub_inv_notify.
      apply (hub_inv_update_client (set_clients h (clients h ∖ {[c]}))).
      * apply hub_inv_remove_client, Hinv.
      * simpl. intros H. apply elem_of_difference in H as [_ H].
        exfalso. apply H. apply elem_of_singleton. reflexivity.
      * discriminate.
    + intros [= <-]. apply bool_decide_eq_false in Hin.
      apply hub_inv_update_client; [exact Hinv| |discriminate].
      intros H. contradiction.
  - destruct (ch_buf (broadcast h)) as [|entry rest] eqn:Hq; [discriminate|].
    pose proof Hinv as (Hc & Hcap & Hmax & Hint & Hlen & Hok & Hreg & Hpend).
    cbn [maxBufferSize set_buffer set_broadcast buffer]. rewrite Hmax.
    destruct (100 <=? length (buffer h ++ [entry]))%nat eqn:Hfull.
    + destruct (Realtime.flush _ _) as [h1|] eqn:Hf; simpl; [|discriminate].
      intros [= <-]. eapply flush_inv; [|exact Hf].
      unfold hub_inv. simpl.
      repeat (split; [assumption || lia|]). assumption.
    + intros [= <-]. apply Nat.leb_gt in Hfull.
      unfold hub_inv. simpl.
      repeat (split; [assumption || lia|]). assumption.
  - destruct (flush h) as [h1|] eqn:Hf; simpl; [|discriminate].
    intros [= <-].
    eapply flush_inv; [apply hub_inv_set_buffer_nil|]; eassumption.
Qed.

Lemma pop_ok (cl : client) (msg : list byte) (rest : list (list byte)) :
  client_ok cl -> ch_buf (send cl) = msg :: rest ->
  forall (w : list (list byte)) (p : handler_pc),
    client_ok (mk_client (mk_chan rest (ch_cap (send cl)) (ch_closed (send cl)))
                         (conn cl) w p).
Proof.
  intros (Hc & Hcap & Hlen) Hq w p. unfold client_ok. simpl.
  rewrite Hq in Hlen. simpl in Hlen. repeat split; [assumption|assumption|lia].
Qed.

Lemma writer_step_inv (c : nat) (ok : bool) (h h' : Hub) :
  hub_inv h -> writer_step c ok h = Stepped h' -> hub_inv h'.
Proof.
  intros Hinv. unfold writer_step.
  pose proof Hinv as (_ & _ & _ & _ & _ & Hok & Hreg & Hpend).
  destruct (heap h !! c) as [cl|] eqn:Hcl; [|discriminate].
  assert (Hreg' : c ∈ clients h -> client_ok cl).
  { intros Hin. destruct (Hok c Hin) as (cl' & Hcl' & H). congruence. }
  destruct (pc cl) eqn:Hpc; try discriminate.
  - destruct (ch_buf (send cl)) as [|msg rest] eqn:Hq.
    + destruct (ch_closed (send cl)); [|discriminate].
      intros [= <-]. apply hub_inv_update_client; [exact Hinv| |discriminate].
      intros Hin. split; [apply (Hreg' Hin)|discriminate].
    + intros [= <-]. apply hub_inv_update_client; [exact Hinv| |].
      * intros Hin. destruct ok; (split; [|discriminate]);
          eapply pop_ok; eauto.
      * destruct ok; discriminate.
  - intros [= <-]. apply hub_inv_update_client; [exact Hinv| |discriminate].
    intros Hin. split; [apply (Hreg' Hin)|discriminate].
Qed.

Lemma Broadcast_inv (e : LogEntry) (h h' : Hub) :
  hub_inv h -> Broadcast e h = Some h' -> hub_inv h'.
Proof.
  intros Hinv. unfold Broadcast, try_send.
  pose proof Hinv as (Hc & Hcap & Hrest). rewrite Hc.
  destruct (length (ch_buf (broadcast h)) <? ch_cap (broadcast h))%nat.
  - intros [= <-]. unfold hub_inv. simpl. split; [reflexivity|].
    split; [exact Hcap|]. exact Hrest.
  - intros [= <-]. exact Hinv.
Qed.

Lemma HandleWebSocket_inv (c : nat) (h h' : Hub) :
  hub_inv h -> HandleWebSocket c h = Some h' -> hub_inv h'.
Proof.
  intros Hinv. unfold HandleWebSocket.
  destruct (heap h !! c) as [cl|] eqn:Hcl; [discriminate|].
  intros [= <-].
  assert (Hnew : client_ok (mk_client (make_chan 256) ConnOpen [] AtRegister)).
  { unfold client_ok. simpl. repeat split; lia. }
  apply hub_inv_update_client; [exact Hinv| |intros _; exact Hnew].
  intros Hin. destruct Hinv as (_ & _ & _ & _ & _ & Hok & _).
  destruct (Hok c Hin) as (cl & Hcl' & _). congruence.
Qed.

Lemma do_action_inv (a : action) (h h' : Hub) :
  hub_inv h -> do_action a h = Stepped h' -> hub_inv h'.
Proof.
  intros Hinv. destruct a as [ev|c ok|e|c|]; simpl.
  - apply Run_step_inv, Hinv.
  - apply writer_step_inv, Hinv.
  - destruct (Broadcast e h) as [h1|] eqn:Hb; simpl; [|discriminate].
    intros [= <-]. eapply Broadcast_inv; eassumption.
  - destruct (HandleWebSocket c h) as [h1|] eqn:Hb; [|discriminate].
    intros [= <-]. eapply HandleWebSocket_inv; eassumption.
  - unfold Stop. destruct (stopCh h); simpl; [discriminate|].
    intros [= <-]. apply hub_inv_set_stopCh, Hinv.
Qed.

(** The invariant holds along every schedule. *)
Lemma exec_inv (acts : list action) (h h' : Hub) :
  hub_inv h -> exec acts h = Stepped h' -> hub_inv h'.
Proof.
  revert h. induction acts as [|a acts IH]; intros h Hinv; simpl.
  - intros [= <-]. exact Hinv.
  - destruct (do_action a h) as [h1| |] eqn:Ha; try discriminate.
    apply IH. eapply do_action_inv; eassumption.
Qed.

(** The only panic is a second [Stop]. *)
Lemma do_action_panic (a : action) (h : Hub) :
  hub_inv h -> do_action a h = Panicked -> a = AStop /\ stopCh h = true.
Proof.
  intros Hinv.
  pose proof Hinv as (Hc & Hcap & Hmax & Hint & Hlen & Hok & Hreg & Hpend).
  assert (Hflush : forall h0, clients_ok h0 -> of_option (flush h0) <> Panicked).
  { intros h0 H0. destruct (flush_spec h0 H0) as (h1 & -> & _). discriminate. }
  destruct a as [ev|c ok|e|c|]; simpl.
  - unfold Realtime.Run_step.
    destruct (running h); simpl negb; cbv iota; [|discriminate].
    destruct ev as [|c|c| |].
    + destruct (stopCh h); [|discriminate].
      destruct (flush_spec h Hok) as (h1 & -> & _). discriminate.
    + destruct (heap h !! c) as [cl|]; [|discriminate].
      destruct (pc cl); discriminate.
    + destruct (heap h !! c) as [cl|]; [|discriminate].
      destruct (pc cl); try discriminate.
      destruct (bool_decide (c ∈ clients h)); discriminate.
    + destruct (ch_buf (broadcast h)) as [|entry rest]; [discriminate|].
      match goal with |- (if ?b then _ else _) = _ -> _ => destruct b end;
        [|discriminate].
      intros H. exfalso. revert H. apply Hflush. exact Hok.
    + intros H. exfalso. revert H. apply Hflush. exact Hok.
  - unfold writer_step. destruct (heap h !! c) as [cl|]; [|discriminate].
    destruct (pc cl); try discriminate.
    destruct (ch_buf (send cl)); [|discriminate].
    destruct (ch_closed (send cl)); discriminate.
  - unfold Broadcast, try_send. rewrite Hc.
    destruct (length (ch_buf (broadcast h)) <? ch_cap (broadcast h))%nat;
      discriminate.
  - destruct (HandleWebSocket c h); discriminate.
  - unfold Stop. destruct (stopCh h); [auto|discriminate].
Qed.

(** What a flush that has something to send does for the clients with
    room in their channel. *)
Lemma flush_sends (h h' : Hub) :
  clients_ok h -> flush h = Some h' ->
  buffer h' = []
  /\ forall data, buffer h <> [] -> Marshal (buffer h) = inl data ->
       forall c, c ∈ clients h ->
         exists cl, heap h !! c = Some cl
           /\ ((length (ch_buf (send cl)) < 256)%nat ->
               c ∈ clients h'
               /\ exists cl', heap h' !! c = Some cl'
                    /\ ch_buf (send cl') = ch_buf (send cl) ++ [data]).
Proof.
  intros Hok Hf.
  destruct (flush_spec h Hok) as (h1 & Hf1 & Hbuf & _ & _ & Hsent & _).
  rewrite Hf in Hf1. injection Hf1 as <-.
  split; [exact Hbuf|]. intros data Hne Hm c Hc.
  destruct (Hsent data Hne Hm) as (Hcli & Hin & _).
  destruct (Hok c Hc) as (cl & Hcl & _ & Hcap & _).
  exists cl. split; [exact Hcl|]. intros Hlen.
  assert (Hfull : full cl = false).
  { unfold full. rewrite Hcap. apply Nat.leb_gt. exact Hlen. }
  split.
  - apply Hcli. split; [exact Hc|]. intros (cl' & Hcl' & Hf'). congruence.
  - exists (deliver data cl). rewrite (Hin c Hc), Hcl. split; [reflexivity|].
    unfold deliver. rewrite Hfull. reflexivity.
Qed.



(** The broadcast channel of a hub stays open, with its capacity, along
    every schedule. *)
Lemma broadcast_channel_kept (acts : list action) (callback : bool) (h : Hub) :
  exec acts (NewHub callback) = Stepped h ->
  ch_closed (broadcast h) = false /\ ch_cap (broadcast h) = 5000%nat.
Proof.
  intros H. destruct (exec_inv acts _ h (NewHub_inv callback) H) as (Hc & Hcap & _).
  split; assumption.
Qed.

(** C2, as the code has it: an iteration of [Run] flushes if and only if
    it takes in the entry that brings the buffer to 100, or the ticker
    (every 500 ms) fires, or the stop channel is closed.  On those
    events the buffer is emptied and, when it held entries that marshal,
    that one message is put on the channel of every registered client
    with room; on any other event the buffer keeps all its entries and no
    channel gets a message. *)
Theorem Run_flushes_iff (ev : event) (h h' : Hub) :
  hub_inv h ->
  Run_step ev h = Stepped h' ->
  maxBufferSize h = 100%nat
  /\ flushInterval h = 500 * 1000000
  /\ (triggers_flush ev h = true ->
      buffer h' = []
      /\ forall data, pending ev h <> [] -> Marshal (pending ev h) = inl data ->
           forall c, c ∈ clients h ->
             exists cl, heap h !! c = Some cl
               /\ ((length (ch_buf (send cl)) < 256)%nat ->
                   c ∈ clients h'
                   /\ exists cl', heap h' !! c = Some cl'
                        /\ ch_buf (send cl') = ch_buf (send cl) ++ [data]))
  /\ (triggers_flush ev h = false ->
      buffer h' = pending ev h
      /\ forall c cl, heap h !! c = Some cl ->
           exists cl', heap h' !! c = Some cl'
                       /\ ch_buf (send cl') = ch_buf (send cl)).
Proof.
  intros Hinv.
  pose proof Hinv as (Hc & Hcap & Hmax & Hint & Hlen & Hok & Hreg & Hpend).
  intros Hstep. split; [exact Hmax|]. split; [exact Hint|].
  revert Hstep. unfold Realtime.Run_step.
  destruct (running h); simpl negb; cbv iota; [|discriminate].
  destruct ev as [|c|c| |]; unfold triggers_flush, pending.
  - destruct (stopCh h); [|discriminate].
    destruct (flush h) as [h1|] eqn:Hf; simpl; [|discriminate].
    intros [= <-]. split; [intros _|discriminate].
    exact (flush_sends h h1 Hok Hf).
  - destruct (heap h !! c) as [cl|] eqn:Hcl; [|discriminate].
    destruct (pc cl) eqn:Hpc; try discriminate.
    intros [= <-]. split; [discriminate|intros _]. split; [reflexivity|].
    intros c' cl' Hcl'. simpl. destruct (decide (c' = c)) as [->|Hne].
    + rewrite lookup_insert_eq. rewrite Hcl in Hcl'. injection Hcl' as <-.
      eexists. split; reflexivity.
    + rewrite lookup_insert_ne by congruence. eauto.
  - destruct (heap h !! c) as [cl|] eqn:Hcl; [|discriminate].
    destruct (pc cl) eqn:Hpc; try discriminate.
    destruct (bool_decide (c ∈ clients h)); intros [= <-];
      (split; [discriminate|intros _]); (split; [reflexivity|]);
      intros c' cl' Hcl'; simpl; (destruct (decide (c' = c)) as [->|Hne];
        [ rewrite lookup_insert_eq; rewrite Hcl in Hcl'; injection Hcl' as <-;
          eexists; split; reflexivity
        | rewrite lookup_insert_ne by congruence; eauto ]).
  - destruct (ch_buf (broadcast h)) as [|entry rest] eqn:Hq; [discriminate|].
    cbn [maxBufferSize set_buffer set_broadcast buffer]. rewrite Hmax.
    change (take 1 (entry :: rest)) with [entry].
    destruct (100 <=? length (buffer h ++ [entry]))%nat eqn:Hfull.
    + destruct (Realtime.flush _ _) as [h1|] eqn:Hf; cbn [of_option];
        [|discriminate].
      intros [= <-]. split; [intros _|discriminate].
      exact (flush_sends
               (set_buffer
                  (set_broadcast h (mk_chan rest (ch_cap (broadcast h))
                                            (ch_closed (broadcast h))))
                  (buffer h ++ [entry]))
               h1 Hok Hf).
    + intros [= <-]. split; [discriminate|intros _]. split; [reflexivity|].
      intros c cl Hcl. simpl. eauto.
  - destruct (flush h) as [h1|] eqn:Hf; simpl; [|discriminate].
    intros [= <-]. split; [intros _|discriminate].
    exact (flush_sends h h1 Hok Hf).
Qed.

(** Once [Run] has returned, nothing gets a waiting client any further. *)
Lemma do_action_returned (a : action) (h h' : Hub) (c : nat) (cl : client) :
  running h = false ->
  heap h !! c = Some cl -> waiting cl ->
  do_action a h = Stepped h' ->
  running h' = false /\ exists cl', heap h' !! c = Some cl' /\ waiting cl'.
Proof.
  intros Hrun Hcl Hw. destruct a as [ev|c' ok|e|c'|]; simpl.
  - unfold Realtime.Run_step. rewrite Hrun. discriminate.
  - unfold writer_step.
    destruct (heap h !! c') as [cl0|] eqn:Hcl0; [|discriminate].
    destruct (decide (c' = c)) as [->|Hne].
    + rewrite Hcl in Hcl0. injection Hcl0 as <-.
      destruct Hw as [Hconn Hpc].
      destruct (pc cl) eqn:Hp; try discriminate.
      * destruct (ch_buf (send cl)) as [|msg rest].
        -- destruct (ch_closed (send cl)); [|discriminate].
           intros [= <-]. simpl. split; [exact Hrun|].
           rewrite lookup_insert_eq. eexists. split; [reflexivity|].
           split; [exact Hconn|]. simpl. tauto.
        -- intros [= <-]. simpl. split; [exact Hrun|].
           rewrite lookup_insert_eq. eexists. split; [reflexivity|].
           destruct ok; (split; [exact Hconn|]); simpl; tauto.
      * destruct Hpc as [H|[H|H]]; discriminate.
    + assert (Hkeep : forall cl1, running (set_heap h (<[c':=cl1]> (heap h))) = false
                /\ exists cl', heap (set_heap h (<[c':=cl1]> (heap h))) !! c = Some cl'
                                /\ waiting cl').
      { intros cl1. simpl. split; [exact Hrun|].
        rewrite lookup_insert_ne by congruence. eauto. }
      destruct (pc cl0); try discriminate.
      * destruct (ch_buf (send cl0)) as [|msg rest].
        -- destruct (ch_closed (send cl0)); [|discriminate].
           intros [= <-]. apply Hkeep.
        -- intros [= <-]. apply Hkeep.
      * intros [= <-]. apply Hkeep.
  - unfold Broadcast. destruct (try_send (broadcast h) e); simpl; try discriminate.
    + intros [= <-]. simpl. eauto.
    + intros [= <-]. eauto.
  - unfold HandleWebSocket. destruct (heap h !! c') eqn:Hc'; [discriminate|].
    intros [= <-]. simpl. split; [exact Hrun|].
    rewrite lookup_insert_ne by congruence. eauto.
  - unfold Stop. destruct (stopCh h); simpl; [discriminate|].
    intros [= <-]. simpl. eauto.
Qed.

Lemma exec_returned (acts : list action) (h h' : Hub) (c : nat) (cl : client) :
  running h = false ->
  heap h !! c = Some cl -> waiting cl ->
  exec acts h = Stepped h' ->
  exists cl', heap h' !! c = Some cl' /\ conn cl' = ConnOpen.
Proof.
  revert h cl. induction acts as [|a acts IH]; intros h cl Hrun Hcl Hw; simpl.
  - intros [= <-]. exists cl. split; [exact Hcl|apply Hw].
  - destruct (do_action a h) as [h1| |] eqn:Ha; try discriminate.
    destruct (do_action_returned a h h1 c cl Hrun Hcl Hw Ha)
      as (Hrun1 & cl1 & Hcl1 & Hw1).
    apply (IH h1 cl1 Hrun1 Hcl1 Hw1).
Qed.

(** C4, as the code has it: after [Stop], the iteration of [Run] that
    sees the closed channel flushes what the buffer holds (not what still
    waits in the broadcast channel) and returns, and no later case of the
    select is taken.  It closes neither the
    send channel nor the connection of a client it keeps, and whatever
    happens afterwards, a connection that was open with its writer still
    at work stays open. *)
Theorem Run_returns_after_Stop (h : Hub) :
  hub_inv h ->
  running h = true ->
  stopCh h = false ->
  exists hs h1,
    Stop h = Some hs
    /\ flush hs = Some h1
    /\ Run_step StopClosed hs = Stepped (set_running h1 false)
    /\ buffer h1 = []
    /\ broadcast h1 = broadcast h
    /\ (forall ev, Run_step ev (set_running h1 false) = NotReady)
    /\ (forall c, c ∈ clients h1 ->
          exists cl, heap h1 !! c = Some cl /\ ch_closed (send cl) = false)
    /\ (forall c cl, heap h !! c = Some cl ->
          exists cl1, heap h1 !! c = Some cl1
                      /\ conn cl1 = conn cl /\ pc cl1 = pc cl)
    /\ (forall acts h2 c cl,
          exec acts (set_running h1 false) = Stepped h2 ->
          heap h1 !! c = Some cl -> waiting cl ->
          exists cl2, heap h2 !! c = Some cl2 /\ conn cl2 = ConnOpen).
Proof.
  intros Hinv Hrun Hstop.
  pose proof Hinv as (_ & _ & _ & _ & _ & Hok & _).
  exists (set_stopCh h true).
  assert (Hoks : clients_ok (set_stopCh h true)) by exact Hok.
  destruct (flush_spec (set_stopCh h true) Hoks)
    as (h1 & Hf & Hbuf & Hset & Hok1 & _).
  exists h1. split; [unfold Stop; rewrite Hstop; reflexivity|].
  split; [exact Hf|]. split.
  { unfold Realtime.Run_step. simpl. rewrite Hrun. simpl.
    change (Realtime.flush Marshal (set_stopCh h true)) with (flush (set_stopCh h true)).
    rewrite Hf. reflexivity. }
  split; [exact Hbuf|]. split; [apply Hset|].
  split; [intros ev; reflexivity|]. split; [|split].
  - intros c Hc. destruct (Hok1 c Hc) as (cl & Hcl & Hopen & _). eauto.
  - intros c cl Hcl.
    destruct (flush_heap_cases _ _ Hoks Hf c) as [Heq|(data & cl0 & _ & Hcl0 & Hcl1)].
    + simpl in Heq. rewrite Heq. eauto.
    + simpl in Hcl0. rewrite Hcl in Hcl0. injection Hcl0 as <-.
      exists (deliver data cl). split; [exact Hcl1|].
      split; [apply conn_deliver|apply pc_deliver].
  - intros acts h2 c cl Hex Hcl Hw.
    apply (exec_returned acts (set_running h1 false) h2 c cl); auto.
Qed.

End HubProps.

(** *** The hub on small schedules *)

Lemma run_from_new_inv (acts : list action) : hub_inv (run_from_new acts).
Proof.
  unfold run_from_new.
  destruct (exec marshal_len acts (NewHub true)) as [h| |] eqn:H;
    try apply NewHub_inv.
  eapply exec_inv; [apply NewHub_inv|exact H].
Qed.



(** The spec's slow-client scenario: the flush drops client 1, whose
    channel is full, closes its channel, and keeps client 2 with the message
    queued; the gauge is told of one connection. *)
Example slow_client_is_shed :
  (h' ← flush marshal_len (run_from_new acts_slow);
   Some (elements (clients h'),
         (fun cl => (length (ch_buf (send cl)), ch_closed (send cl))) <$> heap h' !! 1%nat,
         (fun cl => (ch_buf (send cl), ch_closed (send cl))) <$> heap h' !! 2%nat,
         last (gauge h')))
  = Some ([2%nat], Some (256%nat, true), Some ([message1], false), Some 1%nat).
Proof. vm_compute. reflexivity. Qed.


(** The 5001st entry broadcast to a hub that takes none in is dropped. *)
Example Broadcast_overflow_is_dropped :
  length (ch_buf (broadcast (run_from_new (replicate 5000 (ABroadcast entry1)))))
    = 5000%nat
  /\ Broadcast entry1 (run_from_new (replicate 5000 (ABroadcast entry1)))
     = Some (run_from_new (replicate 5000 (ABroadcast entry1))).
Proof. split; vm_compute; reflexivity. Qed.

Lemma Run_flushes_iff_witness :
  maxBufferSize (run_from_new (connect 1 ++ push)) = 100%nat
  /\ flushInterval (run_from_new (connect 1 ++ push)) = 500 * 1000000
  /\ (triggers_flush TickerFired (run_from_new (connect 1 ++ push)) = true ->
      buffer (run_from_new (connect 1 ++ push ++ [ARun TickerFired])) = []
      /\ forall data,
           pending TickerFired (run_from_new (connect 1 ++ push)) <> [] ->
           marshal_len (pending TickerFired (run_from_new (connect 1 ++ push)))
             = inl data ->
           forall c, c ∈ clients (run_from_new (connect 1 ++ push)) ->
             exists cl, heap (run_from_new (connect 1 ++ push)) !! c = Some cl
               /\ ((length (ch_buf (send cl)) < 256)%nat ->
                   c ∈ clients (run_from_new (connect 1 ++ push ++ [ARun TickerFired]))
                   /\ exists cl',
                        heap (run_from_new (connect 1 ++ push ++ [ARun TickerFired]))
                          !! c = Some cl'
                        /\ ch_buf (send cl') = ch_buf (send cl) ++ [data]))
  /\ (triggers_flush TickerFired (run_from_new (connect 1 ++ push)) = false ->
      buffer (run_from_new (connect 1 ++ push ++ [ARun TickerFired]))
        = pending TickerFired (run_from_new (connect 1 ++ push))
      /\ forall c cl, heap (run_from_new (connect 1 ++ push)) !! c = Some cl ->
           exists cl',
             heap (run_from_new (connect 1 ++ push ++ [ARun TickerFired])) !! c
               = Some cl'
             /\ ch_buf (send cl') = ch_buf (send cl)).
Proof.
  apply (Run_flushes_iff marshal_len TickerFired
           (run_from_new (connect 1 ++ push))
           (run_from_new (connect 1 ++ push ++ [ARun TickerFired]))).
  - apply run_from_new_inv.
  - vm_compute. reflexivity.
Defined.

(** C2 as stated fails on [Stop]: with one entry in the buffer, far from
    100, and no tick, the iteration that sees the stop channel closed
    empties the buffer and sends the message to the client. *)
Lemma Run_flushes_on_stop :
  length (buffer (run_from_new acts_stop)) = 1%nat
  /\ Run_step marshal_len StopClosed (run_from_new acts_stop)
       = Stepped (run_from_new (acts_stop ++ [ARun StopClosed]))
  /\ buffer (run_from_new (acts_stop ++ [ARun StopClosed])) = []
  /\ (fun cl => ch_buf (send cl))
       <$> heap (run_from_new (acts_stop ++ [ARun StopClosed])) !! 1%nat
     = Some [message1].
Proof.
  split; [vm_compute; reflexivity|]. split; [vm_compute; reflexivity|].
  split; vm_compute; reflexivity.
Qed.

Lemma Run_returns_after_Stop_witness :
  exists hs h1,
    Stop (run_from_new (connect 1 ++ push)) = Some hs
    /\ flush marshal_len hs = Some h1
    /\ Run_step marshal_len StopClosed hs = Stepped (set_running h1 false)
    /\ buffer h1 = []
    /\ broadcast h1 = broadcast (run_from_new (connect 1 ++ push))
    /\ (forall ev, Run_step marshal_len ev (set_running h1 false) = NotReady)
    /\ (forall c, c ∈ clients h1 ->
          exists cl, heap h1 !! c = Some cl /\ ch_closed (send cl) = false)
    /\ (forall c cl, heap (run_from_new (connect 1 ++ push)) !! c = Some cl ->
          exists cl1, heap h1 !! c = Some cl1
                      /\ conn cl1 = conn cl /\ pc cl1 = pc cl)
    /\ (forall acts h2 c cl,
          exec marshal_len acts (set_running h1 false) = Stepped h2 ->
          heap h1 !! c = Some cl -> waiting cl ->
          exists cl2, heap h2 !! c = Some cl2 /\ conn cl2 = ConnOpen).
Proof.
  apply (Run_returns_after_Stop marshal_len (run_from_new (connect 1 ++ push))).
  - apply run_from_new_inv.
  - vm_compute. reflexivity.
  - vm_compute. reflexivity.
Defined.

(** C4 as stated fails: once [Run] has returned after [Stop], the client
    is still in the set, its send channel and its connection are open, and
    no schedule ever closes the connection. *)
Lemma connection_stays_open_after_Stop :
  running (run_from_new (acts_stop ++ [ARun StopClosed])) = false
  /\ elements (clients (run_from_new (acts_stop ++ [ARun StopClosed]))) = [1%nat]
  /\ (fun cl => (ch_closed (send cl), conn cl))
       <$> heap (run_from_new (acts_stop ++ [ARun StopClosed])) !! 1%nat
     = Some (false, ConnOpen)
  /\ ~ (exists acts h2 cl,
          exec marshal_len acts (run_from_new (acts_stop ++ [ARun StopClosed]))
            = Stepped h2
          /\ heap h2 !! 1%nat = Some cl
          /\ conn cl <> ConnOpen).
Proof.
  split; [vm_compute; reflexivity|]. split; [vm_compute; reflexivity|].
  split; [vm_compute; reflexivity|].
  intros (acts & h2 & cl & Hex & Hcl & Hconn).
  destruct (exec_returned marshal_len acts
              (run_from_new (acts_stop ++ [ARun StopClosed])) h2 1%nat
              (mk_client (mk_chan [message1] 256 false) ConnOpen [] InRange))
    as (cl' & Hcl' & Hopen).
  - vm_compute. reflexivity.
  - vm_compute. reflexivity.
  - split; [reflexivity|]. right. left. reflexivity.
  - exact Hex.
  - rewrite Hcl in Hcl'. injection Hcl' as <-. contradiction.
Qed.

End RealtimeProps.

(** ** The repository queries *)

Module StorageProps.
Import Storage StorageSpec.

Lemma filter_none {A} (f : A -> bool) (l : list A) :
  (forall x, x ∈ l -> f x = false) -> filter (fun x => f x) l = [].
Proof.
  induction l as [|x l IH]; intros H; [reflexivity|].
  rewrite filter_cons.
  destruct (decide (f x)) as [Hx|_].
  - rewrite (H x) in Hx by (left; reflexivity). destruct Hx.
  - apply IH. intros y Hy. apply H. right. exact Hy.
Qed.

Lemma foldl_append {A B} (f : A -> B) (l : list A) (l0 : list B) :
  foldl (fun s x => append s (f x)) (mk_slice l0) l = mk_slice (l0 ++ map f l).
Proof.
  revert l0. induction l as [|x l IH]; intros l0; simpl.
  - rewrite app_nil_r. reflexivity.
  - unfold append at 2. simpl. rewrite IH, <- app_assoc. reflexivity.
Qed.

Section QueriesProps.

Variable like_error : string -> bool.
Variable avg_duration : list Z -> float.
Variable math_Ceil : float -> float.
Variable math_Round : float -> float.
Variable int_of_float : float -> Z.

Abbreviation GetDashboardStats :=
  (GetDashboardStats like_error avg_duration math_Ceil int_of_float).
Abbreviation GetServiceMapMetrics :=
  (GetServiceMapMetrics like_error avg_duration math_Round).

(** C8, as the code has it: with no trace and no log in the window and no
    failing statement, the three queries of a snapshot return zero for
    every aggregate, a nil slice for the top failing services and for the
    traffic series, which [encoding/json] writes as [null], and empty
    slices for the nodes and the edges of the service map, written as
    [[]]. *)
Theorem empty_window_snapshot (r : Repository) (start end_ : Z)
    (serviceNames : list string) :
  (forall t, t ∈ traces r -> between start end_ (timestamp t) = false) ->
  (forall l, l ∈ logs r -> between start end_ (log_timestamp l) = false) ->
  IsZero start = false -> IsZero end_ = false ->
  (forall q, fails r q = false) ->
  GetDashboardStats r start end_ serviceNames
    = inl (mk_DashboardStats 0 0 0 0%float 0%float 0 0 nil_slice)
  /\ GetTrafficMetrics r start end_ serviceNames = inl nil_slice
  /\ GetServiceMapMetrics r start end_
     = inl (mk_ServiceMapMetrics (mk_slice []) (mk_slice []))
  /\ (forall enc : ServiceError -> string, json_slice enc nil_slice = "null")
  /\ (forall enc : TrafficPoint -> string, json_slice enc nil_slice = "null")
  /\ (forall enc : ServiceMapNode -> string, json_slice enc (mk_slice []) = "[]")
  /\ (forall enc : ServiceMapEdge -> string, json_slice enc (mk_slice []) = "[]").
Proof.
  intros Htr Hlog Hs He Hq.
  assert (Hbase : filter (fun t => between start end_ (timestamp t)
                                   && in_services serviceNames (service_name t))
                    (traces r) = []).
  { apply (filter_none (fun t => between start end_ (timestamp t)
                                 && in_services serviceNames (service_name t))).
    intros t Ht. rewrite (Htr t Ht). reflexivity. }
  assert (Hlogs : filter (fun l => between start end_ (log_timestamp l)
                                   && in_services serviceNames (log_service_name l))
                    (logs r) = []).
  { apply (filter_none (fun l => between start end_ (log_timestamp l)
                                 && in_services serviceNames (log_service_name l))).
    intros l Hl. rewrite (Hlog l Hl). reflexivity. }
  assert (Hwin : filter (fun t => windowed start end_ (timestamp t)) (traces r) = []).
  { apply (filter_none (fun t => windowed start end_ (timestamp t))).
    intros t Ht. unfold windowed. rewrite Hs, He. simpl. apply Htr, Ht. }
  split; [|split; [|split]].
  - unfold Storage.GetDashboardStats. rewrite !Hq, Hbase, Hlogs. reflexivity.
  - unfold GetTrafficMetrics. rewrite Hq, Hbase. simpl foldl.
    rewrite map_to_list_empty. reflexivity.
  - unfold Storage.GetServiceMapMetrics. rewrite !Hq, Hwin. simpl foldl.
    rewrite map_to_list_empty. simpl foldl. rewrite map_to_list_empty.
    reflexivity.
  - repeat split.
Qed.

(** *** The edges of the service map *)

Lemma has_empty (tid name : string) : ~ has ∅ tid name.
Proof. intros (sv & H & _). rewrite lookup_empty in H. discriminate. Qed.

Lemma has_add_trace_info (M : gmap string (gmap string svc_agg)) (t : Trace)
    (tid name : string) :
  has (add_trace_info M t) tid name <->
  has M tid name
  \/ (service_name t <> "" /\ trace_id t = tid /\ service_name t = name).
Proof.
  unfold add_trace_info.
  destruct (String.eqb_spec (service_name t) "") as [He|Hne].
  { split; [auto|]. intros [H|[H _]]; [exact H|contradiction]. }
  cbv zeta.
  match goal with |- context [<[service_name t := ?e]> _] => generalize e end.
  intros entry. unfold has.
  destruct (decide (trace_id t = tid)) as [<-|Htid].
  - rewrite lookup_insert_eq. split.
    + intros (sv & [= <-] & Hs).
      destruct (decide (service_name t = name)) as [<-|Hn]; [right; auto|].
      rewrite lookup_insert_ne in Hs by exact Hn. left.
      destruct (M !! trace_id t) as [sv0|] eqn:HM; simpl in Hs.
      * eauto.
      * rewrite lookup_empty in Hs. destruct Hs as [? Hs]. discriminate.
    + intros [(sv & HM & Hs)|(_ & _ & <-)].
      * eexists. split; [reflexivity|]. rewrite HM. simpl.
        destruct (decide (service_name t = name)) as [<-|Hn].
        -- rewrite lookup_insert_eq. eauto.
        -- rewrite lookup_insert_ne by exact Hn. exact Hs.
      * eexists. split; [reflexivity|]. rewrite lookup_insert_eq. eauto.
  - rewrite lookup_insert_ne by exact Htid. split; [auto|].
    intros [H|(_ & H & _)]; [exact H|contradiction].
Qed.

Lemma has_foldl (rows : list Trace) (M : gmap string (gmap string svc_agg))
    (tid name : string) :
  has (foldl add_trace_info M rows) tid name <->
  has M tid name \/ carries rows tid name.
Proof.
  revert M. induction rows as [|t rows IH]; intros M; simpl.
  - split; [auto|]. intros [H|(_ & t & Ht & _)]; [exact H|].
    apply elem_of_nil in Ht. destruct Ht.
  - rewrite IH, has_add_trace_info. unfold carries. split.
    + intros [[H|(Hne & Htid & Hn)]|(Hne & t' & Ht' & H')].
      * left. exact H.
      * right. split; [congruence|]. exists t. split; [left|auto].
      * right. split; [exact Hne|]. exists t'. split; [right; exact Ht'|exact H'].
    + intros [H|(Hne & t' & Ht' & Htid & Hn)]; [left; left; exact H|].
      apply elem_of_cons in Ht' as [->|Ht'].
      * left. right. split; [congruence|auto].
      * right. split; [exact Hne|]. exists t'. auto.
Qed.

Lemma has_foldl_empty (rows : list Trace) (tid name : string) :
  has (foldl add_trace_info ∅ rows) tid name <-> carries rows tid name.
Proof.
  rewrite has_foldl. split; [|auto].
  intros [H|H]; [destruct (has_empty _ _ H)|exact H].
Qed.

Lemma add_pair_is_Some (sv : gmap string svc_agg)
    (agg : gmap (string * string) edge_agg) (key k : string * string) :
  is_Some (add_pair sv agg key !! k) <-> k = key \/ is_Some (agg !! k).
Proof.
  unfold add_pair. cbv zeta.
  destruct (decide (key = k)) as [->|Hne].
  - rewrite lookup_insert_eq. split; [auto|eauto].
  - rewrite lookup_insert_ne by exact Hne. split; [auto|].
    intros [->|H]; [contradiction|exact H].
Qed.

Lemma foldl_add_pair_is_Some (sv : gmap string svc_agg) (ps : list (string * string))
    (agg : gmap (string * string) edge_agg) (k : string * string) :
  is_Some (foldl (add_pair sv) agg ps !! k) <-> k ∈ ps \/ is_Some (agg !! k).
Proof.
  revert agg. induction ps as [|p ps IH]; intros agg; simpl.
  - split; [auto|]. intros [H|H]; [apply elem_of_nil in H; destruct H|exact H].
  - rewrite IH, add_pair_is_Some, elem_of_cons. tauto.
Qed.

Lemma foldl_add_trace_edges_is_Some
    (T : list (string * gmap string svc_agg))
    (agg : gmap (string * string) edge_agg) (k : string * string) :
  is_Some (foldl (fun agg kv => add_trace_edges agg (snd kv)) agg T !! k) <->
  (exists kv, kv ∈ T /\ k ∈ pairs (sort_strings ((map_to_list (snd kv)).*1)))
  \/ is_Some (agg !! k).
Proof.
  revert agg. induction T as [|kv T IH]; intros agg; simpl.
  - split; [auto|]. intros [(kv & H & _)|H]; [apply elem_of_nil in H; destruct H|exact H].
  - rewrite IH. unfold add_trace_edges. rewrite foldl_add_pair_is_Some. split.
    + intros [(kv' & Hin & Hk)|[Hk|H]].
      * left. exists kv'. split; [right; exact Hin|exact Hk].
      * left. exists kv. split; [left|exact Hk].
      * right. exact H.
    + intros [(kv' & Hin & Hk)|H]; [|right; right; exact H].
      apply elem_of_cons in Hin as [->|Hin].
      * right. left. exact Hk.
      * left. exists kv'. auto.
Qed.

Lemma elem_of_pairs_inv (l : list string) (a b : string) :
  (a, b) ∈ pairs l -> a ∈ l /\ b ∈ l.
Proof.
  induction l as [|x l IH]; simpl; intros H.
  - apply elem_of_nil in H. destruct H.
  - apply elem_of_app in H as [H|H].
    + apply list_elem_of_In, in_map_iff in H as (y & [= <- <-] & Hy).
      apply list_elem_of_In in Hy. split; [left|right; exact Hy].
    + destruct (IH H). split; right; assumption.
Qed.

Lemma string_ltb_not_le (a b : string) :
  String.ltb a b = true -> string_le b a -> False.
Proof.
  unfold String.ltb, string_le, String.leb. rewrite (String.compare_antisym a b).
  destruct (String.compare b a); simpl; discriminate.
Qed.

(** On a sorted list without repetition the two loops select the pairs
    in strictly rising order, all of them. *)
Lemma elem_of_pairs (l : list string) (a b : string) :
  StronglySorted string_le l -> NoDup l ->
  ((a, b) ∈ pairs l <-> a ∈ l /\ b ∈ l /\ String.ltb a b = true).
Proof.
  induction l as [|x l IH]; intros Hs Hnd; simpl.
  - split; [intros H|intros (H & _)]; apply elem_of_nil in H; destruct H.
  - apply StronglySorted_inv in Hs as [Hs Hx].
    apply NoDup_cons in Hnd as [Hxl Hnd].
    rewrite Forall_forall in Hx.
    rewrite elem_of_app, (IH Hs Hnd), !elem_of_cons. split.
    + intros [H|(Ha & Hb & Hlt)].
      * apply list_elem_of_In, in_map_iff in H as (y & [= <- <-] & Hy).
        apply list_elem_of_In in Hy. split; [left; reflexivity|].
        split; [right; exact Hy|].
        apply string_lt_of_le_ne; [apply Hx, Hy|]. intros ->. contradiction.
      * tauto.
    + intros ([->|Ha] & [->|Hb] & Hlt).
      * rewrite string_ltb_irrefl in Hlt. discriminate.
      * left. apply list_elem_of_In, in_map_iff. exists b.
        split; [reflexivity|]. apply list_elem_of_In. exact Hb.
      * exfalso. apply (string_ltb_not_le _ _ Hlt). apply Hx, Ha.
      * right. auto.
Qed.

Lemma NoDup_map_pair (x : string) (l : list string) :
  NoDup l -> NoDup (map (fun b => (x, b)) l).
Proof.
  induction l as [|y l IH]; intros Hnd; simpl; [constructor|].
  apply NoDup_cons in Hnd as [Hy Hnd]. apply NoDup_cons. split; [|apply IH, Hnd].
  intros H. apply list_elem_of_In, in_map_iff in H as (z & [= <-] & Hz).
  apply list_elem_of_In in Hz. contradiction.
Qed.

Lemma NoDup_pairs (l : list string) : NoDup l -> NoDup (pairs l).
Proof.
  induction l as [|x l IH]; intros Hnd; simpl; [constructor|].
  apply NoDup_cons in Hnd as [Hx Hnd]. apply NoDup_app. split; [|split].
  - apply NoDup_map_pair, Hnd.
  - intros [a b] H1 H2.
    apply list_elem_of_In, in_map_iff in H1 as (y & [= <- <-] & _).
    apply elem_of_pairs_inv in H2 as [H2 _]. contradiction.
  - apply IH, Hnd.
Qed.

(** A list of [n] names gives [n (n - 1) / 2] pairs. *)
Lemma length_pairs (l : list string) :
  (2 * length (pairs l) = length l * (length l - 1))%nat.
Proof.
  induction l as [|x l IH]; simpl; [reflexivity|].
  rewrite length_app, length_map. nia.
Qed.

Lemma elem_of_keys (sv : gmap string svc_agg) (x : string) :
  x ∈ (map_to_list sv).*1 <-> is_Some (sv !! x).
Proof.
  rewrite list_elem_of_fmap. split.
  - intros ([k v] & -> & H). apply elem_of_map_to_list in H. simpl. eauto.
  - intros [v H]. exists (x, v). split; [reflexivity|].
    apply elem_of_map_to_list. exact H.
Qed.

Lemma elem_of_trace_pairs (sv : gmap string svc_agg) (a b : string) :
  (a, b) ∈ pairs (sort_strings ((map_to_list sv).*1)) <->
  is_Some (sv !! a) /\ is_Some (sv !! b) /\ String.ltb a b = true.
Proof.
  rewrite elem_of_pairs.
  - rewrite !elem_of_sort_strings, !elem_of_keys. reflexivity.
  - apply sort_strings_sorted.
  - apply NoDup_sort_strings, NoDup_fst_map_to_list.
Qed.

Lemma edge_key_make_edge (ka : string * string * edge_agg) :
  (Source (make_edge math_Round ka), Target (make_edge math_Round ka)) = fst ka.
Proof. destruct ka as [[a b] g]. reflexivity. Qed.

(** The edges of a service map that was returned. *)
Lemma edges_of_returned_map (r : Repository) (start end_ : Z)
    (m : ServiceMapMetrics) :
  GetServiceMapMetrics r start end_ = inl m ->
  NoDup (edge_keys m)
  /\ (forall a b,
        (a, b) ∈ edge_keys m <->
        String.ltb a b = true
        /\ exists tid,
             carries (filter (fun t => windowed start end_ (timestamp t)) (traces r))
                     tid a
             /\ carries (filter (fun t => windowed start end_ (timestamp t)) (traces r))
                        tid b)
  /\ (forall tid names,
        NoDup names ->
        (forall x, x ∈ names <->
                   carries (filter (fun t => windowed start end_ (timestamp t))
                              (traces r)) tid x) ->
        (2 * length (filter (fun k => fst k ∈ names /\ snd k ∈ names) (edge_keys m))
         = length names * (length names - 1))%nat)
  /\ (forall spans',
        GetServiceMapMetrics (mk_Repository (traces r) (logs r) spans' (fails r))
                             start end_ = inl m).
Proof.
  intros Hm.
  set (rows := filter (fun t => windowed start end_ (timestamp t)) (traces r)).
  set (M := foldl add_trace_info ∅ rows).
  set (E := foldl (fun agg kv => add_trace_edges agg (snd kv)) ∅ (map_to_list M)).
  assert (Hkeys : edge_keys m = (map_to_list E).*1).
  { revert Hm. unfold Storage.GetServiceMapMetrics.
    destruct (fails r QNodes); [discriminate|].
    destruct (fails r QSpans); [discriminate|].
    destruct (fails r QTraceInfos); [discriminate|].
    intros [= <-]. unfold edge_keys. simpl Edges.
    fold rows. fold M. fold E.
    rewrite foldl_append. simpl elems.
    rewrite <- list_fmap_compose. apply list_fmap_ext.
    intros i ka _. simpl. apply edge_key_make_edge. }
  assert (Hiff : forall a b,
            (a, b) ∈ edge_keys m <->
            String.ltb a b = true
            /\ exists tid, carries rows tid a /\ carries rows tid b).
  { intros a b. rewrite Hkeys. rewrite list_elem_of_fmap. split.
    - intros ([k g] & Hk & Hin). simpl in Hk. subst k.
      apply elem_of_map_to_list in Hin.
      assert (Hs : is_Some (E !! (a, b))) by eauto.
      apply foldl_add_trace_edges_is_Some in Hs as [([tid sv] & HT & Hp)|Hs].
      2:{ rewrite lookup_empty in Hs. destruct Hs as [? Hs]. discriminate. }
      apply elem_of_map_to_list in HT. simpl in Hp.
      apply elem_of_trace_pairs in Hp as (Ha & Hb & Hlt).
      split; [exact Hlt|]. exists tid.
      split; apply has_foldl_empty; exists sv; auto.
    - intros (Hlt & tid & Ha & Hb).
      assert (Ha' : has M tid a) by (apply has_foldl_empty; exact Ha).
      assert (Hb' : has M tid b) by (apply has_foldl_empty; exact Hb).
      destruct Ha' as (sv & Hsv & Hsa). destruct Hb' as (sv' & Hsv' & Hsb).
      rewrite Hsv in Hsv'. injection Hsv' as <-.
      assert (Hs : is_Some (E !! (a, b))).
      { apply foldl_add_trace_edges_is_Some. left. exists (tid, sv).
        split; [apply elem_of_map_to_list; exact Hsv|].
        simpl. apply elem_of_trace_pairs. auto. }
      destruct Hs as [g Hg]. exists ((a, b), g).
      split; [reflexivity|]. apply elem_of_map_to_list. exact Hg. }
  split; [rewrite Hkeys; apply NoDup_fst_map_to_list|].
  split; [exact Hiff|]. split.
  - intros tid names Hnd Hnames.
    assert (Hperm : filter (fun k => fst k ∈ names /\ snd k ∈ names) (edge_keys m)
                    ≡ₚ pairs (sort_strings names)).
    { apply NoDup_Permutation.
      - apply NoDup_filter. rewrite Hkeys. apply NoDup_fst_map_to_list.
      - apply NoDup_pairs, NoDup_sort_strings, Hnd.
      - intros [a b]. rewrite list_elem_of_filter. simpl.
        rewrite Hiff, elem_of_pairs;
          [|apply sort_strings_sorted|apply NoDup_sort_strings, Hnd].
        rewrite !elem_of_sort_strings. split.
        + intros ((Ha & Hb) & Hlt & _). auto.
        + intros (Ha & Hb & Hlt). split; [auto|]. split; [exact Hlt|].
          exists tid. split; apply Hnames; assumption. }
    rewrite Hperm, length_pairs, (Permutation_length (sort_strings_perm names)).
    reflexivity.
  - intros spans'. rewrite <- Hm. reflexivity.
Qed.

(** Where the table keeps one row per trace, as the unique index on
    [trace_id] has it, no trace has rows of two services and the map has
    no edge. *)
Lemma unique_trace_ids_no_edges (r : Repository) (start end_ : Z)
    (m : ServiceMapMetrics) :
  unique_trace_ids r ->
  GetServiceMapMetrics r start end_ = inl m ->
  edge_keys m = [].
Proof.
  intros Hu Hm.
  destruct (edges_of_returned_map r start end_ m Hm) as (_ & Hiff & _).
  destruct (edge_keys m) as [|[a b] ks] eqn:Hk; [reflexivity|]. exfalso.
  assert (Hin : (a, b) ∈ (a, b) :: ks) by (apply elem_of_cons; left; reflexivity).
  apply Hiff in Hin as (Hlt & tid & (_ & ta & Hta & Hida & Hna)
                                  & (_ & tb & Htb & Hidb & Hnb)).
  apply list_elem_of_filter in Hta as [_ Hta].
  apply list_elem_of_filter in Htb as [_ Htb].
  assert (Heq : ta = tb).
  { unfold unique_trace_ids in Hu. clear Hiff Hm. revert Hu Hta Htb.
    induction (traces r) as [|t l IH]; intros Hu Hta Htb.
    - apply elem_of_nil in Hta. destruct Hta.
    - rewrite fmap_cons in Hu. apply NoDup_cons in Hu as [Hnot Hu].
      apply elem_of_cons in Hta as [->|Hta];
        apply elem_of_cons in Htb as [->|Htb].
      + reflexivity.
      + exfalso. apply Hnot. rewrite Hida, <- Hidb.
        apply list_elem_of_fmap. exists tb. auto.
      + exfalso. apply Hnot. rewrite Hidb, <- Hida.
        apply list_elem_of_fmap. exists ta. auto.
      + apply IH; assumption. }
  subst tb. rewrite <- Hna, <- Hnb, string_ltb_irrefl in Hlt. discriminate.
Qed.

(** C7: over the rows of the window, where a row names a service when its
    name is not empty: when its three statements succeed the function
    returns a map, and in it the edges have pairwise different (source,
    target) keys; [(a, b)] is among them if and only if [a] is strictly
    below [b] in byte order and some trace has a row of [a] and a row of
    [b]; a trace whose rows carry [n] services accounts for [n (n - 1) / 2]
    of the edges; and the span rows have no part in the result. *)
Theorem service_map_edges (r : Repository) (start end_ : Z) :
  fails r QNodes = false ->
  fails r QSpans = false ->
  fails r QTraceInfos = false ->
  exists m,
    GetServiceMapMetrics r start end_ = inl m
    /\ NoDup (edge_keys m)
    /\ (forall a b,
          (a, b) ∈ edge_keys m <->
          String.ltb a b = true
          /\ exists tid,
               carries (filter (fun t => windowed start end_ (timestamp t)) (traces r))
                       tid a
               /\ carries (filter (fun t => windowed start end_ (timestamp t))
                             (traces r)) tid b)
    /\ (forall tid names,
          NoDup names ->
          (forall x, x ∈ names <->
                     carries (filter (fun t => windowed start end_ (timestamp t))
                                (traces r)) tid x) ->
          (2 * length (filter (fun k => fst k ∈ names /\ snd k ∈ names) (edge_keys m))
           = length names * (length names - 1))%nat)
    /\ (forall spans',
          GetServiceMapMetrics (mk_Repository (traces r) (logs r) spans' (fails r))
                               start end_ = inl m).
Proof.
  intros Hn Hs Ht.
  assert (Hm : exists m, GetServiceMapMetrics r start end_ = inl m).
  { unfold Storage.GetServiceMapMetrics. rewrite Hn, Hs, Ht. eauto. }
  destruct Hm as [m Hm]. exists m. split; [exact Hm|].
  exact (edges_of_returned_map r start end_ m Hm).
Qed.

End QueriesProps.

(** *** The queries on small tables *)

Lemma empty_window_snapshot_witness :
  Storage.GetDashboardStats like_upper avg_zero float_id int_zero
      empty_repository 1 (15 * minute) []
    = inl (mk_DashboardStats 0 0 0 0%float 0%float 0 0 nil_slice)
  /\ GetTrafficMetrics empty_repository 1 (15 * minute) [] = inl nil_slice
  /\ Storage.GetServiceMapMetrics like_upper avg_zero float_id
       empty_repository 1 (15 * minute)
     = inl (mk_ServiceMapMetrics (mk_slice []) (mk_slice []))
  /\ (forall enc : ServiceError -> string, json_slice enc nil_slice = "null")
  /\ (forall enc : TrafficPoint -> string, json_slice enc nil_slice = "null")
  /\ (forall enc : ServiceMapNode -> string, json_slice enc (mk_slice []) = "[]")
  /\ (forall enc : ServiceMapEdge -> string, json_slice enc (mk_slice []) = "[]").
Proof.
  apply (empty_window_snapshot like_upper avg_zero float_id float_id int_zero
           empty_repository 1 (15 * minute) []).
  - intros t Ht. apply elem_of_nil in Ht. destruct Ht.
  - intros l Hl. apply elem_of_nil in Hl. destruct Hl.
  - reflexivity.
  - reflexivity.
  - intros q. reflexivity.
Defined.

Example map1_edge_keys : edge_keys map1 = [("a", "c"); ("a", "b"); ("b", "c")].
Proof. vm_compute. reflexivity. Qed.

Example map1_call_counts :
  CallCount <$> elems (Edges map1) = [1; 2; 1].
Proof. vm_compute. reflexivity. Qed.

Lemma service_map_edges_witness :
  exists m,
    Storage.GetServiceMapMetrics like_upper avg_zero float_id
      repository1 zeroTime zeroTime = inl m
    /\ NoDup (edge_keys m)
    /\ (forall a b,
          (a, b) ∈ edge_keys m <->
          String.ltb a b = true
          /\ exists tid,
               carries (filter (fun t => windowed zeroTime zeroTime (timestamp t))
                          (traces repository1)) tid a
               /\ carries (filter (fun t => windowed zeroTime zeroTime (timestamp t))
                             (traces repository1)) tid b)
    /\ (forall tid names,
          NoDup names ->
          (forall x, x ∈ names <->
                     carries (filter (fun t => windowed zeroTime zeroTime (timestamp t))
                                (traces repository1)) tid x) ->
          (2 * length (filter (fun k => fst k ∈ names /\ snd k ∈ names)
                         (edge_keys m))
           = length names * (length names - 1))%nat)
    /\ (forall spans',
          Storage.GetServiceMapMetrics like_upper avg_zero float_id
            (mk_Repository (traces repository1) (logs repository1) spans'
                           (fails repository1))
            zeroTime zeroTime = inl m).
Proof.
  apply (service_map_edges like_upper avg_zero float_id repository1
           zeroTime zeroTime); reflexivity.
Defined.

(** A table of three traces under the unique index: its map has the
    three services and no edge. *)
Example repository3_no_edges :
  unique_trace_ids repository3
  /\ exists m,
       Storage.GetServiceMapMetrics like_upper avg_zero float_id
         repository3 zeroTime zeroTime = inl m
       /\ edge_keys m = [].
Proof.
  split.
  - unfold unique_trace_ids. simpl.
    repeat constructor; rewrite ?elem_of_cons, ?elem_of_nil; intuition discriminate.
  - eexists. split; [vm_compute; reflexivity|]. reflexivity.
Qed.

(** C8 as stated fails for two of the four collections: over an empty
    store the top failing services and the traffic series are nil, and
    their JSON text is [null], not an empty array. *)
Lemma empty_snapshot_null_collections :
  match Storage.GetDashboardStats like_upper avg_zero float_id int_zero
          empty_repository 1 (15 * minute) [] with
  | inl stats => json_slice se_ServiceName (TopFailingServices stats)
  | inr _ => ""
  end = "null"
  /\ match GetTrafficMetrics empty_repository 1 (15 * minute) [] with
     | inl points => json_slice (fun p => pretty (tp_Count p)) points
     | inr _ => ""
     end = "null"
  /\ "null" <> "[]".
Proof.
  split; [vm_compute; reflexivity|]. split; [vm_compute; reflexivity|].
  discriminate.
Qed.

End StorageProps.

(** ** The ORDER BY clause *)

Module SortingProps.
Import Sorting.

Lemma validSorts_lookup (s : string) :
  validSorts !! s = if bool_decide (s ∈ whitelist) then Some s else None.
Proof.
  unfold validSorts, whitelist. simpl list_to_map.
  do 5 (match goal with |- <[?k:=_]> _ !! _ = _ =>
          destruct (decide (s = k)) as [->|];
          [ vm_compute; reflexivity | rewrite lookup_insert_ne by congruence ]
        end).
  rewrite lookup_empty.
  rewrite bool_decide_eq_false_2; [reflexivity|].
  rewrite !elem_of_cons, elem_of_nil. intuition congruence.
Qed.

(** C10: a [sortBy] outside the whitelist (the empty string included) gives
    ["timestamp DESC"]; a whitelisted [sortBy] gives that field followed by
    [DESC] when [orderBy] is ["desc"] and [ASC] otherwise; in every case the
    clause is one of the ten strings of [allClauses]. *)
Theorem orderClause_whitelisted (sortBy orderBy : string) :
  orderClause sortBy orderBy =
    (if bool_decide (sortBy ∈ whitelist)
     then sortBy +:+ " " +:+
          (if bool_decide (orderBy = "desc") then "DESC" else "ASC")
     else "timestamp DESC")
  /\ orderClause sortBy orderBy ∈ allClauses.
Proof.
  assert (Hd : (if String.eqb orderBy "desc" then "DESC" else "ASC")
               = if bool_decide (orderBy = "desc") then "DESC" else "ASC").
  { destruct (String.eqb_spec orderBy "desc") as [->|Hne].
    - reflexivity.
    - rewrite bool_decide_eq_false_2 by exact Hne. reflexivity. }
  unfold orderClause. rewrite validSorts_lookup, Hd.
  destruct (String.eqb_spec sortBy "") as [->|Hne].
  - split; [reflexivity | vm_compute; set_solver].
  - destruct (bool_decide (sortBy ∈ whitelist)) eqn:Hw.
    + apply bool_decide_eq_true in Hw. unfold sprintf_s_s. split; [reflexivity|].
      unfold whitelist in Hw. rewrite !elem_of_cons, elem_of_nil in Hw.
      destruct (bool_decide (orderBy = "desc"));
        destruct Hw as [->|[->|[->|[->|[->|[]]]]]];
        vm_compute; set_solver.
    + split; [reflexivity | vm_compute; set_solver].
Qed.

End SortingProps.


(** * Further properties *)

(** ** The storage queries *)

Module StorageMore.
Import Storage StorageSpec StorageTerms StorageProps.

#[local] Existing Instance before_dec.
#[local] Existing Instance desc_errors_dec.

Lemma wrap64_small (z : Z) : - 2 ^ 63 <= z < 2 ^ 63 -> wrap64 z = z.
Proof.
  intros H. unfold wrap64.
  rewrite Z.mod_small by lia. lia.
Qed.

Lemma add64_wrap64 (z : Z) : add64 (wrap64 z) 1 = wrap64 (z + 1).
Proof.
  unfold add64, wrap64.
  replace ((z + 2 ^ 63) mod 2 ^ 64 - 2 ^ 63 + 1 + 2 ^ 63)
    with ((z + 2 ^ 63) mod 2 ^ 64 + 1) by lia.
  rewrite Zplus_mod_idemp_l.
  replace (z + 2 ^ 63 + 1) with (z + 1 + 2 ^ 63) by lia. reflexivity.
Qed.

Lemma minute_of_truncate (t : Z) :
  time_Unix (truncate_minute_unix t) = minute_of t.
Proof. unfold time_Unix, truncate_minute_unix, minute_of, minute. ring. Qed.

Lemma time_Unix_inj (a b : Z) : time_Unix a = time_Unix b -> a = b.
Proof. unfold time_Unix, second. lia. Qed.

Lemma count_app {A} (l k : list A) : count (l ++ k) = count l + count k.
Proof. unfold count. rewrite length_app. lia. Qed.

Lemma foldl_snoc {A B} (f : A -> B -> A) (a : A) (l : list B) (x : B) :
  foldl f a (l ++ [x]) = f (foldl f a l) x.
Proof. rewrite foldl_app. reflexivity. Qed.

(** The buckets after the loop over the rows. *)
Lemma buckets_spec (rows : list Trace) (ts : Z) :
  foldl add_row ∅ rows !! ts = bucket_of rows ts.
Proof.
  induction rows as [|t rows IH] using rev_ind.
  - simpl. rewrite lookup_empty. reflexivity.
  - rewrite foldl_snoc. unfold add_row at 1. cbv zeta.
    unfold bucket_of in *. rewrite filter_app.
    set (l := filter (fun t => truncate_minute_unix (timestamp t) = ts) rows) in *.
    destruct (decide (truncate_minute_unix (timestamp t) = ts)) as [E|N].
    + rewrite E, lookup_insert_eq, IH.
      rewrite filter_cons_True by exact E. rewrite filter_nil.
      unfold with_error. rewrite filter_app, !count_app.
      destruct (Contains (status t) "ERROR") eqn:C.
      * rewrite filter_cons_True by (rewrite C; exact I). rewrite filter_nil.
        destruct l as [|x l]; simpl default; [reflexivity|].
        cbn [b_count b_errorCount]. rewrite !add64_wrap64.
        destruct ((x :: l) ++ [t]) eqn:E'; [destruct l; discriminate|].
        reflexivity.
      * rewrite filter_cons_False by (rewrite C; exact id). rewrite filter_nil.
        destruct l as [|x l]; simpl default; [reflexivity|].
        cbn [b_count b_errorCount]. rewrite !add64_wrap64.
        destruct ((x :: l) ++ [t]) eqn:E'; [destruct l; discriminate|].
        rewrite Z.add_0_r. reflexivity.
    + rewrite lookup_insert_ne by exact N. rewrite IH.
      rewrite filter_cons_False by exact N. rewrite filter_nil, app_nil_r.
      reflexivity.
Qed.

Lemma elems_foldl_append {A B} (f : A -> B) (l : list A) (s : slice B) :
  elems (foldl (fun s x => append s (f x)) s l) = elems s ++ map f l.
Proof.
  revert s. induction l as [|x l IH]; intros s; simpl.
  - rewrite app_nil_r. reflexivity.
  - rewrite IH. unfold append. destruct s; simpl; rewrite <- ?app_assoc; reflexivity.
Qed.

Lemma elems_sort_points (s : slice TrafficPoint) :
  elems (sort_points s) = merge_sort before (elems s).
Proof. destruct s; reflexivity. Qed.

#[local] Instance before_trans : Transitive before.
Proof. intros a b c. unfold before. lia. Qed.

#[local] Instance before_total : Total before.
Proof. intros a b. unfold before. lia. Qed.

Lemma filter_truncate (rows : list Trace) (ts : Z) :
  filter (fun t => truncate_minute_unix (timestamp t) = ts) rows
  = in_minute (time_Unix ts) rows.
Proof.
  unfold in_minute. apply list_filter_iff. intros t.
  rewrite <- minute_of_truncate. split; [congruence|apply time_Unix_inj].
Qed.

Lemma bucket_of_Some (rows : list Trace) (ts : Z) (b : Storage.bucket) :
  bucket_of rows ts = Some b <->
  (exists t, t ∈ rows /\ minute_of (timestamp t) = time_Unix ts)
  /\ mk_TrafficPoint (time_Unix ts) (b_count b) (b_errorCount b)
     = point_of rows (time_Unix ts).
Proof.
  unfold bucket_of, point_of. rewrite filter_truncate.
  destruct (in_minute (time_Unix ts) rows) as [|x l] eqn:E.
  - split; [discriminate|]. intros [(t & Ht & Hm) _].
    assert (t ∈ in_minute (time_Unix ts) rows) as Hin
      by (apply list_elem_of_filter; auto).
    rewrite E in Hin. apply elem_of_nil in Hin. destruct Hin.
  - split.
    + intros [= <-]. split; [|reflexivity].
      assert (x ∈ in_minute (time_Unix ts) rows) as Hin by (rewrite E; left).
      apply list_elem_of_filter in Hin. exists x. tauto.
    + intros [_ [= Hc He]]. destruct b as [c e]. simpl in *. congruence.
Qed.

(** The traffic series, from the buckets. *)
Lemma traffic_elems (r : Repository) (start end_ : Z) (names : list string) :
  fails r QTraffic = false ->
  exists pts, GetTrafficMetrics r start end_ names = inl pts
    /\ elems pts
       = merge_sort before
           (map (fun tb => mk_TrafficPoint (time_Unix (fst tb))
                             (b_count (snd tb)) (b_errorCount (snd tb)))
              (map_to_list (foldl add_row ∅ (selected r start end_ names)))).
Proof.
  intros Hq. unfold GetTrafficMetrics. rewrite Hq. eexists. split; [reflexivity|].
  rewrite elems_sort_points, elems_foldl_append. reflexivity.
Qed.

Lemma elem_of_traffic (rows : list Trace) (p : TrafficPoint) :
  p ∈ map (fun tb => mk_TrafficPoint (time_Unix (fst tb))
                       (b_count (snd tb)) (b_errorCount (snd tb)))
        (map_to_list (foldl add_row ∅ rows))
  <-> exists t, t ∈ rows /\ p = point_of rows (minute_of (timestamp t)).
Proof.
  rewrite list_elem_of_fmap. split.
  - intros ([ts b] & -> & Hin). apply elem_of_map_to_list in Hin.
    rewrite buckets_spec in Hin. apply bucket_of_Some in Hin as [(t & Ht & Hm) Hp].
    exists t. split; [exact Ht|]. simpl. rewrite Hp, Hm. reflexivity.
  - intros (t & Ht & ->).
    set (ts := truncate_minute_unix (timestamp t)).
    destruct (bucket_of rows ts) as [b|] eqn:Hb.
    + exists (ts, b). split.
      * apply bucket_of_Some in Hb as [_ Hp]. simpl. rewrite Hp.
        unfold ts. rewrite minute_of_truncate. reflexivity.
      * apply elem_of_map_to_list. rewrite buckets_spec. exact Hb.
    + exfalso. unfold bucket_of in Hb.
      assert (t ∈ filter (fun t0 => truncate_minute_unix (timestamp t0) = ts) rows)
        as Hin by (apply list_elem_of_filter; split; [reflexivity|exact Ht]).
      destruct (filter _ rows); [apply elem_of_nil in Hin; destruct Hin|discriminate].
Qed.

Lemma StronglySorted_strict {A} (f : A -> Z) (l : list A) :
  StronglySorted (fun a b => f a <= f b) l -> NoDup (map f l) ->
  StronglySorted (fun a b => f a < f b) l.
Proof.
  induction 1 as [|a l Hl IH Ha]; intros Hnd; constructor.
  - apply IH. inversion Hnd; assumption.
  - inversion Hnd as [|? ? Hnot _]; subst.
    apply Forall_forall. intros b Hb.
    pose proof (proj1 (Forall_forall _ _) Ha b Hb) as Hle. simpl in Hle.
    assert (f a <> f b); [|lia].
    intros E. apply Hnot. rewrite E. apply list_elem_of_fmap. eauto.
Qed.

(** X1: the traffic series has one point for each minute in which a
    selected trace falls, and no other; the point carries the start of the
    minute, the number of the minute's traces and the number of those whose
    status contains ERROR (as [int64]); the points come by strictly rising
    time. *)
Theorem traffic_points_by_minute (r : Repository) (start end_ : Z)
    (names : list string) :
  fails r QTraffic = false ->
  exists pts, GetTrafficMetrics r start end_ names = inl pts
    /\ StronglySorted (fun p q => tp_Timestamp p < tp_Timestamp q) (elems pts)
    /\ forall p, p ∈ elems pts <->
         exists t, t ∈ selected r start end_ names
           /\ p = point_of (selected r start end_ names) (minute_of (timestamp t)).
Proof.
  intros Hq. destruct (traffic_elems r start end_ names Hq) as (pts & Hr & He).
  exists pts. split; [exact Hr|]. rewrite He.
  set (rows := selected r start end_ names).
  set (l := map _ (map_to_list (foldl add_row ∅ rows))).
  split.
  - apply (StronglySorted_strict tp_Timestamp).
    + apply (StronglySorted_merge_sort before).
    + rewrite (merge_sort_Permutation before l). unfold l.
      rewrite map_map. simpl.
      rewrite <- (map_map fst time_Unix).
      apply NoDup_fmap_2; [intros a b; apply time_Unix_inj|].
      apply NoDup_fst_map_to_list.
  - intros p. rewrite (merge_sort_Permutation before l). apply elem_of_traffic.
Qed.

Lemma Zsum_Permutation (l k : list Z) : l ≡ₚ k -> Zsum l = Zsum k.
Proof. induction 1; simpl; lia. Qed.

Lemma Zsum_indicator (a : Z) (K : list Z) :
  NoDup K -> a ∈ K ->
  Zsum (map (fun k => if decide (a = k) then 1 else 0) K) = 1.
Proof.
  induction 1 as [|k K Hk Hnd IH]; intros Ha.
  - apply elem_of_nil in Ha. destruct Ha.
  - simpl. destruct (decide (a = k)) as [->|Hne].
    + assert (Zsum (map (fun k0 => if decide (k = k0) then 1 else 0) K) = 0)
        as ->; [|reflexivity].
      clear IH Hnd Ha. induction K as [|k' K IH]; [reflexivity|].
      simpl. destruct (decide (k = k')) as [->|_].
      * exfalso. apply Hk. left.
      * rewrite IH; [reflexivity|]. intros H. apply Hk. right. exact H.
    + apply elem_of_cons in Ha as [Ha|Ha]; [contradiction|].
      rewrite IH by exact Ha. reflexivity.
Qed.

Lemma Zsum_map_add {A} (g h : A -> Z) (K : list A) :
  Zsum (map (fun k => g k + h k) K) = Zsum (map g K) + Zsum (map h K).
Proof. induction K as [|k K IH]; simpl; [reflexivity|]. rewrite IH. lia. Qed.

(** Rows sorted into classes with distinct keys are each counted once. *)
Lemma partition_count {A} (f : A -> Z) (K : list Z) (l : list A) :
  NoDup K -> (forall x, x ∈ l -> f x ∈ K) ->
  Zsum (map (fun k => count (filter (fun x => f x = k) l)) K) = count l.
Proof.
  intros Hnd. induction l as [|x l IH]; intros Hin.
  - clear Hnd Hin. induction K as [|k K IHK]; [reflexivity|].
    simpl in *. rewrite IHK. reflexivity.
  - rewrite (map_ext _ (fun k => count (filter (fun y => f y = k) l)
                                 + (if decide (f x = k) then 1 else 0))).
    + rewrite Zsum_map_add, IH by (intros y Hy; apply Hin; right; exact Hy).
      rewrite Zsum_indicator by (try exact Hnd; apply Hin; left).
      unfold count. simpl length. lia.
    + intros k. rewrite filter_cons. unfold count.
      destruct (decide (f x = k)); simpl length; lia.
Qed.

Lemma count_filter_le {A} (P : A -> Prop) `{!forall x, Decision (P x)} (l : list A) :
  0 <= count (filter P l) <= count l.
Proof. unfold count. pose proof (length_filter P l). lia. Qed.

Lemma with_error_filter (P : Trace -> Prop) `{!forall x, Decision (P x)}
    (rows : list Trace) :
  with_error (filter P rows) = filter P (with_error rows).
Proof.
  unfold with_error. rewrite !list_filter_filter.
  apply list_filter_iff. intros t. tauto.
Qed.

(** X2: while fewer than 2^63 traces are selected, every selected trace is
    counted in exactly one point: the counts of the points add up to the
    number of selected traces, their error counts to the number of selected
    traces whose status contains ERROR, and each point has at least one
    trace and no more errors than traces. *)
Theorem traffic_counts_add_up (r : Repository) (start end_ : Z)
    (names : list string) :
  fails r QTraffic = false ->
  count (selected r start end_ names) < 2 ^ 63 ->
  exists pts, GetTrafficMetrics r start end_ names = inl pts
    /\ Zsum (map tp_Count (elems pts)) = count (selected r start end_ names)
    /\ Zsum (map tp_ErrorCount (elems pts))
       = count (with_error (selected r start end_ names))
    /\ Forall (fun p => 1 <= tp_Count p /\ 0 <= tp_ErrorCount p <= tp_Count p)
         (elems pts).
Proof.
  intros Hq Hsmall. destruct (traffic_elems r start end_ names Hq) as (pts & Hr & He).
  exists pts. split; [exact Hr|]. rewrite He.
  set (rows := selected r start end_ names) in *.
  set (B := foldl add_row ∅ rows).
  set (f := fun t : Trace => truncate_minute_unix (timestamp t)).
  assert (HB : forall ts b, (ts, b) ∈ map_to_list B ->
            filter (fun t => f t = ts) rows <> []
            /\ b_count b = count (filter (fun t => f t = ts) rows)
            /\ b_errorCount b = count (filter (fun t => f t = ts) (with_error rows))).
  { intros ts b Hin. apply elem_of_map_to_list in Hin. unfold B in Hin.
    rewrite buckets_spec in Hin. unfold bucket_of in Hin.
    change (filter (fun t => truncate_minute_unix (timestamp t) = ts) rows)
      with (filter (fun t => f t = ts) rows) in Hin.
    pose proof (count_filter_le (fun t => f t = ts) rows) as H1.
    pose proof (count_filter_le (fun t => Contains (status t) "ERROR")
                  (filter (fun t => f t = ts) rows)) as H2.
    fold (with_error (filter (fun t => f t = ts) rows)) in H2.
    rewrite <- with_error_filter.
    destruct (filter (fun t => f t = ts) rows) as [|x l] eqn:E; [discriminate|].
    injection Hin as <-. cbn [b_count b_errorCount].
    split; [discriminate|].
    rewrite !wrap64_small by lia. split; reflexivity. }
  assert (HK : forall x, x ∈ rows -> f x ∈ (map_to_list B).*1).
  { intros x Hx. destruct (bucket_of rows (f x)) as [b|] eqn:Hb.
    - apply list_elem_of_fmap. exists (f x, b). split; [reflexivity|].
      apply elem_of_map_to_list. unfold B. rewrite buckets_spec. exact Hb.
    - exfalso. unfold bucket_of in Hb.
      change (filter (fun t => truncate_minute_unix (timestamp t) = f x) rows)
        with (filter (fun t => f t = f x) rows) in Hb.
      assert (x ∈ filter (fun t => f t = f x) rows) as Hin
        by (apply list_elem_of_filter; split; [reflexivity|exact Hx]).
      destruct (filter _ rows); [apply elem_of_nil in Hin; destruct Hin|discriminate]. }
  pose proof (NoDup_fst_map_to_list B) as Hnd.
  split; [|split].
  - rewrite (Zsum_Permutation _ _
               (fmap_Permutation tp_Count _ _ (merge_sort_Permutation before _))).
    rewrite <- (partition_count f ((map_to_list B).*1) rows Hnd HK).
    f_equal. rewrite !map_map. apply map_ext_in. intros [ts b] Hin.
    apply list_elem_of_In in Hin. simpl. apply (HB ts b Hin).
  - rewrite (Zsum_Permutation _ _
               (fmap_Permutation tp_ErrorCount _ _ (merge_sort_Permutation before _))).
    rewrite <- (partition_count f ((map_to_list B).*1) (with_error rows) Hnd).
    + f_equal. rewrite !map_map. apply map_ext_in. intros [ts b] Hin.
      apply list_elem_of_In in Hin. simpl. apply (HB ts b Hin).
    + intros x Hx. apply HK. apply list_elem_of_filter in Hx. tauto.
  - rewrite (merge_sort_Permutation before _).
    apply Forall_forall. intros p Hp. apply list_elem_of_fmap in Hp as ([ts b] & -> & Hin).
    destruct (HB ts b Hin) as (Hne & Hc & Herr). simpl. rewrite Hc, Herr.
    pose proof (count_filter_le (fun t => Contains (status t) "ERROR")
                  (filter (fun t => f t = ts) rows)) as H2.
    fold (with_error (filter (fun t => f t = ts) rows)) in H2.
    rewrite with_error_filter in H2.
    split; [|exact H2].
    unfold count. destruct (filter (fun t => f t = ts) rows); [contradiction|].
    simpl length. lia.
Qed.

(** *** [GROUP BY service_name] *)

Lemma group_insert_keys (t : Trace) (G : list (string * list Trace)) :
  (group_insert t G).*1
  = if decide (service_name t ∈ G.*1) then G.*1 else G.*1 ++ [service_name t].
Proof.
  induction G as [|[n0 r0] G IH]; cbn [group_insert].
  - reflexivity.
  - destruct (String.eqb_spec n0 (service_name t)) as [->|Hne];
      rewrite !fmap_cons; cbn [fst].
    + rewrite decide_True by left. reflexivity.
    + rewrite IH. destruct (decide (service_name t ∈ G.*1)) as [Hin|Hnin].
      * rewrite decide_True by (right; exact Hin). reflexivity.
      * rewrite decide_False; [reflexivity|].
        intros H. apply elem_of_cons in H as [H|H]; [congruence|contradiction].
Qed.

Lemma group_insert_elem (t : Trace) (G : list (string * list Trace))
    (name : string) (g : list Trace) :
  NoDup G.*1 -> (name, g) ∈ group_insert t G ->
  (name <> service_name t /\ (name, g) ∈ G)
  \/ (name = service_name t
      /\ ((exists g0, (name, g0) ∈ G /\ g = g0 ++ [t])
          \/ (g = [t] /\ name ∉ G.*1))).
Proof.
  induction G as [|[n0 r0] G IH]; cbn [group_insert]; intros Hnd Hin.
  - apply list_elem_of_singleton in Hin. injection Hin as -> ->.
    right. split; [reflexivity|]. right. split; [reflexivity|]. apply not_elem_of_nil.
  - rewrite fmap_cons in Hnd. cbn [fst] in Hnd.
    apply NoDup_cons in Hnd as [Hn0 Hnd].
    destruct (String.eqb_spec n0 (service_name t)) as [->|Hne].
    + apply elem_of_cons in Hin as [Hin|Hin].
      * injection Hin as -> ->. right. split; [reflexivity|]. left.
        exists r0. split; [left|reflexivity].
      * left. split; [|right; exact Hin].
        intros ->. apply Hn0. apply list_elem_of_fmap. exists (service_name t, g).
        split; [reflexivity|exact Hin].
    + apply elem_of_cons in Hin as [Hin|Hin].
      * injection Hin as -> ->. left. split; [exact Hne|left].
      * destruct (IH Hnd Hin) as [[H1 H2]|[-> [(g0 & H1 & H2)|[H1 H2]]]].
        -- left. split; [exact H1|right; exact H2].
        -- right. split; [reflexivity|]. left. exists g0. split; [right; exact H1|exact H2].
        -- right. split; [reflexivity|]. right. split; [exact H1|].
           rewrite fmap_cons. cbn [fst].
           intros H. apply elem_of_cons in H as [H|H]; [congruence|contradiction].
Qed.

Lemma of_service_snoc (name : string) (rows : list Trace) (t : Trace) :
  of_service name (rows ++ [t])
  = of_service name rows ++ (if decide (service_name t = name) then [t] else []).
Proof.
  unfold of_service. rewrite filter_app, filter_cons, filter_nil. reflexivity.
Qed.

Lemma of_service_nil (name : string) (rows : list Trace) :
  of_service name rows = [] <-> forall t, t ∈ rows -> service_name t <> name.
Proof.
  unfold of_service. split.
  - intros E t Ht Hn.
    assert (t ∈ filter (fun t => service_name t = name) rows) as Hin
      by (apply list_elem_of_filter; auto).
    rewrite E in Hin. apply elem_of_nil in Hin. exact Hin.
  - intros H. induction rows as [|t rows IH]; [reflexivity|].
    rewrite filter_cons_False by (apply H; left).
    apply IH. intros t' Ht'. apply H. right. exact Ht'.
Qed.

(** The groups: one for each service name of the rows, holding the rows of
    that name in their order. *)
Lemma group_by_service_spec (rows : list Trace) :
  NoDup (group_by_service rows).*1
  /\ (forall name g, (name, g) ∈ group_by_service rows ->
        g = of_service name rows /\ g <> [])
  /\ (forall t, t ∈ rows -> service_name t ∈ (group_by_service rows).*1).
Proof.
  unfold group_by_service. induction rows as [|t rows IH] using rev_ind.
  - simpl. split; [constructor|]. split.
    + intros name g H. apply elem_of_nil in H. destruct H.
    + intros t H. apply elem_of_nil in H. destruct H.
  - destruct IH as (Hnd & Hsound & Hcover). rewrite foldl_snoc.
    set (G := foldl (fun groups t => group_insert t groups) [] rows) in *.
    split; [|split].
    + rewrite group_insert_keys. destruct (decide (service_name t ∈ G.*1)) as [H|H].
      * exact Hnd.
      * apply NoDup_app. split; [exact Hnd|]. split.
        -- intros x Hx Hx'. apply list_elem_of_singleton in Hx'. congruence.
        -- apply NoDup_singleton.
    + intros name g Hin. rewrite of_service_snoc.
      destruct (group_insert_elem t G name g Hnd Hin)
        as [[Hne Hg]|[-> [(g0 & Hg & ->)|[-> Hg]]]].
      * rewrite decide_False by congruence. rewrite app_nil_r. apply Hsound, Hg.
      * rewrite decide_True by reflexivity.
        destruct (Hsound _ _ Hg) as [-> _]. split; [reflexivity|].
        intros E. apply app_eq_nil in E as [_ E]. discriminate.
      * rewrite decide_True by reflexivity.
        assert (of_service (service_name t) rows = []) as ->; [|split; [reflexivity|discriminate]].
        apply of_service_nil. intros t' Ht' E. apply Hg. rewrite <- E. apply Hcover, Ht'.
    + intros t' Ht'. rewrite group_insert_keys.
      apply elem_of_app in Ht' as [Ht'|Ht'].
      * destruct (decide (service_name t ∈ G.*1)); [apply Hcover, Ht'|].
        apply elem_of_app. left. apply Hcover, Ht'.
      * apply list_elem_of_singleton in Ht' as ->.
        destruct (decide (service_name t ∈ G.*1)) as [H|H]; [exact H|].
        apply elem_of_app. right. left.
Qed.

Lemma elem_of_group_by_service (rows : list Trace) (name : string) (g : list Trace) :
  (name, g) ∈ group_by_service rows <-> g = of_service name rows /\ g <> [].
Proof.
  destruct (group_by_service_spec rows) as (Hnd & Hsound & Hcover).
  split; [apply Hsound|]. intros [-> Hne].
  destruct (of_service name rows) as [|t l] eqn:E; [contradiction|].
  assert (t ∈ of_service name rows) as Ht by (rewrite E; left).
  apply list_elem_of_filter in Ht as [Hn Ht].
  apply Hcover in Ht. rewrite Hn in Ht.
  apply list_elem_of_fmap in Ht as ([n g] & -> & Hin).
  simpl. destruct (Hsound _ _ Hin) as [-> _]. simpl in E. rewrite <- E. exact Hin.
Qed.

Lemma foldl_fun_ext {A B} (f g : A -> B -> A) (a : A) (l : list B) :
  (forall a x, f a x = g a x) -> foldl f a l = foldl g a l.
Proof.
  intros H. revert a. induction l as [|x l IH]; intros a; simpl; [reflexivity|].
  rewrite H. apply IH.
Qed.



Lemma carriesb_spec (rows : list Trace) (tid name : string) :
  carriesb rows tid name = true <-> carries rows tid name.
Proof.
  unfold carriesb, carries. rewrite andb_true_iff, negb_true_iff, existsb_exists.
  split.
  - intros [Hn (t & Ht & Hb)]. apply andb_true_iff in Hb as [H1 H2].
    apply String.eqb_eq in H1, H2. split.
    + intros ->. discriminate.
    + exists t. rewrite list_elem_of_In. auto.
  - intros [Hn (t & Ht & H1 & H2)]. split.
    + apply String.eqb_neq. exact Hn.
    + exists t. rewrite <- list_elem_of_In. split; [exact Ht|].
      apply andb_true_iff. split; apply String.eqb_eq; assumption.
Qed.

Lemma elem_of_shared_traces (rows : list Trace) (a b tid : string) :
  tid ∈ shared_traces rows a b <-> carries rows tid a /\ carries rows tid b.
Proof.
  unfold shared_traces. rewrite list_elem_of_filter, elem_of_remove_dups.
  rewrite <- !carriesb_spec. split.
  - intros [H _]. apply Is_true_eq_true, andb_true_iff in H. exact H.
  - intros [Ha Hb]. split.
    + apply Is_true_eq_left, andb_true_iff. auto.
    + apply carriesb_spec in Ha as (_ & t & Ht & <- & _).
      apply list_elem_of_fmap. eauto.
Qed.

Lemma calls_add_pair (sv : gmap string svc_agg)
    (agg : gmap (string * string) edge_agg) (key k : string * string) :
  calls (add_pair sv agg key) k
  = if decide (k = key) then add64 (calls agg k) 1 else calls agg k.
Proof.
  unfold add_pair, calls. cbv zeta.
  destruct (decide (k = key)) as [->|Hne].
  - rewrite lookup_insert_eq. reflexivity.
  - rewrite lookup_insert_ne by congruence. reflexivity.
Qed.

Lemma calls_foldl_add_pair (sv : gmap string svc_agg) (ps : list (string * string))
    (agg : gmap (string * string) edge_agg) (k : string * string) :
  NoDup ps ->
  calls (foldl (add_pair sv) agg ps) k
  = if decide (k ∈ ps) then add64 (calls agg k) 1 else calls agg k.
Proof.
  intros Hnd. revert agg. induction Hnd as [|p ps Hp Hnd IH]; intros agg; simpl.
  - reflexivity.
  - rewrite IH, calls_add_pair.
    destruct (decide (k = p)) as [->|Hne].
    + rewrite decide_False by exact Hp. rewrite decide_True by left. reflexivity.
    + destruct (decide (k ∈ ps)) as [Hin|Hnin].
      * rewrite decide_True by (right; exact Hin). reflexivity.
      * rewrite decide_False; [reflexivity|].
        intros H. apply elem_of_cons in H as [H|H]; contradiction.
Qed.

Lemma iter_add64 (n : nat) :
  Nat.iter n (fun z => add64 z 1) 0 = wrap64 (Z.of_nat n).
Proof.
  induction n as [|n IH]; [reflexivity|].
  rewrite Nat.iter_succ, IH, add64_wrap64. f_equal. lia.
Qed.

Lemma calls_foldl_add_trace_edges (T : list (string * gmap string svc_agg))
    (agg : gmap (string * string) edge_agg) (k : string * string) :
  calls (foldl (fun agg kv => add_trace_edges agg (snd kv)) agg T) k
  = Nat.iter
      (length (filter (fun kv => k ∈ pairs (sort_strings ((map_to_list (snd kv)).*1))) T))
      (fun z => add64 z 1) (calls agg k).
Proof.
  revert agg. induction T as [|kv T IH]; intros agg; [reflexivity|].
  cbn [foldl]. rewrite IH. unfold add_trace_edges.
  rewrite calls_foldl_add_pair.
  2:{ apply NoDup_pairs, NoDup_sort_strings, NoDup_fst_map_to_list. }
  rewrite filter_cons.
  destruct (decide (k ∈ pairs (sort_strings ((map_to_list (snd kv)).*1)))).
  - cbn [length]. rewrite Nat.iter_succ_r. reflexivity.
  - reflexivity.
Qed.

Section QueriesMore.

Variable like_error : string -> bool.
Variable avg_duration : list Z -> float.
Variable math_Ceil : float -> float.
Variable math_Round : float -> float.
Variable int_of_float : float -> Z.

Abbreviation GetDashboardStats :=
  (GetDashboardStats like_error avg_duration math_Ceil int_of_float).
Abbreviation GetServiceMapMetrics :=
  (GetServiceMapMetrics like_error avg_duration math_Round).
Abbreviation sum_errors := (sum_errors like_error).
Abbreviation p99 := (p99 math_Ceil int_of_float).
Abbreviation top_failing_rows := (top_failing_rows like_error).

Lemma sum_errors_bounds (rows : list Trace) : 0 <= sum_errors rows <= count rows.
Proof. apply (count_filter_le (fun t => like_error (status t))). Qed.

(** *** [GetDashboardStats] *)

(** What is returned when no fatal statement fails. *)
Lemma dashboard_returned (r : Repository) (start end_ : Z) (names : list string) :
  dashboard_fatal r = false ->
  exists stats, GetDashboardStats r start end_ names = inl stats
    /\ TotalTraces stats = count (selected r start end_ names)
    /\ TotalErrors stats = sum_errors (selected r start end_ names)
    /\ ActiveServices stats
       = count_distinct_services (selected r start end_ names)
    /\ P99Latency stats = p99 (map duration (selected r start end_ names))
    /\ ErrorRate stats
       = (if 0 <? TotalTraces stats
          then PrimFloat.mul (PrimFloat.div (float64 (TotalErrors stats))
                                            (float64 (TotalTraces stats)))
                             100%float
          else 0%float)
    /\ (fails r QAvgLatency = true -> AvgLatencyMs stats = 0%float)
    /\ (fails r QTopFailing = true -> TopFailingServices stats = nil_slice)
    /\ (fails r QTopFailing = false ->
        elems (TopFailingServices stats)
        = map service_error (top_failing_rows (selected r start end_ names))).
Proof.
  unfold dashboard_fatal. intros Hf.
  repeat (apply orb_false_elim in Hf as [Hf ?]).
  unfold Storage.GetDashboardStats.
  fold (selected r start end_ names).
  repeat match goal with H : fails r _ = false |- _ => rewrite H; clear H end.
  eexists. split; [reflexivity|]. cbn [TotalTraces TotalErrors ActiveServices
    P99Latency ErrorRate AvgLatencyMs TopFailingServices].
  repeat (split; [reflexivity|]).
  split; [intros ->; reflexivity|]. split; [intros ->; reflexivity|].
  intros ->.
  rewrite (foldl_fun_ext _ (fun acc sc => append acc (service_error sc))).
  - rewrite elems_foldl_append. reflexivity.
  - intros acc [[name total] errors]. reflexivity.
Qed.

(** X3: [GetDashboardStats] returns an error exactly when counting the
    traces, the logs, the error traces or the active services, or fetching
    the durations, fails.  A failure of the average-latency statement or of
    the top-failing-services statement is not returned: the statistics
    then come with an average latency of zero, or with no list of failing
    services. *)
Theorem dashboard_fails_iff (r : Repository) (start end_ : Z) (names : list string) :
  ((exists e, GetDashboardStats r start end_ names = inr e)
   <-> dashboard_fatal r = true)
  /\ (dashboard_fatal r = false ->
      exists stats, GetDashboardStats r start end_ names = inl stats
        /\ (fails r QAvgLatency = true -> AvgLatencyMs stats = 0%float)
        /\ (fails r QTopFailing = true -> TopFailingServices stats = nil_slice)).
Proof.
  split.
  - destruct (dashboard_fatal r) eqn:Hf.
    + split; [reflexivity|]. intros _. unfold dashboard_fatal in Hf.
      unfold Storage.GetDashboardStats.
      destruct (fails r QCountTraces); [eauto|].
      destruct (fails r QCountLogs); [eauto|].
      destruct (fails r QCountErrors); [eauto|].
      destruct (fails r QActiveServices); [eauto|].
      destruct (fails r QDurations); [eauto|]. discriminate.
    + destruct (dashboard_returned r start end_ names Hf) as (stats & -> & _).
      split; [intros [e He]; discriminate|discriminate].
  - intros Hf.
    destruct (dashboard_returned r start end_ names Hf)
      as (stats & Hr & _ & _ & _ & _ & _ & Havg & Htop & _).
    exists stats. auto.
Qed.


Lemma clamp_index_range (n i : Z) : 0 < n -> 0 <= clamp_index n i < n.
Proof.
  intros Hn. unfold clamp_index.
  destruct (Z.geb_spec i n); destruct (Z.ltb_spec (n - 1) 0);
    try destruct (Z.ltb_spec i 0); lia.
Qed.

(** The 99th percentile is the duration at the clamped index of the sorted
    durations. *)
Lemma p99_rank (durations : list Z) :
  durations <> [] ->
  let n := Z.of_nat (length durations) in
  let k := clamp_index n
             (int_of_float (math_Ceil (PrimFloat.mul (float64 n) const_0_99)) - 1) in
  exists lo hi, merge_sort Z.le durations = lo ++ p99 durations :: hi
    /\ Z.of_nat (length lo) = k
    /\ Forall (fun d => d <= p99 durations) lo
    /\ Forall (fun d => p99 durations <= d) hi.
Proof.
  intros Hne n k.
  assert (Hlen : length (merge_sort Z.le durations) = length durations)
    by (apply Permutation_length, merge_sort_Permutation).
  assert (Hn : 0 < n) by (unfold n; destruct durations; [contradiction|simpl; lia]).
  pose proof (clamp_index_range n
    (int_of_float (math_Ceil (PrimFloat.mul (float64 n) const_0_99)) - 1) Hn) as Hk.
  fold k in Hk.
  assert (Hp : p99 durations = nth (Z.to_nat k) (merge_sort Z.le durations) 0).
  { unfold Storage.p99. destruct durations as [|d ds]; [contradiction|].
    rewrite Hlen. reflexivity. }
  destruct (lookup_lt_is_Some_2 (merge_sort Z.le durations) (Z.to_nat k))
    as [x Hx]; [rewrite Hlen; unfold n in Hk; lia|].
  rewrite (nth_lookup_Some _ _ _ _ Hx) in Hp. rewrite Hp.
  pose proof (take_drop_middle _ _ _ Hx) as Hmid.
  pose proof (StronglySorted_merge_sort Z.le durations) as Hs.
  rewrite <- Hmid in Hs.
  exists (take (Z.to_nat k) (merge_sort Z.le durations)),
         (drop (S (Z.to_nat k)) (merge_sort Z.le durations)).
  split; [symmetry; exact Hmid|]. split.
  - rewrite length_take, Hlen. unfold n in Hk. lia.
  - split.
    + apply Forall_forall. intros d Hd.
      apply (StronglySorted_app_1_elem_of _ _ _ _ _ Hs Hd). left.
    + apply StronglySorted_app_1_r in Hs. apply StronglySorted_cons in Hs as [Hs _].
      exact Hs.
Qed.

(** X5: when traces are selected, the 99th percentile of the dashboard is
    one of their durations, whatever [math.Ceil] and the conversion to
    [int] give: the index is brought into range.  It is the duration of rank
    [k], the clamped index: [k] of the other durations are at most it and
    the rest are at least it. *)
Theorem dashboard_p99_is_ranked_duration (r : Repository) (start end_ : Z)
    (names : list string) :
  dashboard_fatal r = false ->
  selected r start end_ names <> [] ->
  let durations := map duration (selected r start end_ names) in
  let n := Z.of_nat (length durations) in
  let k := clamp_index n
             (int_of_float (math_Ceil (PrimFloat.mul (float64 n) const_0_99)) - 1) in
  exists stats, GetDashboardStats r start end_ names = inl stats
    /\ P99Latency stats ∈ durations
    /\ 0 <= k < n
    /\ exists lo hi, durations ≡ₚ lo ++ P99Latency stats :: hi
         /\ Z.of_nat (length lo) = k
         /\ Forall (fun d => d <= P99Latency stats) lo
         /\ Forall (fun d => P99Latency stats <= d) hi.
Proof.
  intros Hf Hne durations n k.
  destruct (dashboard_returned r start end_ names Hf)
    as (stats & Hr & _ & _ & _ & Hp & _).
  exists stats. split; [exact Hr|]. rewrite Hp. fold durations.
  assert (Hd : durations <> []).
  { unfold durations. destruct (selected r start end_ names);
      [contradiction|discriminate]. }
  destruct (p99_rank durations Hd) as (lo & hi & Hs & Hlen & Hlo & Hhi).
  assert (Hperm : durations ≡ₚ lo ++ p99 durations :: hi).
  { rewrite <- Hs. symmetry. apply merge_sort_Permutation. }
  split; [|split].
  - apply (elem_of_Permutation_proper _ _ _ Hperm).
    apply elem_of_app. right. left.
  - apply clamp_index_range. unfold n. destruct durations; [contradiction|simpl; lia].
  - exists lo, hi. auto.
Qed.

#[local] Instance desc_errors_trans : Transitive desc_errors.
Proof. intros a b c. unfold desc_errors. lia. Qed.

#[local] Instance desc_errors_total : Total desc_errors.
Proof. intros a b. unfold desc_errors. lia. Qed.

(** The rows of the top-failing-services statement. *)
Lemma top_failing_rows_spec (rows : list Trace) :
  let top := top_failing_rows rows in
  (length top <= 5)%nat
  /\ NoDup (map (fun sc => fst (fst sc)) top)
  /\ StronglySorted desc_errors top
  /\ (forall name total errors, (name, total, errors) ∈ top ->
        total = count (of_service name rows)
        /\ errors = sum_errors (of_service name rows) /\ 0 < errors)
  /\ (forall name, 0 < sum_errors (of_service name rows) ->
        name ∉ map (fun sc => fst (fst sc)) top ->
        length top = 5%nat
        /\ forall sc, sc ∈ top -> sum_errors (of_service name rows) <= snd sc).
Proof.
  unfold Storage.top_failing_rows. cbv zeta.
  set (G := group_by_service rows).
  set (counted := map (fun g => (fst g, count (snd g), sum_errors (snd g))) G).
  set (having := filter (fun sc => 0 <? snd sc) counted).
  set (H := merge_sort desc_errors having).
  destruct (group_by_service_spec rows) as (Hnd & _ & _). fold G in Hnd.
  assert (Hsorted : StronglySorted desc_errors (take 5 H ++ drop 5 H)).
  { rewrite take_drop. apply (StronglySorted_merge_sort desc_errors). }
  assert (Helem : forall name total errors, (name, total, errors) ∈ H <->
            total = count (of_service name rows)
            /\ errors = sum_errors (of_service name rows) /\ 0 < errors).
  { intros name total errors. unfold H.
    rewrite (merge_sort_Permutation desc_errors having). unfold having.
    rewrite list_elem_of_filter. unfold counted. rewrite list_elem_of_fmap.
    cbn [snd]. split.
    - intros [Hpos ([n g] & [= -> -> ->] & Hin)].
      apply elem_of_group_by_service in Hin as [-> _]. cbn [fst snd] in *.
      apply Is_true_eq_true, Z.ltb_lt in Hpos. auto.
    - intros (-> & -> & Hpos). split; [apply Is_true_eq_left, Z.ltb_lt, Hpos|].
      exists (name, of_service name rows). split; [reflexivity|].
      apply elem_of_group_by_service. split; [reflexivity|].
      intros E. rewrite E in Hpos. unfold Storage.sum_errors, count in Hpos.
      simpl in Hpos. lia. }
  split; [rewrite length_take; lia|]. split; [|split; [|split]].
  - assert (NoDup (map (fun sc : string * Z * Z => fst (fst sc)) counted)) as Hc.
    { unfold counted. rewrite map_map. exact Hnd. }
    assert (NoDup (map (fun sc : string * Z * Z => fst (fst sc)) H)) as HH.
    { unfold H. rewrite (merge_sort_Permutation desc_errors having).
      eapply sublist_NoDup; [exact Hc|apply fmap_sublist, sublist_filter]. }
    eapply sublist_NoDup; [exact HH|apply fmap_sublist, sublist_take].
  - apply StronglySorted_app_1_l in Hsorted. exact Hsorted.
  - intros name total errors Hin. apply Helem.
    exact (elem_of_sublist _ _ _ Hin (sublist_take _ _)).
  - intros name Hpos Hnot.
    assert ((name, count (of_service name rows), sum_errors (of_service name rows)) ∈ H)
      as Hin by (apply Helem; auto).
    rewrite <- (take_drop 5 H) in Hin. apply elem_of_app in Hin as [Hin|Hin].
    + exfalso. apply Hnot. apply list_elem_of_fmap. eexists. split; [|exact Hin].
      reflexivity.
    + split.
      * rewrite length_take. apply Nat.min_l.
        destruct (le_lt_dec 5 (length H)) as [Hle|Hlt]; [exact Hle|].
        rewrite drop_ge in Hin by lia. apply elem_of_nil in Hin. destruct Hin.
      * intros sc Hsc.
        pose proof (StronglySorted_app_1_elem_of _ _ _ _ _ Hsorted Hsc Hin) as Hd.
        unfold desc_errors in Hd. cbn [snd] in Hd. lia.
Qed.

(** X6: the failing services of the dashboard: at most five, of distinct
    names, by falling error count; each entry carries the number of the
    service's selected traces and the number of those whose status matches
    the error pattern, at least one; and a service with an error that is not
    listed has no more errors than any of the five listed. *)
Theorem dashboard_top_failing_services (r : Repository) (start end_ : Z)
    (names : list string) :
  dashboard_fatal r = false ->
  fails r QTopFailing = false ->
  let base := selected r start end_ names in
  exists stats, GetDashboardStats r start end_ names = inl stats
    /\ (length (elems (TopFailingServices stats)) <= 5)%nat
    /\ NoDup (map se_ServiceName (elems (TopFailingServices stats)))
    /\ StronglySorted (fun a b => se_ErrorCount a >= se_ErrorCount b)
         (elems (TopFailingServices stats))
    /\ (forall e, e ∈ elems (TopFailingServices stats) ->
          se_TotalCount e = count (of_service (se_ServiceName e) base)
          /\ se_ErrorCount e = sum_errors (of_service (se_ServiceName e) base)
          /\ 1 <= se_ErrorCount e <= se_TotalCount e)
    /\ (forall name, 0 < sum_errors (of_service name base) ->
          name ∉ map se_ServiceName (elems (TopFailingServices stats)) ->
          length (elems (TopFailingServices stats)) = 5%nat
          /\ forall e, e ∈ elems (TopFailingServices stats) ->
               sum_errors (of_service name base) <= se_ErrorCount e).
Proof.
  intros Hf Hq base.
  destruct (dashboard_returned r start end_ names Hf)
    as (stats & Hr & _ & _ & _ & _ & _ & _ & _ & Htop).
  exists stats. split; [exact Hr|]. rewrite (Htop Hq). fold base.
  destruct (top_failing_rows_spec base) as (Hlen & Hnd & Hs & Hel & Hrest).
  assert (Hnames : map se_ServiceName (map service_error (top_failing_rows base))
                   = map (fun sc => fst (fst sc)) (top_failing_rows base)).
  { rewrite map_map. apply map_ext. intros [[n t] e]. reflexivity. }
  rewrite Hnames, length_map.
  split; [exact Hlen|]. split; [exact Hnd|]. split; [|split].
  - apply (StronglySorted_fmap service_error desc_errors); [|exact Hs].
    intros [[n1 t1] e1] [[n2 t2] e2] H. exact H.
  - intros e He. apply list_elem_of_fmap in He as ([[n t] er] & -> & Hin).
    apply Hel in Hin as (-> & -> & Hpos). cbn.
    split; [reflexivity|]. split; [reflexivity|].
    pose proof (sum_errors_bounds (of_service n base)). lia.
  - intros name Hpos Hnot. destruct (Hrest name Hpos Hnot) as [H5 Hle].
    split; [exact H5|]. intros e He.
    apply list_elem_of_fmap in He as ([[n t] er] & -> & Hin).
    apply (Hle _ Hin).
Qed.

(** *** [GetServiceMapMetrics] *)

Abbreviation make_node := (make_node like_error avg_duration math_Round).
Abbreviation make_edge := (make_edge math_Round).

Lemma elems_foldl_nodes (G : list (string * list Trace)) (s : slice ServiceMapNode) :
  elems (foldl (fun nodes nr => if String.eqb (fst nr) "" then nodes
                                else append nodes (make_node nr)) s G)
  = elems s ++ map make_node (filter (fun nr => fst nr <> "") G).
Proof.
  revert s. induction G as [|nr G IH]; intros s; cbn [foldl].
  - rewrite app_nil_r. reflexivity.
  - rewrite IH, filter_cons.
    destruct (String.eqb_spec (fst nr) "") as [E|N].
    + rewrite decide_False by (intros H; apply H, E). reflexivity.
    + rewrite decide_True by exact N. unfold append. cbn [elems map].
      rewrite <- app_assoc. reflexivity.
Qed.

(** What is returned when none of the three statements fails. *)
Lemma service_map_returned (r : Repository) (start end_ : Z) :
  service_map_fatal r = false ->
  exists m, GetServiceMapMetrics r start end_ = inl m
    /\ elems (Nodes m)
       = map make_node (filter (fun nr => fst nr <> "")
                          (group_by_service (in_window r start end_)))
    /\ elems (Edges m)
       = map make_edge
           (map_to_list
              (foldl (fun agg kv => add_trace_edges agg (snd kv)) ∅
                 (map_to_list (foldl add_trace_info ∅ (in_window r start end_))))).
Proof.
  unfold service_map_fatal. intros Hf.
  repeat (apply orb_false_elim in Hf as [Hf ?]).
  unfold Storage.GetServiceMapMetrics. fold (in_window r start end_).
  repeat match goal with H : fails r _ = false |- _ => rewrite H; clear H end.
  eexists. split; [reflexivity|]. cbn [Nodes Edges]. split.
  - rewrite elems_foldl_nodes. reflexivity.
  - rewrite elems_foldl_append. reflexivity.
Qed.

Lemma node_names (rows : list Trace) (name : string) :
  name ∈ map node_Name
           (map make_node (filter (fun nr => fst nr <> "") (group_by_service rows)))
  <-> name <> "" /\ exists t, t ∈ rows /\ service_name t = name.
Proof.
  rewrite map_map. rewrite list_elem_of_fmap. split.
  - intros ([n g] & -> & Hin). apply list_elem_of_filter in Hin as [Hne Hin].
    cbn in *. split; [exact Hne|].
    apply elem_of_group_by_service in Hin as [-> Hg].
    destruct (of_service n rows) as [|t l] eqn:E; [contradiction|].
    assert (t ∈ of_service n rows) as Ht by (rewrite E; left).
    apply list_elem_of_filter in Ht. exists t. tauto.
  - intros (Hne & t & Ht & <-).
    exists (service_name t, of_service (service_name t) rows).
    split; [reflexivity|]. apply list_elem_of_filter. split; [exact Hne|].
    apply elem_of_group_by_service. split; [reflexivity|].
    intros E. assert (t ∈ of_service (service_name t) rows) as Hin
      by (apply list_elem_of_filter; auto).
    rewrite E in Hin. apply elem_of_nil in Hin. exact Hin.
Qed.

(** X7: the nodes of the service map: one for each service name, other
    than the empty one, that a trace of the window has, and no two of one
    name; a node carries the number of the window's traces of its service,
    at least one, and the number of those whose status matches the error
    pattern. *)
Theorem service_map_nodes (r : Repository) (start end_ : Z) :
  service_map_fatal r = false ->
  exists m, GetServiceMapMetrics r start end_ = inl m
    /\ NoDup (map node_Name (elems (Nodes m)))
    /\ (forall name, name ∈ map node_Name (elems (Nodes m)) <->
          name <> "" /\ exists t, t ∈ in_window r start end_ /\ service_name t = name)
    /\ (forall nd, nd ∈ elems (Nodes m) ->
          node_TotalTraces nd = count (of_service (node_Name nd) (in_window r start end_))
          /\ node_ErrorCount nd
             = sum_errors (of_service (node_Name nd) (in_window r start end_))
          /\ 1 <= node_TotalTraces nd
          /\ 0 <= node_ErrorCount nd <= node_TotalTraces nd).
Proof.
  intros Hf. destruct (service_map_returned r start end_ Hf) as (m & Hr & Hn & _).
  exists m. split; [exact Hr|]. rewrite Hn.
  set (W := in_window r start end_).
  split; [|split].
  - rewrite map_map. cbn [node_Name Storage.make_node].
    destruct (group_by_service_spec W) as (Hnd & _).
    eapply sublist_NoDup; [exact Hnd|]. apply fmap_sublist, sublist_filter.
  - apply node_names.
  - intros nd Hnd. apply list_elem_of_fmap in Hnd as ([n g] & -> & Hin).
    apply list_elem_of_filter in Hin as [_ Hin].
    apply elem_of_group_by_service in Hin as [-> Hg]. cbn.
    split; [reflexivity|]. split; [reflexivity|].
    split; [|apply sum_errors_bounds].
    unfold count. destruct (of_service n W); [contradiction|simpl length; lia].
Qed.


Lemma shared_length (rows : list Trace) (a b : string) :
  String.ltb a b = true ->
  length (filter (fun kv : string * gmap string svc_agg =>
                    (a, b) ∈ pairs (sort_strings ((map_to_list (snd kv)).*1)))
            (map_to_list (foldl add_trace_info ∅ rows)))
  = length (shared_traces rows a b).
Proof.
  intros Hlt.
  set (M := foldl add_trace_info ∅ rows).
  set (P := fun kv : string * gmap string svc_agg =>
              (a, b) ∈ pairs (sort_strings ((map_to_list (snd kv)).*1))).
  rewrite <- (length_map fst (filter P (map_to_list M))).
  apply Permutation_length, NoDup_Permutation.
  - eapply sublist_NoDup; [apply (NoDup_fst_map_to_list M)|].
    apply fmap_sublist, sublist_filter.
  - apply NoDup_filter, NoDup_remove_dups.
  - intros tid. rewrite elem_of_shared_traces, <- !has_foldl_empty. fold M.
    rewrite list_elem_of_fmap. split.
    + intros ([t sv] & -> & Hin). apply list_elem_of_filter in Hin as [HP Hin].
      apply elem_of_map_to_list in Hin. unfold P in HP. cbn [snd] in HP.
      apply (elem_of_trace_pairs like_error) in HP as (Ha & Hb & _). cbn [fst].
      split; exists sv; auto.
    + intros [(sv & Hsv & Ha) (sv' & Hsv' & Hb)].
      rewrite Hsv in Hsv'. injection Hsv' as <-.
      exists (tid, sv). split; [reflexivity|]. apply list_elem_of_filter. split.
      * unfold P. cbn [snd]. apply (elem_of_trace_pairs like_error). auto.
      * apply elem_of_map_to_list. exact Hsv.
Qed.

(** X9: the call count of an edge is the number of the window's traces
    that have a row of its source and a row of its target (in [int64]), and
    there is such a trace. *)
Theorem service_map_call_count (r : Repository) (start end_ : Z) :
  service_map_fatal r = false ->
  exists m, GetServiceMapMetrics r start end_ = inl m
    /\ forall e, e ∈ elems (Edges m) ->
         CallCount e
         = wrap64 (count (shared_traces (in_window r start end_) (Source e) (Target e)))
         /\ shared_traces (in_window r start end_) (Source e) (Target e) <> [].
Proof.
  intros Hf. destruct (service_map_returned r start end_ Hf) as (m & Hr & _ & He).
  exists m. split; [exact Hr|]. intros e Hin.
  destruct (edges_of_returned_map like_error avg_duration math_Round r start end_ m Hr)
    as (_ & Hiff & _).
  assert ((Source e, Target e) ∈ edge_keys m) as Hk.
  { unfold edge_keys. apply list_elem_of_fmap. exists e. auto. }
  apply Hiff in Hk as (Hlt & tid & Ha & Hb).
  fold (in_window r start end_) in Ha, Hb.
  set (W := in_window r start end_) in *.
  split.
  - rewrite He in Hin. apply list_elem_of_fmap in Hin as ([[a b] g] & -> & Hin).
    apply elem_of_map_to_list in Hin. cbn in Hlt |- *.
    unfold count. rewrite <- (shared_length W a b Hlt), <- iter_add64.
    pose proof (calls_foldl_add_trace_edges
                  (map_to_list (foldl add_trace_info ∅ W)) ∅ (a, b)) as Hc.
    unfold calls at 1 in Hc. rewrite Hin in Hc. cbn [default] in Hc.
    etransitivity; [exact Hc|]. unfold calls. rewrite lookup_empty. reflexivity.
  - intros E. assert (tid ∈ shared_traces W (Source e) (Target e)) as Ht
      by (apply elem_of_shared_traces; auto).
    rewrite E in Ht. apply elem_of_nil in Ht. exact Ht.
Qed.

(** X10: [GetServiceMapMetrics] returns an error exactly when one of its
    three statements fails, the one over the spans included, although no
    row of it is used. *)
Theorem service_map_fails_iff (r : Repository) (start end_ : Z) :
  (exists e, GetServiceMapMetrics r start end_ = inr e)
  <-> service_map_fatal r = true.
Proof.
  destruct (service_map_fatal r) eqn:Hf.
  - split; [reflexivity|]. intros _. unfold service_map_fatal in Hf.
    unfold Storage.GetServiceMapMetrics.
    destruct (fails r QNodes); [eauto|].
    destruct (fails r QSpans); [eauto|].
    destruct (fails r QTraceInfos); [eauto|]. discriminate.
  - destruct (service_map_returned r start end_ Hf) as (m & -> & _).
    split; [intros [e He]; discriminate|discriminate].
Qed.

End QueriesMore.

(** *** [GetLatencyHeatmap] and [GetLogContext] *)

#[local] Instance newer_trans : Transitive newer.
Proof. intros a b c. unfold newer. lia. Qed.

#[local] Instance newer_total : Total newer.
Proof. intros a b. unfold newer. lia. Qed.

#[local] Instance older_trans : Transitive older.
Proof. intros a b c. unfold older. lia. Qed.

#[local] Instance older_total : Total older.
Proof. intros a b. unfold older. lia. Qed.

(** X11: the heatmap holds the 2000 most recent of the selected traces, or
    all of them when they are fewer: its points come by falling time, they
    are made from selected traces, each trace at most once, and a selected
    trace that is left out is no more recent than any that is shown. *)
Theorem latency_heatmap_most_recent (r : Repository) (start end_ : Z)
    (names : list string) :
  exists pts shown rest,
    GetLatencyHeatmap false r start end_ names = inl pts
    /\ elems pts = map latency_point shown
    /\ selected r start end_ names ≡ₚ shown ++ rest
    /\ (length shown <= 2000)%nat
    /\ (rest <> [] -> length shown = 2000%nat)
    /\ StronglySorted (fun p q => lp_Timestamp q <= lp_Timestamp p) (elems pts)
    /\ (forall a b, a ∈ shown -> b ∈ rest -> timestamp b <= timestamp a).
Proof.
  set (H := merge_sort newer (selected r start end_ names)).
  exists (mk_slice (map latency_point (take 2000 H))), (take 2000 H), (drop 2000 H).
  assert (Hs : StronglySorted newer (take 2000 H ++ drop 2000 H)).
  { rewrite take_drop. apply (StronglySorted_merge_sort newer). }
  split; [reflexivity|]. split; [reflexivity|]. split.
  { rewrite take_drop. symmetry. apply merge_sort_Permutation. }
  split; [rewrite length_take; lia|]. split.
  { intros Hne. rewrite length_take. apply Nat.min_l.
    destruct (le_lt_dec 2000 (length H)) as [Hle|Hlt]; [exact Hle|].
    rewrite drop_ge in Hne by lia. contradiction. }
  split.
  - cbn [elems]. apply (StronglySorted_fmap latency_point newer).
    + intros a b Hab. exact Hab.
    + apply StronglySorted_app_1_l in Hs. exact Hs.
  - intros a b Ha Hb. exact (StronglySorted_app_1_elem_of _ _ _ _ _ Hs Ha Hb).
Qed.

(** X12: the context of a log line holds exactly the logs whose time is
    within one minute of the target, both ends included, by rising time. *)
Theorem log_context_within_a_minute (r : Repository) (targetTime : Z) :
  exists ls, GetLogContext false r targetTime = inl ls
    /\ elems ls
       ≡ₚ filter (fun l => Z.abs (log_timestamp l - targetTime) <= minute) (logs r)
    /\ StronglySorted older (elems ls).
Proof.
  eexists. split; [reflexivity|]. cbn [elems]. split.
  - rewrite (merge_sort_Permutation older).
    erewrite list_filter_iff; [reflexivity|].
    intros l. cbn beta. unfold between.
    rewrite Is_true_true, andb_true_iff, !Z.leb_le. lia.
  - apply (StronglySorted_merge_sort older).
Qed.

(** *** The theorems at work *)

Lemma traffic_points_by_minute_witness :
  fails repository2 QTraffic = false
  /\ exists pts, GetTrafficMetrics repository2 0 (200 * second) [] = inl pts
       /\ StronglySorted (fun p q => tp_Timestamp p < tp_Timestamp q) (elems pts)
       /\ forall p, p ∈ elems pts <->
            exists t, t ∈ selected repository2 0 (200 * second) []
              /\ p = point_of (selected repository2 0 (200 * second) [])
                       (minute_of (timestamp t)).
Proof.
  split; [reflexivity|].
  apply (traffic_points_by_minute repository2 0 (200 * second) []). reflexivity.
Defined.

Lemma traffic_counts_add_up_witness :
  exists pts, GetTrafficMetrics repository2 0 (200 * second) ["a"] = inl pts
    /\ Zsum (map tp_Count (elems pts))
       = count (selected repository2 0 (200 * second) ["a"])
    /\ Zsum (map tp_ErrorCount (elems pts))
       = count (with_error (selected repository2 0 (200 * second) ["a"]))
    /\ Forall (fun p => 1 <= tp_Count p /\ 0 <= tp_ErrorCount p <= tp_Count p)
         (elems pts).
Proof.
  apply (traffic_counts_add_up repository2 0 (200 * second) ["a"]).
  - reflexivity.
  - vm_compute. reflexivity.
Defined.


Lemma dashboard_p99_is_ranked_duration_witness :
  exists stats,
    Storage.GetDashboardStats like_upper avg_zero float_id int_zero
      repository2 0 (200 * second) [] = inl stats
    /\ P99Latency stats ∈ [5; 9; 7; 3; 4].
Proof.
  destruct (dashboard_p99_is_ranked_duration like_upper avg_zero float_id int_zero
              repository2 0 (200 * second) [])
    as (stats & Hr & Hin & _).
  - reflexivity.
  - vm_compute. discriminate.
  - exists stats. split; [exact Hr|exact Hin].
Defined.

Lemma dashboard_top_failing_services_witness :
  exists stats,
    Storage.GetDashboardStats like_upper avg_zero float_id int_zero
      repository2 0 (200 * second) [] = inl stats
    /\ (length (elems (TopFailingServices stats)) <= 5)%nat
    /\ NoDup (map se_ServiceName (elems (TopFailingServices stats))).
Proof.
  destruct (dashboard_top_failing_services like_upper avg_zero float_id int_zero
              repository2 0 (200 * second) [])
    as (stats & Hr & Hlen & Hnd & _).
  - reflexivity.
  - reflexivity.
  - exists stats. auto.
Defined.

Lemma service_map_nodes_witness :
  exists m,
    Storage.GetServiceMapMetrics like_upper avg_zero float_id
      repository2 zeroTime zeroTime = inl m
    /\ NoDup (map node_Name (elems (Nodes m))).
Proof.
  destruct (service_map_nodes like_upper avg_zero float_id
              repository2 zeroTime zeroTime)
    as (m & Hr & Hnd & _).
  - reflexivity.
  - exists m. auto.
Defined.


Lemma service_map_call_count_witness :
  exists m,
    Storage.GetServiceMapMetrics like_upper avg_zero float_id
      repository1 zeroTime zeroTime = inl m
    /\ forall e, e ∈ elems (Edges m) ->
         CallCount e
         = wrap64 (count (shared_traces (in_window repository1 zeroTime zeroTime)
                            (Source e) (Target e)))
         /\ shared_traces (in_window repository1 zeroTime zeroTime)
              (Source e) (Target e) <> [].
Proof.
  apply (service_map_call_count like_upper avg_zero float_id
           repository1 zeroTime zeroTime).
  reflexivity.
Defined.

End StorageMore.

(** ** The dead-letter queue *)

Module QueueMore.
Import Queue QueueSpec QueueTerms QueueProps.

Lemma locking_app (h : bool) (tr1 tr2 : list effect) :
  locking h (tr1 ++ tr2)
  = match locking h tr1 with Some h' => locking h' tr2 | None => None end.
Proof.
  revert h. induction tr1 as [|e tr1 IH]; intros h; [reflexivity|].
  destruct e, h; simpl; auto.
Qed.

Lemma replays_app (tr1 tr2 : list effect) :
  replays (tr1 ++ tr2) = replays tr1 ++ replays tr2.
Proof. apply filter_app. Qed.

Lemma batch_count_delete (m : gmap string node) (name : string) (nd : node) :
  m !! name = Some nd ->
  batch_count m
  = ((if is_batch name nd then 1 else 0) + batch_count (delete name m))%nat.
Proof.
  intros H. unfold batch_count.
  rewrite <- (Permutation_length
                (filter_Permutation _ _ _ (map_to_list_delete m name nd H))).
  rewrite filter_cons. cbn [fst snd].
  destruct (is_batch name nd); reflexivity.
Qed.

Lemma batch_count_insert (m : gmap string node) (name : string) (nd : node) :
  m !! name = None ->
  batch_count (<[name := nd]> m)
  = ((if is_batch name nd then 1 else 0) + batch_count m)%nat.
Proof.
  intros H. unfold batch_count.
  rewrite (Permutation_length
             (filter_Permutation _ _ _ (map_to_list_insert m name nd H))).
  rewrite filter_cons. cbn [fst snd].
  destruct (is_batch name nd); reflexivity.
Qed.

Lemma is_batch_true (name : string) (nd : node) :
  is_batch name nd = true <->
  n_isdir nd = false /\ Ext name = ".json".
Proof.
  unfold is_batch. rewrite andb_true_iff, negb_true_iff, String.eqb_eq. tauto.
Qed.

Lemma batch_count_insert_same (m : gmap string node) (name : string)
    (nd1 nd2 : node) :
  is_batch name nd1 = is_batch name nd2 ->
  batch_count (<[name := nd1]> m) = batch_count (<[name := nd2]> m).
Proof.
  intros H.
  rewrite <- (insert_delete_eq m name nd1), <- (insert_delete_eq m name nd2).
  rewrite !batch_count_insert by apply lookup_delete_eq.
  rewrite H. reflexivity.
Qed.

Lemma StronglySorted_sublist {A} (R : relation A) (l k : list A) :
  sublist l k -> StronglySorted R k -> StronglySorted R l.
Proof.
  induction 1 as [|x l k Hs IH|x l k Hs IH]; intros Hk.
  - constructor.
  - apply StronglySorted_cons in Hk as [Hx Hk]. constructor; [auto|].
    apply Forall_forall. intros y Hy.
    apply (proj1 (Forall_forall _ _) Hx). exact (elem_of_sublist _ _ _ Hy Hs).
  - apply StronglySorted_cons in Hk as [_ Hk]. auto.
Qed.

Lemma StronglySorted_string_lt (l : list string) :
  StronglySorted string_le l -> NoDup l ->
  StronglySorted (fun a b => String.ltb a b = true) l.
Proof.
  induction 1 as [|a l Hl IH Ha]; intros Hnd; constructor.
  - apply IH. inversion Hnd; assumption.
  - inversion Hnd as [|? ? Hnot _]; subst.
    apply Forall_forall. intros b Hb.
    apply string_lt_of_le_ne; [exact (proj1 (Forall_forall _ _) Ha b Hb)|].
    intros ->. contradiction.
Qed.

Lemma list_ascii_of_string_app (a b : string) :
  list_ascii_of_string (a +:+ b) = list_ascii_of_string a ++ list_ascii_of_string b.
Proof. induction a as [|c a IH]; simpl; [reflexivity|]. f_equal. exact IH. Qed.

(** A name that ends in [.json] has the extension [.json]. *)
Lemma Ext_json (p : string) : Ext (p +:+ ".json") = ".json".
Proof.
  unfold Ext. rewrite list_ascii_of_string_app, rev_app_distr. reflexivity.
Qed.

Lemma Ext_batch_filename (now : Z) : Ext (batch_filename now) = ".json".
Proof. exact (Ext_json ("batch_" +:+ pretty now)). Qed.

Lemma batch_filename_inj (n1 n2 : Z) :
  batch_filename n1 = batch_filename n2 -> n1 = n2.
Proof.
  unfold batch_filename. intros H.
  apply (f_equal list_ascii_of_string) in H.
  rewrite !list_ascii_of_string_app in H.
  apply app_inv_head in H. apply app_inv_tail in H.
  apply (f_equal string_of_list_ascii) in H.
  rewrite !string_of_list_ascii_of_string in H.
  exact (pretty_Z_inj _ _ H).
Qed.

(** The batch files of a directory. *)
Lemma elem_of_batch_files (f : fs) (name : string) (data : list byte) :
  (name, data) ∈ batch_files f <->
  exists nd, files f !! name = Some nd /\ n_isdir nd = false
             /\ Ext name = ".json" /\ read_ok f name = true /\ data = n_data nd.
Proof.
  unfold batch_files. rewrite list_elem_of_omap. unfold batch_at. split.
  - intros (x & _ & Hx). destruct (files f !! x) as [nd|] eqn:E; [|discriminate].
    cbn in Hx. destruct (is_batch x nd) eqn:Hb; [|discriminate].
    destruct (read_ok f x) eqn:Hr; [|discriminate].
    cbn in Hx. injection Hx as <- <-. apply is_batch_true in Hb as [Hd He].
    exists nd. auto.
  - intros (nd & Hf & Hd & He & Hr & ->). exists name. split.
    + apply elem_of_sort_strings, elem_of_elements, elem_of_dom. eauto.
    + rewrite Hf. cbn. rewrite (proj2 (is_batch_true name nd)) by auto.
      rewrite Hr. reflexivity.
Qed.

Lemma batch_files_names_sublist (f : fs) :
  sublist (batch_files f).*1 (sort_strings (elements (dom (files f)))).
Proof.
  apply omap_fst_sublist. intros x y. unfold batch_at.
  destruct (files f !! x) as [nd|]; [|discriminate]. cbn.
  destruct (is_batch x nd && read_ok f x); [|discriminate].
  intros [= <-]. reflexivity.
Qed.

Lemma batch_files_sorted (f : fs) :
  StronglySorted (fun a b => String.ltb a b = true) (batch_files f).*1.
Proof.
  apply StronglySorted_string_lt.
  - eapply StronglySorted_sublist; [apply batch_files_names_sublist|].
    apply sort_strings_sorted.
  - eapply sublist_NoDup; [|apply batch_files_names_sublist].
    apply NoDup_sort_strings, NoDup_elements.
Qed.

(** [Size] counts the batch files. *)
Lemma entries_Permutation (f : fs) (es : list (string * bool)) :
  ReadDir f = Some es ->
  es ≡ₚ map (fun kv => (fst kv, n_isdir (snd kv))) (map_to_list (files f)).
Proof.
  unfold ReadDir. destruct (readdir_ok f); [|discriminate]. intros [= <-].
  set (g := fun name => nd ← files f !! name; Some (name, n_isdir nd)).
  assert (Hp : sort_strings (elements (dom (files f))) ≡ₚ (map_to_list (files f)).*1).
  { rewrite sort_strings_perm. apply NoDup_Permutation.
    - apply NoDup_elements.
    - apply NoDup_fst_map_to_list.
    - intros x. rewrite elem_of_elements, elem_of_dom, list_elem_of_fmap. split.
      + intros [nd Hnd]. exists (x, nd). split; [reflexivity|].
        apply elem_of_map_to_list. exact Hnd.
      + intros ([k nd] & -> & Hin). apply elem_of_map_to_list in Hin. eauto. }
  rewrite (omap_Permutation g _ _ Hp).
  assert (Hall : forall kv, kv ∈ map_to_list (files f) -> files f !! fst kv = Some (snd kv)).
  { intros [k nd] Hin. apply elem_of_map_to_list. exact Hin. }
  clear Hp. induction (map_to_list (files f)) as [|kv L IH]; [reflexivity|].
  rewrite fmap_cons. cbn [omap list_omap]. unfold g at 1.
  rewrite (Hall kv) by left. cbn. f_equiv. apply IH.
  intros kv' Hin. apply Hall. right. exact Hin.
Qed.

Lemma length_filter_entries (f : fs) (es : list (string * bool)) :
  ReadDir f = Some es ->
  length (filter (fun e : string * bool =>
                    negb (snd e) && String.eqb (Ext (fst e)) ".json") es)
  = batch_count (files f).
Proof.
  intros H. rewrite (Permutation_length
                       (filter_Permutation _ _ _ (entries_Permutation f es H))).
  unfold batch_count. induction (map_to_list (files f)) as [|kv L IH]; [reflexivity|].
  cbn [map]. unfold is_batch in *. rewrite !filter_cons. cbn [fst snd].
  case_decide; cbn [length]; rewrite IH; reflexivity.
Qed.

Section DLQMore.

Variable Batch : Type.
Variable Marshal : Batch -> list byte + error.
Variable S : Type.
Variable replayFn : list byte -> S -> bool * S.

Abbreviation Enqueue := (Enqueue Marshal).

Abbreviation process_entry := (process_entry replayFn).
Abbreviation processFiles := (processFiles replayFn).
Abbreviation replay_calls := (replay_calls replayFn).
Abbreviation cycle_facts := (cycle_facts replayFn).

Lemma replay_calls_app (a b : list (string * list byte)) (s : S) :
  replay_calls (a ++ b) s
  = (fst (replay_calls a s) ++ fst (replay_calls b (snd (replay_calls a s))),
     snd (replay_calls b (snd (replay_calls a s)))).
Proof.
  revert s. induction a as [|[name data] a IH]; intros s; simpl.
  - destruct (replay_calls b s). reflexivity.
  - destruct (replayFn data s) as [ok s']. rewrite IH.
    destruct (replay_calls a s') as [c s'']. reflexivity.
Qed.

Lemma readable_cons (f : fs) (e : string * bool) (es : list (string * bool)) :
  readable f (e :: es)
  = match batch_at f (fst e) with
    | Some b => b :: readable f es
    | None => readable f es
    end.
Proof. reflexivity. Qed.

Lemma readable_ext (f f' : fs) (es : list (string * bool)) :
  read_ok f' = read_ok f ->
  (forall name, name ∈ es.*1 -> files f' !! name = files f !! name) ->
  readable f' es = readable f es.
Proof.
  intros Hr. induction es as [|e es IH]; intros H; [reflexivity|].
  rewrite !readable_cons. unfold batch_at.
  rewrite (H (fst e)) by (rewrite fmap_cons; left). rewrite Hr.
  rewrite IH; [reflexivity|].
  intros name Hn. apply H. rewrite fmap_cons. right. exact Hn.
Qed.

Lemma set_files_same (f : fs) : f = set_files f (files f).
Proof. destruct f. reflexivity. Qed.

(** A stretch that leaves the directory as it is. *)
Lemma cycle_facts_unchanged (d : DeadLetterQueue) (name : string) (isdir : bool)
    (w w' : world S) (n : nat) (tr : list effect) :
  w_fs w' = w_fs w ->
  w_trace w' = w_trace w ++ tr ->
  replays tr = fst (replay_calls (readable (w_fs w) [(name, isdir)]) (w_cb w)) ->
  w_cb w' = snd (replay_calls (readable (w_fs w) [(name, isdir)]) (w_cb w)) ->
  locking false tr = Some false ->
  Forall (about_batch d (w_fs w)) tr ->
  cycle_facts d [(name, isdir)] w n w' n tr.
Proof.
  intros Hfs Htr Hrep Hcb Hlock Hab. unfold QueueTerms.cycle_facts. rewrite Hfs.
  split; [exact Htr|]. split; [apply set_files_same|].
  split; [reflexivity|]. split; [auto|]. split; [auto|].
  split; [exact Hrep|]. split; [exact Hcb|]. split; [exact Hlock|].
  split; [reflexivity|exact Hab].
Qed.

(** One entry of the directory, as [ReadDir] listed it. *)
Lemma process_entry_facts (d : DeadLetterQueue) (name : string) (isdir : bool)
    (nd : node) (w : world S) (n : nat) :
  files (w_fs w) !! name = Some nd -> isdir = n_isdir nd ->
  exists tr,
    cycle_facts d [(name, isdir)] w n
      (fst (process_entry d (name, isdir) (w, n)))
      (snd (process_entry d (name, isdir) (w, n))) tr.
Proof.
  intros Hfile ->. unfold Queue.process_entry. cbn [fst snd].
  assert (Hb : n_isdir nd || negb (String.eqb (Ext name) ".json")
               = negb (is_batch name nd)).
  { unfold is_batch. destruct (n_isdir nd), (String.eqb (Ext name) ".json");
      reflexivity. }
  rewrite Hb.
  assert (Hread : readable (w_fs w) [(name, n_isdir nd)]
                  = if is_batch name nd && read_ok (w_fs w) name
                    then [(name, n_data nd)] else []).
  { rewrite readable_cons. unfold batch_at. cbn [fst]. rewrite Hfile. cbn.
    destruct (is_batch name nd && read_ok (w_fs w) name); reflexivity. }
  destruct (is_batch name nd) eqn:Hbatch; cbn [negb].
  2:{ exists []. apply cycle_facts_unchanged; rewrite ?Hread;
        try reflexivity; [symmetry; apply app_nil_r|constructor]. }
  pose proof (proj1 (is_batch_true name nd) Hbatch) as [Hdir Hext].
  assert (Hfr : exists name0 nd0,
            Join (dir d) name = Join (dir d) name0
            /\ files (w_fs w) !! name0 = Some nd0 /\ is_batch name0 nd0 = true)
    by (exists name, nd; auto).
  assert (Hcr : exists nd0,
            files (w_fs w) !! name = Some nd0 /\ is_batch name nd0 = true)
    by (exists nd; auto).
  unfold ReadFile. rewrite Hfile, Hdir. cbn [negb]. rewrite andb_true_r.
  cbn [andb] in Hread. rewrite Hdir in Hread.
  destruct (read_ok (w_fs w) name) eqn:Hrok.
  2:{ exists [OsReadFile (Join (dir d) name) false].
      apply cycle_facts_unchanged; rewrite ?Hread; try reflexivity.
      repeat constructor; assumption. }
  cbn [emit w_cb w_fs w_trace].
  destruct (replayFn (n_data nd) (w_cb w)) as [ok s'] eqn:Hcall.
  assert (Hcalls : replay_calls [(name, n_data nd)] (w_cb w)
                   = ([CallReplay name (n_data nd) ok], s')).
  { cbn. rewrite Hcall. reflexivity. }
  destruct ok; cbn [negb].
  2:{ exists [OsReadFile (Join (dir d) name) true; CallReplay name (n_data nd) false].
      apply cycle_facts_unchanged; rewrite ?Hread, ?Hcalls; try reflexivity.
      - cbn. rewrite <- app_assoc. reflexivity.
      - repeat constructor; assumption. }
  unfold Remove. cbn [emit w_cb w_fs w_trace]. rewrite Hfile.
  destruct (remove_ok (w_fs w) name) eqn:Hrm.
  2:{ exists [OsReadFile (Join (dir d) name) true; CallReplay name (n_data nd) true;
              MuLock; OsRemove (Join (dir d) name) false; MuUnlock].
      apply cycle_facts_unchanged; rewrite ?Hread, ?Hcalls; try reflexivity.
      - cbn. rewrite <- !app_assoc. reflexivity.
      - repeat constructor; assumption. }
  exists [OsReadFile (Join (dir d) name) true; CallReplay name (n_data nd) true;
          MuLock; OsRemove (Join (dir d) name) true; MuUnlock].
  unfold QueueTerms.cycle_facts. cbn [emit with_fs w_cb w_fs w_trace fst snd].
  rewrite Hread, Hcalls. cbn [fst snd files set_files].
  split; [rewrite <- !app_assoc; reflexivity|]. split; [reflexivity|].
  split.
  { intros x Hx. apply lookup_delete_ne. intros ->. apply Hx. left. }
  split.
  { intros x ndx Hx. destruct (decide (x = name)) as [->|Hne].
    - rewrite lookup_delete_eq in Hx. discriminate.
    - rewrite lookup_delete_ne in Hx by congruence. exact Hx. }
  split.
  { intros x ndx Hx Hnb. rewrite lookup_delete_ne; [exact Hx|].
    intros <-. rewrite Hfile in Hx. injection Hx as <-. congruence. }
  split; [reflexivity|]. split; [reflexivity|]. split; [reflexivity|].
  split.
  { rewrite (batch_count_delete _ _ _ Hfile), Hbatch. lia. }
  repeat constructor; assumption.
Qed.

Lemma readable_app (f : fs) (es1 es2 : list (string * bool)) :
  readable f (es1 ++ es2) = readable f es1 ++ readable f es2.
Proof. apply omap_app. Qed.

Lemma about_batch_mono (d : DeadLetterQueue) (f f' : fs) (e : effect) :
  (forall name nd, files f' !! name = Some nd -> files f !! name = Some nd) ->
  about_batch d f' e -> about_batch d f e.
Proof.
  intros H. destruct e; cbn; auto.
  - intros (name & nd & Hp & Hf & Hb). exists name, nd. auto.
  - intros (name & nd & Hp & Hf & Hb). exists name, nd. auto.
  - intros (nd & Hf & Hb). exists nd. auto.
Qed.

Lemma cycle_facts_cons (d : DeadLetterQueue) (e : string * bool)
    (es : list (string * bool)) (w w1 w' : world S) (n n1 n' : nat)
    (tr1 tr2 : list effect) :
  fst e ∉ es.*1 ->
  cycle_facts d [e] w n w1 n1 tr1 -> cycle_facts d es w1 n1 w' n' tr2 ->
  cycle_facts d (e :: es) w n w' n' (tr1 ++ tr2).
Proof.
  intros Hne (Ht1 & Hf1 & Ho1 & Hs1 & Hn1 & Hr1 & Hc1 & Hl1 & Hk1 & Ha1)
             (Ht2 & Hf2 & Ho2 & Hs2 & Hn2 & Hr2 & Hc2 & Hl2 & Hk2 & Ha2).
  assert (Hread : readable (w_fs w1) es = readable (w_fs w) es).
  { apply readable_ext.
    - rewrite Hf1. reflexivity.
    - intros name Hin. apply Ho1. intros Hin'.
      rewrite fmap_cons in Hin'. apply list_elem_of_singleton in Hin'.
      congruence. }
  assert (Hcalls : replay_calls (readable (w_fs w) (e :: es)) (w_cb w)
                   = (replays tr1 ++ replays tr2, w_cb w')).
  { change (e :: es) with ([e] ++ es).
    rewrite readable_app, replay_calls_app, <- Hr1, <- Hc1, <- Hread, <- Hr2, <- Hc2.
    reflexivity. }
  unfold QueueTerms.cycle_facts.
  split; [rewrite Ht2, Ht1, app_assoc; reflexivity|].
  split; [rewrite Hf2, Hf1; reflexivity|].
  split.
  { intros name Hin. rewrite fmap_cons in Hin. apply not_elem_of_cons in Hin as [H1 H2].
    rewrite Ho2 by exact H2. apply Ho1. rewrite fmap_cons.
    intros H. apply list_elem_of_singleton in H. contradiction. }
  split; [auto|]. split; [auto|].
  split; [rewrite Hcalls; apply replays_app|].
  split; [rewrite Hcalls; reflexivity|].
  split; [rewrite locking_app, Hl1; exact Hl2|].
  split; [lia|].
  apply Forall_app. split; [exact Ha1|].
  eapply Forall_impl; [exact Ha2|]. intros x. apply about_batch_mono. exact Hs1.
Qed.

(** The loop of [processFiles] over the entries [ReadDir] listed. *)
Lemma foldl_cycle_facts (d : DeadLetterQueue) (es : list (string * bool)) :
  NoDup (es.*1) ->
  forall (w : world S) (n : nat),
  (forall name isdir, (name, isdir) ∈ es ->
     exists nd, files (w_fs w) !! name = Some nd /\ isdir = n_isdir nd) ->
  exists tr,
    cycle_facts d es w n
      (fst (foldl (fun st e => process_entry d e st) (w, n) es))
      (snd (foldl (fun st e => process_entry d e st) (w, n) es)) tr.
Proof.
  induction es as [|[name isdir] es IH]; intros Hnd w n Hes.
  - exists []. cbn [foldl fst snd]. unfold QueueTerms.cycle_facts.
    split; [symmetry; apply app_nil_r|]. split; [apply set_files_same|].
    repeat (split; [auto; fail|]). constructor.
  - rewrite fmap_cons in Hnd. apply NoDup_cons in Hnd as [Hnot Hnd].
    destruct (Hes name isdir) as (nd & Hfile & Hdir); [left|].
    destruct (process_entry_facts d name isdir nd w n Hfile Hdir) as [tr1 H1].
    cbn [foldl].
    destruct (process_entry d (name, isdir) (w, n)) as [w1 n1] eqn:Hstep.
    cbn [fst snd] in H1.
    destruct (IH Hnd w1 n1) as [tr2 H2].
    { intros name' isdir' Hin.
      destruct (Hes name' isdir') as (nd' & Hf' & Hd'); [right; exact Hin|].
      exists nd'. split; [|exact Hd'].
      destruct H1 as (_ & _ & Ho1 & _). rewrite Ho1; [exact Hf'|].
      rewrite fmap_cons. intros H. apply list_elem_of_singleton in H.
      cbn in H. subst name'. apply Hnot. apply list_elem_of_fmap.
      exists (name, isdir'). auto. }
    exists (tr1 ++ tr2). apply (cycle_facts_cons d (name, isdir) es w w1 _ n n1 _);
      [exact Hnot|exact H1|exact H2].
Qed.

Lemma ReadDir_sound (f : fs) (es : list (string * bool)) (name : string)
    (isdir : bool) :
  ReadDir f = Some es -> (name, isdir) ∈ es ->
  exists nd, files f !! name = Some nd /\ isdir = n_isdir nd.
Proof.
  unfold ReadDir. destruct (readdir_ok f); [|discriminate].
  intros [= <-] Hin. apply list_elem_of_omap in Hin as (x & _ & Hx).
  destruct (files f !! x) as [nd|] eqn:E; [|discriminate].
  cbn in Hx. injection Hx as <- <-. eauto.
Qed.

Lemma readable_ReadDir (f : fs) (es : list (string * bool)) :
  ReadDir f = Some es -> readable f es = batch_files f.
Proof.
  unfold ReadDir. destruct (readdir_ok f); [|discriminate].
  intros [= <-]. unfold readable, batch_files.
  induction (sort_strings (elements (dom (files f)))) as [|x l IH]; [reflexivity|].
  cbn [omap list_omap]. unfold batch_at at 2.
  destruct (files f !! x) as [nd|] eqn:E; cbn.
  - unfold batch_at at 1. cbn [fst]. rewrite E. cbn.
    destruct (is_batch x nd && read_ok f x); cbn; rewrite <- IH; reflexivity.
  - exact IH.
Qed.

(** A cycle that lists the directory. *)
Lemma processFiles_facts (d : DeadLetterQueue) (w : world S) :
  readdir_ok (w_fs w) = true ->
  exists es tr,
    ReadDir (w_fs w) = Some es
    /\ cycle_facts d es (emit w [MuLock; OsReadDir (dir d) true; MuUnlock]) 0
         (fst (processFiles d w)) (snd (processFiles d w)) tr.
Proof.
  intros Hok. unfold Queue.processFiles. cbn [emit w_fs].
  destruct (ReadDir (w_fs w)) as [es|] eqn:Hrd.
  2:{ unfold ReadDir in Hrd. rewrite Hok in Hrd. discriminate. }
  exists es.
  destruct (foldl_cycle_facts d es (ReadDir_NoDup _ _ Hrd)
              (mk_world (w_fs w) (w_cb w)
                 ((w_trace w ++ [MuLock]) ++ [OsReadDir (dir d) true; MuUnlock])) 0)
    as [tr Htr].
  { intros name isdir Hin. exact (ReadDir_sound _ _ _ _ Hrd Hin). }
  exists tr. split; [reflexivity|].
  unfold emit. cbn [w_fs w_cb w_trace].
  rewrite <- app_assoc in *. exact Htr.
Qed.

(** X13: a replay cycle that can list the directory calls the callback
    once for each batch file it can read (the regular files with the
    extension [.json]), with the contents of the file, in strictly rising
    order of the names, each call starting from the state the one before
    left; no other call is made. *)
Theorem processFiles_replays_in_name_order (d : DeadLetterQueue) (w : world S) :
  readdir_ok (w_fs w) = true ->
  exists tr,
    w_trace (fst (processFiles d w)) = w_trace w ++ tr
    /\ replays tr = fst (replay_calls (batch_files (w_fs w)) (w_cb w))
    /\ w_cb (fst (processFiles d w))
       = snd (replay_calls (batch_files (w_fs w)) (w_cb w))
    /\ StronglySorted (fun a b => String.ltb a b = true) (batch_files (w_fs w)).*1
    /\ (forall name data,
          (name, data) ∈ batch_files (w_fs w) <->
          exists nd, files (w_fs w) !! name = Some nd /\ n_isdir nd = false
                     /\ Ext name = ".json" /\ read_ok (w_fs w) name = true
                     /\ data = n_data nd).
Proof.
  intros Hok. destruct (processFiles_facts d w Hok) as (es & tr & Hrd & Hc).
  destruct Hc as (Ht & _ & _ & _ & _ & Hr & Hcb & _).
  cbn [emit w_fs w_cb w_trace] in Ht, Hr, Hcb.
  rewrite (readable_ReadDir _ _ Hrd) in Hr, Hcb.
  exists ([MuLock; OsReadDir (dir d) true; MuUnlock] ++ tr).
  split; [rewrite Ht, <- app_assoc; reflexivity|].
  split; [rewrite replays_app; exact Hr|]. split; [exact Hcb|].
  split; [apply batch_files_sorted|apply elem_of_batch_files].
Qed.

(** X14: a replay cycle reads, replays and removes batch files only: every
    effect after the listing is the mutex, or a read, a callback run or a
    removal of a regular file with the extension [.json] of the directory;
    the subdirectories and the files of another extension stay as they are;
    and no entry is created or changed. *)
Theorem processFiles_touches_only_batches (d : DeadLetterQueue) (w : world S) :
  readdir_ok (w_fs w) = true ->
  exists tr,
    w_trace (fst (processFiles d w))
      = w_trace w ++ [MuLock; OsReadDir (dir d) true; MuUnlock] ++ tr
    /\ Forall (about_batch d (w_fs w)) tr
    /\ (forall name nd, files (w_fs w) !! name = Some nd ->
          is_batch name nd = false ->
          files (w_fs (fst (processFiles d w))) !! name = Some nd)
    /\ (forall name nd, files (w_fs (fst (processFiles d w))) !! name = Some nd ->
          files (w_fs w) !! name = Some nd)
    /\ w_fs (fst (processFiles d w))
       = set_files (w_fs w) (files (w_fs (fst (processFiles d w)))).
Proof.
  intros Hok. destruct (processFiles_facts d w Hok) as (es & tr & Hrd & Hc).
  destruct Hc as (Ht & Hf & _ & Hs & Hn & _ & _ & _ & _ & Ha).
  cbn [emit w_fs w_cb w_trace] in *.
  exists tr. split; [rewrite Ht, <- app_assoc; reflexivity|]. auto.
Qed.

(** [Size], from the directory. *)
Lemma Size_eq (d : DeadLetterQueue) (w : world S) :
  snd (Size d w)
  = if readdir_ok (w_fs w) then batch_count (files (w_fs w)) else 0%nat.
Proof.
  unfold Size. cbn [emit w_fs].
  destruct (ReadDir (w_fs w)) as [es|] eqn:Hrd.
  - cbn [snd]. rewrite (length_filter_entries _ _ Hrd).
    unfold ReadDir in Hrd. destruct (readdir_ok (w_fs w)); [reflexivity|discriminate].
  - unfold ReadDir in Hrd. destruct (readdir_ok (w_fs w)); [discriminate|reflexivity].
Qed.


(** X16: the three operations keep to the mutex: each takes it while it
    is free and gives it back before it returns, on every path; the
    directory is listed and changed only under it; and the files are read
    and the callback is run only while it is free, so that a callback may
    itself call [Enqueue] or [Size]. *)
Theorem mutex_discipline (d : DeadLetterQueue) (w : world S) :
  (exists tr, w_trace (fst (processFiles d w)) = w_trace w ++ tr
              /\ locking false tr = Some false)
  /\ (forall now batch,
        exists tr, w_trace (fst (Enqueue d now batch w)) = w_trace w ++ tr
                   /\ locking false tr = Some false)
  /\ (exists tr, w_trace (fst (Size d w)) = w_trace w ++ tr
                 /\ locking false tr = Some false).
Proof.
  split; [|split].
  - destruct (readdir_ok (w_fs w)) eqn:Hok.
    + destruct (processFiles_facts d w Hok) as (es & tr & Hrd & Hc).
      destruct Hc as (Ht & _ & _ & _ & _ & _ & _ & Hl & _).
      cbn [emit w_fs w_cb w_trace] in *.
      exists ([MuLock; OsReadDir (dir d) true; MuUnlock] ++ tr).
      split; [rewrite Ht, <- app_assoc; reflexivity|].
      rewrite locking_app. exact Hl.
    + exists [MuLock; OsReadDir (dir d) false; MuUnlock].
      unfold Queue.processFiles, ReadDir. cbn [emit w_fs]. rewrite Hok.
      cbn [fst emit w_trace]. rewrite <- app_assoc. auto.
  - intros now batch. unfold Queue.Enqueue. cbn [emit w_fs w_trace].
    destruct (Marshal batch) as [data|err].
    + destruct (WriteFile (w_fs w) (batch_filename now) data perm_0o644) as [f' [|]];
        cbn [fst emit with_fs w_trace]; rewrite <- app_assoc;
        eexists; (split; [reflexivity|reflexivity]).
    + cbn [fst emit w_trace]. rewrite <- app_assoc. eexists. split; reflexivity.
  - unfold Size. cbn [emit w_fs].
    destruct (ReadDir (w_fs w)); cbn [fst emit w_trace]; rewrite <- app_assoc;
      eexists; (split; [reflexivity|reflexivity]).
Qed.

Lemma WriteFile_Some (f : fs) (name : string) (data : list byte) (perm : Z) :
  write_ok f name = true ->
  (forall nd, files f !! name = Some nd -> n_isdir nd = false) ->
  exists p, WriteFile f name data perm
            = (set_files f (<[name := mk_node false data p]> (files f)), true)
            /\ (files f !! name = None -> p = perm).
Proof.
  intros Hw Hd. unfold WriteFile, is_directory, opened.
  destruct (files f !! name) as [nd|] eqn:E.
  - rewrite (Hd nd) by reflexivity. rewrite Hw.
    exists (n_perm nd). split; [reflexivity|discriminate].
  - rewrite Hw. exists perm. auto.
Qed.

(** [os.WriteFile] fails on a directory, and where the system fails it. *)
Lemma WriteFile_fails (f : fs) (name : string) (data : list byte) (perm : Z) :
  snd (WriteFile f name data perm) = false <->
  write_ok f name = false
  \/ exists nd, files f !! name = Some nd /\ n_isdir nd = true.
Proof.
  unfold WriteFile, is_directory.
  destruct (files f !! name) as [nd|] eqn:E.
  - destruct (n_isdir nd) eqn:Hd.
    + cbn [snd]. split; [eauto|reflexivity].
    + destruct (write_ok f name); cbn [snd].
      * split; [discriminate|]. intros [H|(nd' & [= <-] & H)]; congruence.
      * destruct (write_cut f name); cbn [snd]; split; auto.
  - destruct (write_ok f name); cbn [snd].
    + split; [discriminate|]. intros [H|(nd' & H & _)]; discriminate.
    + destruct (write_cut f name); cbn [snd]; split; auto.
Qed.

(** A failed [os.WriteFile] changes nothing when it fails at the open, and
    leaves the bytes written so far when it fails after it. *)
Lemma WriteFile_failed (f : fs) (name : string) (data : list byte) (perm : Z) :
  snd (WriteFile f name data perm) = false ->
  fst (WriteFile f name data perm)
  = match write_cut f name with
    | Some k => if is_directory f name then f
                else opened f name (take k data) perm
    | None => f
    end.
Proof.
  unfold WriteFile. destruct (is_directory f name).
  - destruct (write_cut f name); reflexivity.
  - destruct (write_ok f name); [discriminate|].
    destruct (write_cut f name); reflexivity.
Qed.

Lemma opened_lookup (f : fs) (name : string) (data : list byte) (perm : Z) :
  is_directory f name = false ->
  (exists nd, files (opened f name data perm) !! name = Some nd
              /\ n_isdir nd = false /\ n_data nd = data
              /\ (files f !! name = None -> n_perm nd = perm))
  /\ (forall other, other <> name ->
        files (opened f name data perm) !! other = files f !! other).
Proof.
  unfold is_directory, opened. intros Hd.
  destruct (files f !! name) as [nd|] eqn:E; cbn [files set_files].
  - split.
    + eexists. rewrite lookup_insert_eq. split; [reflexivity|].
      cbn. split; [reflexivity|]. split; [reflexivity|discriminate].
    + intros other Hne. apply lookup_insert_ne. congruence.
  - split.
    + eexists. rewrite lookup_insert_eq. split; [reflexivity|].
      cbn. auto.
    + intros other Hne. apply lookup_insert_ne. congruence.
Qed.

Lemma not_directory (f : fs) (name : string) :
  is_directory f name = false <->
  forall nd, files f !! name = Some nd -> n_isdir nd = false.
Proof.
  unfold is_directory. destruct (files f !! name) as [nd|].
  - split; [intros H nd' [= <-]; exact H|intros H; apply H; reflexivity].
  - split; [discriminate|reflexivity].
Qed.

(** [Enqueue] in terms of [os.WriteFile]. *)
Lemma Enqueue_eq (d : DeadLetterQueue) (now : Z) (batch : Batch) (w : world S) :
  w_cb (fst (Enqueue d now batch w)) = w_cb w
  /\ match Marshal batch with
     | inl data =>
         w_fs (fst (Enqueue d now batch w))
         = fst (WriteFile (w_fs w) (batch_filename now) data perm_0o644)
         /\ (snd (Enqueue d now batch w) = None <->
             snd (WriteFile (w_fs w) (batch_filename now) data perm_0o644) = true)
     | inr _ =>
         w_fs (fst (Enqueue d now batch w)) = w_fs w
         /\ snd (Enqueue d now batch w) <> None
     end.
Proof.
  unfold Queue.Enqueue. cbn [emit w_fs w_cb w_trace].
  destruct (Marshal batch) as [data|err].
  - destruct (WriteFile (w_fs w) (batch_filename now) data perm_0o644) as [f' [|]];
      cbn [fst snd emit with_fs w_fs w_cb].
    + split; [reflexivity|]. split; [reflexivity|]. split; reflexivity.
    + split; [reflexivity|]. split; [reflexivity|]. split; discriminate.
  - cbn [fst snd emit w_fs w_cb]. split; [reflexivity|]. split; [reflexivity|discriminate].
Qed.

(** X17: [Enqueue] returns an error exactly when the batch cannot be
    marshalled or the file cannot be written (the system fails the write,
    or a directory has the name).  An error does not mean that nothing was
    written: where the batch cannot be marshalled, a directory has the name
    or the file cannot be opened, the directory is as it was; where the
    write fails after the open, after [k] bytes, the file is there with the
    first [k] bytes of the batch (with mode 0644 if it is new) and every
    other entry is as it was.  The state of the callback is never
    touched. *)
Theorem Enqueue_fails_iff (d : DeadLetterQueue) (now : Z) (batch : Batch)
    (w : world S) :
  (snd (Enqueue d now batch w) <> None <->
   (exists err, Marshal batch = inr err)
   \/ write_ok (w_fs w) (batch_filename now) = false
   \/ exists nd, files (w_fs w) !! batch_filename now = Some nd
                 /\ n_isdir nd = true)
  /\ (snd (Enqueue d now batch w) <> None ->
      (exists err, Marshal batch = inr err)
      \/ (exists nd, files (w_fs w) !! batch_filename now = Some nd
                     /\ n_isdir nd = true)
      \/ write_cut (w_fs w) (batch_filename now) = None ->
      w_fs (fst (Enqueue d now batch w)) = w_fs w)
  /\ (forall data k,
        snd (Enqueue d now batch w) <> None ->
        Marshal batch = inl data ->
        (forall nd, files (w_fs w) !! batch_filename now = Some nd ->
                    n_isdir nd = false) ->
        write_cut (w_fs w) (batch_filename now) = Some k ->
        (exists nd, files (w_fs (fst (Enqueue d now batch w))) !! batch_filename now
                    = Some nd
                    /\ n_isdir nd = false /\ n_data nd = take k data
                    /\ (files (w_fs w) !! batch_filename now = None ->
                        n_perm nd = perm_0o644))
        /\ (forall other, other <> batch_filename now ->
              files (w_fs (fst (Enqueue d now batch w))) !! other
              = files (w_fs w) !! other))
  /\ w_cb (fst (Enqueue d now batch w)) = w_cb w.
Proof.
  destruct (Enqueue_eq d now batch w) as [Hcb HE].
  split; [|split; [|split; [|exact Hcb]]].
  - destruct (Marshal batch) as [data|err]; destruct HE as [Hfs Herr].
    + rewrite <- (WriteFile_fails _ _ data perm_0o644). rewrite Herr.
      destruct (snd (WriteFile (w_fs w) (batch_filename now) data perm_0o644)).
      * split; [intros H; exfalso; apply H; reflexivity|].
        intros [[err He]|H]; discriminate.
      * split; [auto|discriminate].
    + split; [eauto|auto].
  - intros Hne Hc. destruct (Marshal batch) as [data|err]; destruct HE as [Hfs Herr];
      [|exact Hfs].
    assert (Hf : snd (WriteFile (w_fs w) (batch_filename now) data perm_0o644) = false).
    { destruct (snd (WriteFile (w_fs w) (batch_filename now) data perm_0o644));
        [exfalso; apply Hne, Herr; reflexivity|reflexivity]. }
    rewrite Hfs, (WriteFile_failed _ _ _ _ Hf).
    destruct Hc as [[err He]|[(nd & Hnd & Hd)|Hcut]]; [discriminate| |].
    + unfold is_directory. rewrite Hnd, Hd.
      destruct (write_cut (w_fs w) (batch_filename now)); reflexivity.
    + rewrite Hcut. reflexivity.
  - intros data k Hne Hm Hd Hcut. rewrite Hm in HE. destruct HE as [Hfs Herr].
    assert (Hf : snd (WriteFile (w_fs w) (batch_filename now) data perm_0o644) = false).
    { destruct (snd (WriteFile (w_fs w) (batch_filename now) data perm_0o644));
        [exfalso; apply Hne, Herr; reflexivity|reflexivity]. }
    apply not_directory in Hd.
    rewrite Hfs, (WriteFile_failed _ _ _ _ Hf), Hcut, Hd.
    apply opened_lookup. exact Hd.
Qed.

Lemma Enqueue_Some (d : DeadLetterQueue) (now : Z) (batch : Batch) (w : world S)
    (data : list byte) :
  Marshal batch = inl data ->
  write_ok (w_fs w) (batch_filename now) = true ->
  (forall nd, files (w_fs w) !! batch_filename now = Some nd -> n_isdir nd = false) ->
  exists p,
    snd (Enqueue d now batch w) = None
    /\ w_fs (fst (Enqueue d now batch w))
       = set_files (w_fs w)
           (<[batch_filename now := mk_node false data p]> (files (w_fs w)))
    /\ w_cb (fst (Enqueue d now batch w)) = w_cb w.
Proof.
  intros Hm Hw Hd. unfold Queue.Enqueue. rewrite Hm. cbn [emit w_fs w_cb w_trace].
  destruct (WriteFile_Some (w_fs w) (batch_filename now) data perm_0o644 Hw Hd)
    as (p & -> & _).
  exists p. cbn. auto.
Qed.

(** X18: the name of a batch file is its instant: two batches enqueued at
    the same instant share one file, and the second overwrites the first
    without an error (the directory holds as many batch files as after the
    first, and the file holds the second batch); batches enqueued at
    different instants never share a file. *)
Theorem Enqueue_same_instant_overwrites (d : DeadLetterQueue) (now : Z)
    (b1 b2 : Batch) (d1 d2 : list byte) (w : world S) :
  Marshal b1 = inl d1 -> Marshal b2 = inl d2 ->
  write_ok (w_fs w) (batch_filename now) = true ->
  (forall nd, files (w_fs w) !! batch_filename now = Some nd -> n_isdir nd = false) ->
  let w1 := fst (Enqueue d now b1 w) in
  let w2 := fst (Enqueue d now b2 w1) in
  snd (Enqueue d now b1 w) = None
  /\ snd (Enqueue d now b2 w1) = None
  /\ n_data <$> files (w_fs w2) !! batch_filename now = Some d2
  /\ (forall other, other <> batch_filename now ->
        files (w_fs w2) !! other = files (w_fs w) !! other)
  /\ batch_count (files (w_fs w2)) = batch_count (files (w_fs w1))
  /\ (forall now', batch_filename now' = batch_filename now -> now' = now).
Proof.
  intros Hm1 Hm2 Hw Hd w1 w2.
  destruct (Enqueue_Some d now b1 w d1 Hm1 Hw Hd) as (p1 & He1 & Hf1 & _).
  fold w1 in Hf1.
  destruct (Enqueue_Some d now b2 w1 d2 Hm2) as (p2 & He2 & Hf2 & _).
  { rewrite Hf1. exact Hw. }
  { rewrite Hf1. cbn [files set_files]. rewrite lookup_insert_eq.
    intros nd [= <-]. reflexivity. }
  fold w2 in Hf2.
  split; [exact He1|]. split; [exact He2|].
  rewrite Hf2, Hf1. cbn [files set_files].
  split; [rewrite lookup_insert_eq; reflexivity|].
  split; [intros other Hne; rewrite !lookup_insert_ne by congruence; reflexivity|].
  split; [|intros now'; apply batch_filename_inj].
  rewrite insert_insert_eq. apply batch_count_insert_same. reflexivity.
Qed.

(** X19: [Size] after [Enqueue]: the queue is one longer exactly when the
    call left a file under a name that was free, and as long as before
    otherwise.  A successful call always leaves its file, so a batch
    written under a new name makes the queue one longer and a batch written
    over an earlier one leaves its length.  A failed call under a free name
    leaves a file, and so makes the queue one longer too, exactly when the
    batch was marshalled and the write failed after the file was opened. *)
Theorem Enqueue_grows_Size (d : DeadLetterQueue) (now : Z) (batch : Batch)
    (w : world S) :
  readdir_ok (w_fs w) = true ->
  snd (Size d (fst (Enqueue d now batch w)))
  = match files (w_fs w) !! batch_filename now,
          files (w_fs (fst (Enqueue d now batch w))) !! batch_filename now with
    | None, Some _ => Datatypes.S (snd (Size d w))
    | _, _ => snd (Size d w)
    end
  /\ (snd (Enqueue d now batch w) = None ->
      is_Some (files (w_fs (fst (Enqueue d now batch w))) !! batch_filename now))
  /\ (snd (Enqueue d now batch w) <> None ->
      files (w_fs w) !! batch_filename now = None ->
      (is_Some (files (w_fs (fst (Enqueue d now batch w))) !! batch_filename now)
       <-> (exists data, Marshal batch = inl data)
           /\ is_Some (write_cut (w_fs w) (batch_filename now)))).
Proof.
  intros Hok. rewrite !Size_eq, Hok.
  destruct (Enqueue_eq d now batch w) as [_ HE].
  destruct (Marshal batch) as [data|err]; destruct HE as [Hfs Herr].
  2:{ rewrite Hfs, Hok. split; [|split].
      - destruct (files (w_fs w) !! batch_filename now); reflexivity.
      - intros H. contradiction.
      - intros _ E. rewrite E. split.
        + intros H. destruct H as [x H]. discriminate.
        + intros [[data H] _]. discriminate. }
  rewrite Hfs. rewrite Herr. clear Hfs Herr.
  unfold WriteFile, is_directory, opened.
  destruct (files (w_fs w) !! batch_filename now) as [nd|] eqn:E.
  - destruct (n_isdir nd) eqn:Hd; cbn [fst snd].
    + rewrite Hok, E. split; [reflexivity|]. split; [discriminate|discriminate].
    + assert (Hsame : forall bytes,
                batch_count (<[batch_filename now := mk_node false bytes (n_perm nd)]>
                               (files (w_fs w)))
                = batch_count (files (w_fs w))).
      { intros bytes. rewrite <- (insert_id _ _ _ E) at 2.
        apply batch_count_insert_same. unfold is_batch. cbn [n_isdir].
        rewrite Hd. reflexivity. }
      destruct (write_ok (w_fs w) (batch_filename now)); cbn [fst snd].
      * cbn [readdir_ok set_files files]. rewrite Hok, lookup_insert_eq, Hsame.
        split; [reflexivity|]. split; [eauto|discriminate].
      * destruct (write_cut (w_fs w) (batch_filename now)) as [k|]; cbn [fst snd].
        -- cbn [readdir_ok set_files files]. rewrite Hok, lookup_insert_eq, Hsame.
           split; [reflexivity|]. split; [discriminate|discriminate].
        -- rewrite Hok, E. split; [reflexivity|]. split; [discriminate|discriminate].
  - assert (Hnew : forall bytes,
              batch_count (<[batch_filename now := mk_node false bytes perm_0o644]>
                             (files (w_fs w)))
              = Datatypes.S (batch_count (files (w_fs w)))).
    { intros bytes. rewrite batch_count_insert by exact E.
      unfold is_batch. cbn [n_isdir negb andb].
      rewrite Ext_batch_filename. reflexivity. }
    destruct (write_ok (w_fs w) (batch_filename now)); cbn [fst snd].
    + cbn [readdir_ok set_files files]. rewrite Hok, lookup_insert_eq, Hnew.
      split; [reflexivity|]. split; [eauto|]. intros H. exfalso. apply H.
      reflexivity.
    + destruct (write_cut (w_fs w) (batch_filename now)) as [k|]; cbn [fst snd].
      * cbn [readdir_ok set_files files]. rewrite Hok, lookup_insert_eq, Hnew.
        split; [reflexivity|]. split; [discriminate|]. intros _ _.
        split; [intros _; split; eauto|eauto].
      * rewrite Hok, E. split; [reflexivity|]. split; [discriminate|].
        intros _ _. split.
        -- intros [x H]. discriminate.
        -- intros [_ [x H]]. discriminate.
Qed.

Lemma replay_of_calls (bs : list (string * list byte)) (s : S)
    (name : string) (data : list byte) :
  NoDup bs.*1 -> (name, data) ∈ bs ->
  exists ok, filter (replay_of name) (fst (replay_calls bs s))
             = [CallReplay name data ok].
Proof.
  revert s. induction bs as [|[n0 d0] bs IH]; intros s Hnd Hin.
  - apply elem_of_nil in Hin. destruct Hin.
  - rewrite fmap_cons in Hnd. apply NoDup_cons in Hnd as [Hn0 Hnd].
    cbn [QueueTerms.replay_calls].
    destruct (replayFn d0 s) as [ok s'].
    destruct (QueueTerms.replay_calls replayFn bs s') as [calls s''] eqn:Hrc.
    cbn [fst]. rewrite filter_cons. cbn [replay_of].
    apply elem_of_cons in Hin as [Hin|Hin].
    + injection Hin as <- <-. rewrite String.eqb_refl.
      rewrite decide_True by exact I. exists ok. f_equal.
      assert (Hnone : forall bs' s0, name ∉ bs'.*1 ->
                filter (replay_of name) (fst (replay_calls bs' s0)) = []).
      { clear. induction bs' as [|[n1 d1] bs' IH']; intros s0 Hn; [reflexivity|].
        cbn [QueueTerms.replay_calls]. destruct (replayFn d1 s0) as [ok1 s1].
        destruct (QueueTerms.replay_calls replayFn bs' s1) as [c1 s2] eqn:E.
        cbn [fst]. rewrite filter_cons. cbn [replay_of].
        rewrite fmap_cons in Hn. apply not_elem_of_cons in Hn as [Hne Hn].
        destruct (String.eqb_spec n1 name) as [->|_]; [contradiction|].
        rewrite decide_False by (intros H; exact H).
        specialize (IH' s1 Hn). rewrite E in IH'. exact IH'. }
      specialize (Hnone bs s' Hn0). rewrite Hrc in Hnone. exact Hnone.
    + destruct (String.eqb_spec n0 name) as [->|_].
      * exfalso. apply Hn0. apply list_elem_of_fmap. exists (name, data). auto.
      * rewrite decide_False by (intros H; exact H).
        destruct (IH s' Hnd Hin) as [ok' Hok']. rewrite Hrc in Hok'. eauto.
Qed.

Lemma filter_replay_of (name : string) (tr : list effect) :
  filter (replay_of name) tr = filter (replay_of name) (replays tr).
Proof.
  unfold replays. rewrite list_filter_filter. apply list_filter_iff.
  intros e. destruct e; cbn; tauto.
Qed.

(** X20: what [Enqueue] wrote, the next cycle replays: after a batch was
    written, a cycle that can list the directory and read the file calls
    the callback for that file exactly once, with the very bytes
    [json.Marshal] gave for the batch. *)
Theorem Enqueue_then_replay (d : DeadLetterQueue) (now : Z) (batch : Batch)
    (data : list byte) (w : world S) :
  Marshal batch = inl data ->
  write_ok (w_fs w) (batch_filename now) = true ->
  (forall nd, files (w_fs w) !! batch_filename now = Some nd -> n_isdir nd = false) ->
  readdir_ok (w_fs w) = true ->
  read_ok (w_fs w) (batch_filename now) = true ->
  let w1 := fst (Enqueue d now batch w) in
  snd (Enqueue d now batch w) = None
  /\ exists tr ok,
       w_trace (fst (processFiles d w1)) = w_trace w1 ++ tr
       /\ filter (replay_of (batch_filename now)) tr
          = [CallReplay (batch_filename now) data ok].
Proof.
  intros Hm Hw Hd Hrd Hr w1.
  destruct (Enqueue_Some d now batch w data Hm Hw Hd) as (p & He & Hf & _).
  fold w1 in Hf. split; [exact He|].
  assert (Hok1 : readdir_ok (w_fs w1) = true) by (rewrite Hf; exact Hrd).
  destruct (processFiles_facts d w1 Hok1) as (es & tr & Hes & Hc).
  destruct Hc as (Ht & _ & _ & _ & _ & Hrep & _).
  cbn [emit w_fs w_cb w_trace] in Ht, Hrep.
  rewrite (readable_ReadDir _ _ Hes) in Hrep.
  destruct (replay_of_calls (batch_files (w_fs w1)) (w_cb w1)
              (batch_filename now) data) as [ok Hone].
  { eapply sublist_NoDup; [|apply batch_files_names_sublist].
    apply NoDup_sort_strings, NoDup_elements. }
  { apply elem_of_batch_files. exists (mk_node false data p).
    rewrite Hf. cbn [files set_files read_ok n_isdir n_data].
    rewrite lookup_insert_eq. split; [reflexivity|]. split; [reflexivity|].
    split; [apply Ext_batch_filename|]. auto. }
  exists ([MuLock; OsReadDir (dir d) true; MuUnlock] ++ tr), ok.
  split; [rewrite Ht, <- app_assoc; reflexivity|].
  rewrite filter_replay_of, replays_app. cbn [replays filter app].
  rewrite <- Hone, <- Hrep. reflexivity.
Qed.

End DLQMore.

(** *** The theorems at work *)

Lemma processFiles_replays_in_name_order_witness :
  exists tr,
    w_trace (fst (processFiles replay_log dlq0 world2)) = w_trace world2 ++ tr
    /\ replays tr = fst (replay_calls replay_log (batch_files (w_fs world2))
                           (w_cb world2))
    /\ w_cb (fst (processFiles replay_log dlq0 world2))
       = snd (replay_calls replay_log (batch_files (w_fs world2)) (w_cb world2))
    /\ StronglySorted (fun a b => String.ltb a b = true)
         (batch_files (w_fs world2)).*1
    /\ (forall name data,
          (name, data) ∈ batch_files (w_fs world2) <->
          exists nd, files (w_fs world2) !! name = Some nd /\ n_isdir nd = false
                     /\ Ext name = ".json" /\ read_ok (w_fs world2) name = true
                     /\ data = n_data nd).
Proof.
  apply (processFiles_replays_in_name_order _ replay_log dlq0 world2).
  reflexivity.
Defined.

Lemma processFiles_touches_only_batches_witness :
  exists tr,
    w_trace (fst (processFiles replay_log dlq0 world2))
      = w_trace world2 ++ [MuLock; OsReadDir (dir dlq0) true; MuUnlock] ++ tr
    /\ Forall (about_batch dlq0 (w_fs world2)) tr
    /\ (forall name nd, files (w_fs world2) !! name = Some nd ->
          is_batch name nd = false ->
          files (w_fs (fst (processFiles replay_log dlq0 world2))) !! name = Some nd)
    /\ (forall name nd,
          files (w_fs (fst (processFiles replay_log dlq0 world2))) !! name = Some nd ->
          files (w_fs world2) !! name = Some nd)
    /\ w_fs (fst (processFiles replay_log dlq0 world2))
       = set_files (w_fs world2)
           (files (w_fs (fst (processFiles replay_log dlq0 world2)))).
Proof.
  apply (processFiles_touches_only_batches _ replay_log dlq0 world2).
  reflexivity.
Defined.

Lemma Enqueue_same_instant_overwrites_witness :
  snd (Enqueue marshal_bytes dlq0 42 payload world2) = None
  /\ snd (Enqueue marshal_bytes dlq0 42 [Byte.x30]
            (fst (Enqueue marshal_bytes dlq0 42 payload world2))) = None
  /\ n_data <$> files (w_fs (fst (Enqueue marshal_bytes dlq0 42 [Byte.x30]
                                    (fst (Enqueue marshal_bytes dlq0 42 payload world2)))))
                  !! batch_filename 42 = Some [Byte.x30]
  /\ (forall other, other <> batch_filename 42 ->
        files (w_fs (fst (Enqueue marshal_bytes dlq0 42 [Byte.x30]
                            (fst (Enqueue marshal_bytes dlq0 42 payload world2)))))
          !! other = files (w_fs world2) !! other)
  /\ batch_count (files (w_fs (fst (Enqueue marshal_bytes dlq0 42 [Byte.x30]
                                     (fst (Enqueue marshal_bytes dlq0 42 payload world2))))))
     = batch_count (files (w_fs (fst (Enqueue marshal_bytes dlq0 42 payload world2))))
  /\ (forall now', batch_filename now' = batch_filename 42 -> now' = 42).
Proof.
  apply (Enqueue_same_instant_overwrites _ marshal_bytes _ dlq0 42 payload [Byte.x30]
           payload [Byte.x30] world2).
  - reflexivity.
  - reflexivity.
  - reflexivity.
  - intros nd H. vm_compute in H. discriminate.
Defined.

Lemma Enqueue_fails_iff_witness :
  (snd (Enqueue marshal_bytes dlq0 42 payload world_full) <> None <->
   (exists err, marshal_bytes payload = inr err)
   \/ write_ok (w_fs world_full) (batch_filename 42) = false
   \/ exists nd, files (w_fs world_full) !! batch_filename 42 = Some nd
                 /\ n_isdir nd = true)
  /\ (snd (Enqueue marshal_bytes dlq0 42 payload world_full) <> None ->
      (exists err, marshal_bytes payload = inr err)
      \/ (exists nd, files (w_fs world_full) !! batch_filename 42 = Some nd
                     /\ n_isdir nd = true)
      \/ write_cut (w_fs world_full) (batch_filename 42) = None ->
      w_fs (fst (Enqueue marshal_bytes dlq0 42 payload world_full)) = w_fs world_full)
  /\ (forall data k,
        snd (Enqueue marshal_bytes dlq0 42 payload world_full) <> None ->
        marshal_bytes payload = inl data ->
        (forall nd, files (w_fs world_full) !! batch_filename 42 = Some nd ->
                    n_isdir nd = false) ->
        write_cut (w_fs world_full) (batch_filename 42) = Some k ->
        (exists nd,
            files (w_fs (fst (Enqueue marshal_bytes dlq0 42 payload world_full)))
              !! batch_filename 42 = Some nd
            /\ n_isdir nd = false /\ n_data nd = take k data
            /\ (files (w_fs world_full) !! batch_filename 42 = None ->
                n_perm nd = perm_0o644))
        /\ (forall other, other <> batch_filename 42 ->
              files (w_fs (fst (Enqueue marshal_bytes dlq0 42 payload world_full)))
                !! other
              = files (w_fs world_full) !! other))
  /\ w_cb (fst (Enqueue marshal_bytes dlq0 42 payload world_full)) = w_cb world_full.
Proof.
  exact (Enqueue_fails_iff _ marshal_bytes _ dlq0 42 payload world_full).
Defined.

(** On the full disk [Enqueue] returns its error and leaves a file of one
    byte, the first of the two bytes of the batch, which [Size] counts. *)
Example Enqueue_on_full_disk :
  snd (Enqueue marshal_bytes dlq0 42 payload world_full) <> None
  /\ files (w_fs (fst (Enqueue marshal_bytes dlq0 42 payload world_full)))
       !! "batch_42.json" = Some (mk_node false [Byte.x5b] 420)
  /\ snd (Size dlq0 world_full) = 0%nat
  /\ snd (Size dlq0 (fst (Enqueue marshal_bytes dlq0 42 payload world_full))) = 1%nat.
Proof. vm_compute. split; [discriminate|auto]. Qed.

Lemma Enqueue_grows_Size_witness :
  snd (Size dlq0 (fst (Enqueue marshal_bytes dlq0 42 payload world_full)))
  = match files (w_fs world_full) !! batch_filename 42,
          files (w_fs (fst (Enqueue marshal_bytes dlq0 42 payload world_full)))
            !! batch_filename 42 with
    | None, Some _ => Datatypes.S (snd (Size dlq0 world_full))
    | _, _ => snd (Size dlq0 world_full)
    end
  /\ (snd (Enqueue marshal_bytes dlq0 42 payload world_full) = None ->
      is_Some (files (w_fs (fst (Enqueue marshal_bytes dlq0 42 payload world_full)))
                 !! batch_filename 42))
  /\ (snd (Enqueue marshal_bytes dlq0 42 payload world_full) <> None ->
      files (w_fs world_full) !! batch_filename 42 = None ->
      (is_Some (files (w_fs (fst (Enqueue marshal_bytes dlq0 42 payload world_full)))
                  !! batch_filename 42)
       <-> (exists data, marshal_bytes payload = inl data)
           /\ is_Some (write_cut (w_fs world_full) (batch_filename 42)))).
Proof.
  apply (Enqueue_grows_Size _ marshal_bytes _ dlq0 42 payload world_full).
  reflexivity.
Defined.

Lemma Enqueue_then_replay_witness :
  snd (Enqueue marshal_bytes dlq0 42 payload world2) = None
  /\ exists tr ok,
       w_trace (fst (processFiles replay_log dlq0
                       (fst (Enqueue marshal_bytes dlq0 42 payload world2))))
         = w_trace (fst (Enqueue marshal_bytes dlq0 42 payload world2)) ++ tr
       /\ filter (replay_of (batch_filename 42)) tr
          = [CallReplay (batch_filename 42) payload ok].
Proof.
  apply (Enqueue_then_replay _ marshal_bytes _ replay_log dlq0 42 payload payload world2).
  - reflexivity.
  - reflexivity.
  - intros nd H. vm_compute in H. discriminate.
  - reflexivity.
  - reflexivity.
Defined.

End QueueMore.

(** ** The broadcast hub *)

Module RealtimeMore.
Import Realtime RealtimeSpec RealtimeTerms RealtimeProps.

Section HubMore.

Variable Marshal : list LogEntry -> list byte + error.

Abbreviation flush := (flush Marshal).
Abbreviation Run_step := (Run_step Marshal).
Abbreviation do_action := (do_action Marshal).
Abbreviation exec := (exec Marshal).

Lemma exec_app (acts1 acts2 : list action) (h : Hub) :
  exec (acts1 ++ acts2) h
  = match exec acts1 h with
    | Stepped h1 => exec acts2 h1
    | NotReady => NotReady
    | Panicked => Panicked
    end.
Proof.
  revert h. induction acts1 as [|a acts1 IH]; intros h; [reflexivity|].
  cbn [app Realtime.exec]. destruct (Realtime.do_action Marshal a h); auto.
Qed.

(** What [flush] does, when the registered clients have open channels. *)
Lemma flush_cases (h h' : Hub) :
  clients_ok h -> flush h = Some h' ->
  same_settings h h' /\ buffer h' = []
  /\ ((clients h' = clients h /\ heap h' = heap h)
      \/ exists data, buffer h <> [] /\ Marshal (buffer h) = inl data
           /\ (forall c, c ∈ clients h' -> c ∈ clients h)
           /\ (forall c, c ∈ clients h -> heap h' !! c = deliver data <$> heap h !! c)
           /\ (forall c, c ∉ clients h -> heap h' !! c = heap h !! c)).
Proof.
  intros Hok Hf.
  destruct (flush_spec Marshal h Hok) as (h1 & Hf1 & Hb & Hs & _ & Hsend & Hnone).
  rewrite Hf in Hf1. injection Hf1 as <-.
  split; [exact Hs|]. split; [exact Hb|].
  destruct (buffer h) as [|e rest] eqn:Hbuf; [left; apply Hnone; auto|].
  destruct (Marshal (e :: rest)) as [data|err] eqn:Hm.
  - right. exists data. split; [discriminate|]. split; [reflexivity|].
    destruct (Hsend data) as (Hc & Hin & Hout); [discriminate|reflexivity|].
    split; [|auto]. intros c Hc'. apply Hc in Hc'. tauto.
  - left. apply Hnone. right. eauto.
Qed.

(** Only [Stop] closes the stop channel. *)
Lemma do_action_stopCh (a : action) (h h' : Hub) :
  clients_ok h -> do_action a h = Stepped h' ->
  stopCh h' = stopCh h \/ a = AStop.
Proof.
  intros Hok.
  assert (Hflush : forall h0 h1, clients_ok h0 -> of_option (flush h0) = Stepped h1 ->
            stopCh h1 = stopCh h0).
  { intros h0 h1 H0 H1. destruct (Realtime.flush Marshal h0) as [h2|] eqn:E;
      [|discriminate]. injection H1 as <-.
    destruct (flush_cases h0 h2 H0 E) as ((_ & _ & _ & Hs & _) & _). exact Hs. }
  destruct a as [ev|c ok|e|c|]; cbn [Realtime.do_action]; [| | | |auto].
  - unfold Realtime.Run_step.
    destruct (running h); cbn [negb]; [|discriminate].
    destruct ev as [|c|c| |].
    + destruct (stopCh h) eqn:Hst; [|discriminate].
      destruct (Realtime.flush Marshal h) as [h1|] eqn:E; [|discriminate].
      cbn. intros [= <-]. left. cbn.
      rewrite <- Hst. apply Hflush; [exact Hok|]. rewrite E. reflexivity.
    + destruct (heap h !! c) as [cl|]; [|discriminate].
      destruct (pc cl); try discriminate. intros [= <-]. left. reflexivity.
    + destruct (heap h !! c) as [cl|]; [|discriminate].
      destruct (pc cl); try discriminate.
      destruct (bool_decide (c ∈ clients h)); intros [= <-]; left; reflexivity.
    + destruct (ch_buf (broadcast h)) as [|entry rest]; [discriminate|].
      match goal with |- (if ?b then _ else _) = _ -> _ => destruct b end.
      * intros H. left. apply Hflush in H; [exact H|exact Hok].
      * intros [= <-]. left. reflexivity.
    + intros H. left. apply Hflush in H; [exact H|exact Hok].
  - unfold writer_step. destruct (heap h !! c) as [cl|]; [|discriminate].
    destruct (pc cl); try discriminate.
    + destruct (ch_buf (send cl)).
      * destruct (ch_closed (send cl)); [|discriminate].
        intros [= <-]. left. reflexivity.
      * intros [= <-]. left. reflexivity.
    + intros [= <-]. left. reflexivity.
  - unfold Broadcast. destruct (try_send (broadcast h) e); try discriminate;
      intros [= <-]; left; reflexivity.
  - unfold HandleWebSocket. destruct (heap h !! c); [discriminate|].
    intros [= <-]. left. reflexivity.
Qed.

Lemma exec_panic (acts pre : list action) (h : Hub) :
  hub_inv h -> (stopCh h = true -> AStop ∈ pre) ->
  exec acts h = Panicked ->
  exists p q, acts = p ++ AStop :: q /\ AStop ∈ pre ++ p.
Proof.
  revert pre h. induction acts as [|a acts IH]; intros pre h Hinv Hpre;
    cbn [Realtime.exec]; [discriminate|].
  destruct (Realtime.do_action Marshal a h) as [h1| |] eqn:Ha; [|discriminate|].
  - intros Hp.
    destruct (IH (pre ++ [a]) h1) as (p & q & -> & Hin); [| |exact Hp|].
    + exact (do_action_inv Marshal a h h1 Hinv Ha).
    + intros Hs. destruct (do_action_stopCh a h h1) as [H| ->]; [apply Hinv|exact Ha| |].
      * apply elem_of_app. left. apply Hpre. congruence.
      * apply elem_of_app. right. left.
    + exists (a :: p), q. split; [reflexivity|].
      rewrite <- app_assoc in Hin. exact Hin.
  - intros _. destruct (do_action_panic Marshal a h Hinv Ha) as [-> Hs].
    exists [], acts. split; [reflexivity|]. rewrite app_nil_r. auto.
Qed.

(** X21: the hub panics on a second [Stop] only: a schedule from [NewHub]
    that panics has called [Stop] before, and panics in a further call of
    it; no send on a closed channel takes place. *)
Theorem hub_panics_on_second_Stop_only (callback : bool) (acts : list action) :
  exec acts (NewHub callback) = Panicked ->
  exists p q, acts = p ++ AStop :: q /\ AStop ∈ p.
Proof.
  intros H.
  destruct (exec_panic acts [] (NewHub callback) (NewHub_inv callback)) as (p & q & Hp);
    [discriminate|exact H|].
  exists p, q. exact Hp.
Qed.

(** *** The connection gauge *)

Lemma gauge_ok_same (h h' : Hub) :
  clients h' = clients h -> gauge h' = gauge h ->
  onConnectionChange h' = onConnectionChange h ->
  gauge_ok h -> gauge_ok h'.
Proof. unfold gauge_ok, reported. intros -> -> ->. auto. Qed.

Lemma gauge_ok_notify (h : Hub) :
  (onConnectionChange h = false -> gauge h = []) -> gauge_ok (notify h).
Proof.
  unfold gauge_ok, reported, notify. cbn.
  destruct (onConnectionChange h); [|auto].
  intros _. rewrite last_snoc. reflexivity.
Qed.

Lemma gauge_ok_quiet (h : Hub) :
  gauge_ok h -> onConnectionChange h = false -> gauge h = [].
Proof. unfold gauge_ok. intros H E. rewrite E in H. exact H. Qed.

Lemma flush_loop_gauge (data : list byte) (cs : list nat) (h h' : Hub) :
  gauge_ok h -> flush_loop data cs h = Some h' ->
  gauge_ok h' /\ onConnectionChange h' = onConnectionChange h.
Proof.
  revert h. induction cs as [|c cs IH]; intros h Hg; cbn [flush_loop].
  - intros [= <-]. auto.
  - unfold flush_client. destruct (heap h !! c) as [cl|]; [|discriminate].
    destruct (try_send (send cl) data) as [ch| |]; [| |discriminate].
    + intros H. apply IH in H as [H1 H2]; [auto|].
      revert Hg. apply gauge_ok_same; reflexivity.
    + intros H. apply IH in H as [H1 H2]; [auto|].
      apply gauge_ok_notify. cbn. apply gauge_ok_quiet, Hg.
Qed.

Lemma flush_gauge (h h' : Hub) :
  gauge_ok h -> flush h = Some h' ->
  gauge_ok h' /\ onConnectionChange h' = onConnectionChange h.
Proof.
  intros Hg. unfold Realtime.flush.
  destruct (buffer h) as [|e rest]; [intros [= <-]; auto|].
  destruct (Marshal (e :: rest)) as [data|err].
  - intros H. apply flush_loop_gauge in H; [exact H|].
    revert Hg. apply gauge_ok_same; reflexivity.
  - intros [= <-]. split; [|reflexivity].
    revert Hg. apply gauge_ok_same; reflexivity.
Qed.

Lemma do_action_gauge (a : action) (h h' : Hub) :
  gauge_ok h -> do_action a h = Stepped h' ->
  gauge_ok h' /\ onConnectionChange h' = onConnectionChange h.
Proof.
  intros Hg.
  assert (Hflush : forall h0 h1, gauge_ok h0 -> of_option (flush h0) = Stepped h1 ->
            gauge_ok h1 /\ onConnectionChange h1 = onConnectionChange h0).
  { intros h0 h1 H0 H1. destruct (Realtime.flush Marshal h0) as [h2|] eqn:E;
      [|discriminate]. injection H1 as <-. exact (flush_gauge h0 h2 H0 E). }
  assert (Hsame : forall h1, clients h1 = clients h -> gauge h1 = gauge h ->
            onConnectionChange h1 = onConnectionChange h ->
            gauge_ok h1 /\ onConnectionChange h1 = onConnectionChange h).
  { intros h1 H1 H2 H3. split; [|exact H3]. exact (gauge_ok_same h h1 H1 H2 H3 Hg). }
  destruct a as [ev|c ok|e|c|]; cbn [Realtime.do_action].
  - unfold Realtime.Run_step.
    destruct (running h); cbn [negb]; [|discriminate].
    destruct ev as [|c|c| |].
    + destruct (stopCh h); [|discriminate].
      destruct (Realtime.flush Marshal h) as [h1|] eqn:E; [|discriminate].
      cbn. intros [= <-]. destruct (flush_gauge h h1 Hg E) as [H1 H2].
      split; [|exact H2]. revert H1. apply gauge_ok_same; reflexivity.
    + destruct (heap h !! c) as [cl|]; [|discriminate].
      destruct (pc cl); try discriminate. intros [= <-].
      split; [|reflexivity]. apply gauge_ok_notify. cbn. apply gauge_ok_quiet, Hg.
    + destruct (heap h !! c) as [cl|]; [|discriminate].
      destruct (pc cl); try discriminate.
      destruct (bool_decide (c ∈ clients h)); intros [= <-].
      * split; [|reflexivity]. apply gauge_ok_notify. cbn. apply gauge_ok_quiet, Hg.
      * apply Hsame; reflexivity.
    + destruct (ch_buf (broadcast h)) as [|entry rest]; [discriminate|].
      match goal with |- (if ?b then _ else _) = _ -> _ => destruct b end.
      * intros H. apply Hflush in H; [exact H|].
        revert Hg. apply gauge_ok_same; reflexivity.
      * intros [= <-]. apply Hsame; reflexivity.
    + apply Hflush, Hg.
  - unfold writer_step. destruct (heap h !! c) as [cl|]; [|discriminate].
    destruct (pc cl); try discriminate.
    + destruct (ch_buf (send cl)).
      * destruct (ch_closed (send cl)); [|discriminate].
        intros [= <-]. apply Hsame; reflexivity.
      * intros [= <-]. apply Hsame; reflexivity.
    + intros [= <-]. apply Hsame; reflexivity.
  - unfold Broadcast. destruct (try_send (broadcast h) e); try discriminate;
      intros [= <-]; apply Hsame; reflexivity.
  - unfold HandleWebSocket. destruct (heap h !! c); [discriminate|].
    intros [= <-]. apply Hsame; reflexivity.
  - unfold Stop. destruct (stopCh h); [discriminate|].
    intros [= <-]. apply Hsame; reflexivity.
Qed.

Lemma exec_gauge (acts : list action) (h h' : Hub) :
  gauge_ok h -> exec acts h = Stepped h' ->
  gauge_ok h' /\ onConnectionChange h' = onConnectionChange h.
Proof.
  revert h. induction acts as [|a acts IH]; intros h Hg; cbn [Realtime.exec].
  - intros [= <-]. auto.
  - destruct (Realtime.do_action Marshal a h) as [h1| |] eqn:Ha; try discriminate.
    destruct (do_action_gauge a h h1 Hg Ha) as [H1 H2].
    intros H. apply IH in H as [H3 H4]; [|exact H1]. split; [exact H3|congruence].
Qed.

(** X22: the gauge is never stale: on every schedule from [NewHub] with a
    callback, the count the callback was last called with (zero before the
    first call) is the number of registered clients; without a callback no
    call is made. *)
Theorem gauge_tracks_clients (callback : bool) (acts : list action) (h : Hub) :
  exec acts (NewHub callback) = Stepped h ->
  (callback = true -> reported h = size (clients h))
  /\ (callback = false -> gauge h = []).
Proof.
  intros H. destruct (exec_gauge acts (NewHub callback) h) as [Hg Hc]; [|exact H|].
  - unfold gauge_ok, reported. cbn. destruct callback; reflexivity.
  - unfold gauge_ok in Hg. cbn in Hc. rewrite Hc in Hg.
    split; intros ->; exact Hg.
Qed.

(** *** The queues stay within their capacities *)

Lemma heap_update (P : client -> Prop) (m : gmap nat client) (c : nat) (cl' : client) :
  (forall c0 cl0, m !! c0 = Some cl0 -> P cl0) -> P cl' ->
  forall c0 cl0, <[c := cl']> m !! c0 = Some cl0 -> P cl0.
Proof.
  intros Hm Hcl c0 cl0 H. apply lookup_insert_Some in H as [[_ <-]|[_ H]]; eauto.
Qed.

Lemma deliver_length (data : list byte) (cl : client) :
  client_ok cl -> (length (ch_buf (send (deliver data cl))) <= 256)%nat.
Proof.
  intros (_ & Hcap & Hlen). unfold deliver, full.
  destruct (Nat.leb_spec (ch_cap (send cl)) (length (ch_buf (send cl)))); cbn.
  - exact Hlen.
  - rewrite length_app. cbn. lia.
Qed.

Lemma flush_queues (h h' : Hub) :
  clients_ok h -> flush h = Some h' ->
  (forall c cl, heap h !! c = Some cl -> (length (ch_buf (send cl)) <= 256)%nat) ->
  broadcast h' = broadcast h
  /\ forall c cl, heap h' !! c = Some cl -> (length (ch_buf (send cl)) <= 256)%nat.
Proof.
  intros Hok Hf Hq.
  destruct (flush_cases h h' Hok Hf) as ((Hb & _) & _).
  split; [exact Hb|]. intros c cl Hc.
  destruct (flush_heap_cases Marshal h h' Hok Hf c) as [E|(data & cl0 & Hin & H0 & H1)].
  - rewrite E in Hc. eauto.
  - rewrite H1 in Hc. injection Hc as <-. apply deliver_length.
    destruct (Hok c Hin) as (cl1 & Hcl1 & Hok1). congruence.
Qed.

Lemma do_action_bounded (a : action) (h h' : Hub) :
  hub_inv h -> bounded h -> do_action a h = Stepped h' -> bounded h'.
Proof.
  intros Hinv (Hb & _ & Hq) Ha.
  pose proof (do_action_inv Marshal a h h' Hinv Ha) as Hinv'.
  assert (Hbuf : (length (buffer h') < 100)%nat) by apply Hinv'.
  assert (Hok : clients_ok h) by apply Hinv.
  assert (Hcap : ch_cap (broadcast h) = 5000%nat) by apply Hinv.
  unfold bounded. split; [|split; [exact Hbuf|]]; revert Ha; clear Hbuf Hinv'.
  - (* the broadcast channel *)
    assert (Hflush : forall h0 h1, clients_ok h0 -> heap h0 = heap h ->
              of_option (flush h0) = Stepped h1 -> broadcast h1 = broadcast h0).
    { intros h0 h1 H0 Hh H1. destruct (Realtime.flush Marshal h0) as [h2|] eqn:E;
        [|discriminate]. injection H1 as <-.
      apply (flush_queues h0 h2 H0 E). rewrite Hh. exact Hq. }
    destruct a as [ev|c ok|e|c|]; cbn [Realtime.do_action].
    + unfold Realtime.Run_step.
      destruct (running h); cbn [negb]; [|discriminate].
      destruct ev as [|c|c| |].
      * destruct (stopCh h); [|discriminate].
        destruct (Realtime.flush Marshal h) as [h1|] eqn:E; [|discriminate].
        cbn. intros [= <-]. cbn.
        rewrite (Hflush h h1 Hok eq_refl); [exact Hb|rewrite E; reflexivity].
      * destruct (heap h !! c) as [cl|]; [|discriminate].
        destruct (pc cl); try discriminate. intros [= <-]. exact Hb.
      * destruct (heap h !! c) as [cl|]; [|discriminate].
        destruct (pc cl); try discriminate.
        destruct (bool_decide (c ∈ clients h)); intros [= <-]; exact Hb.
      * destruct (ch_buf (broadcast h)) as [|entry rest] eqn:Hbr; [discriminate|].
        cbn in Hb.
        match goal with |- (if ?b then _ else _) = _ -> _ => destruct b end.
        -- intros H. apply Hflush in H; [|exact Hok|reflexivity].
           rewrite H. cbn. lia.
        -- intros [= <-]. cbn. lia.
      * intros H. apply Hflush in H; [|exact Hok|reflexivity]. rewrite H. exact Hb.
    + unfold writer_step. destruct (heap h !! c) as [cl|]; [|discriminate].
      destruct (pc cl); try discriminate.
      * destruct (ch_buf (send cl)).
        -- destruct (ch_closed (send cl)); [|discriminate].
           intros [= <-]. exact Hb.
        -- intros [= <-]. exact Hb.
      * intros [= <-]. exact Hb.
    + unfold Broadcast, try_send. destruct (ch_closed (broadcast h)); [discriminate|].
      destruct (Nat.ltb_spec (length (ch_buf (broadcast h))) (ch_cap (broadcast h)));
        intros [= <-]; [|exact Hb].
      cbn. rewrite length_app. cbn. lia.
    + unfold HandleWebSocket. destruct (heap h !! c); [discriminate|].
      intros [= <-]. exact Hb.
    + unfold Stop. destruct (stopCh h); [discriminate|].
      intros [= <-]. exact Hb.
  - (* the channels of the clients *)
    assert (Hflush : forall h0 h1, clients_ok h0 -> heap h0 = heap h ->
              of_option (flush h0) = Stepped h1 ->
              forall c cl, heap h1 !! c = Some cl ->
                           (length (ch_buf (send cl)) <= 256)%nat).
    { intros h0 h1 H0 Hh H1. destruct (Realtime.flush Marshal h0) as [h2|] eqn:E;
        [|discriminate]. injection H1 as <-.
      apply (flush_queues h0 h2 H0 E). rewrite Hh. exact Hq. }
    destruct a as [ev|c ok|e|c|]; cbn [Realtime.do_action].
    + unfold Realtime.Run_step.
      destruct (running h); cbn [negb]; [|discriminate].
      destruct ev as [|c|c| |].
      * destruct (stopCh h); [|discriminate].
        destruct (Realtime.flush Marshal h) as [h1|] eqn:E; [|discriminate].
        cbn. intros [= <-]. cbn.
        apply (Hflush h h1 Hok eq_refl). rewrite E. reflexivity.
      * destruct (heap h !! c) as [cl|] eqn:Hc; [|discriminate].
        destruct (pc cl); try discriminate. intros [= <-]. cbn.
        apply heap_update; [exact Hq|]. cbn. exact (Hq c cl Hc).
      * destruct (heap h !! c) as [cl|] eqn:Hc; [|discriminate].
        destruct (pc cl); try discriminate.
        destruct (bool_decide (c ∈ clients h)); intros [= <-]; cbn;
          (apply heap_update; [exact Hq|]); cbn; exact (Hq c cl Hc).
      * destruct (ch_buf (broadcast h)) as [|entry rest] eqn:Hbr; [discriminate|].
        match goal with |- (if ?b then _ else _) = _ -> _ => destruct b end.
        -- intros H. eapply Hflush; [| |exact H]; [exact Hok|reflexivity].
        -- intros [= <-]. exact Hq.
      * intros H. eapply Hflush; [| |exact H]; [exact Hok|reflexivity].
    + unfold writer_step. destruct (heap h !! c) as [cl|] eqn:Hc; [|discriminate].
      pose proof (Hq c cl Hc) as Hlen.
      destruct (pc cl); try discriminate.
      * destruct (ch_buf (send cl)) as [|msg rest] eqn:Hbufc.
        -- destruct (ch_closed (send cl)); [|discriminate].
           intros [= <-]. cbn. apply heap_update; [exact Hq|].
           cbn. rewrite Hbufc. cbn. lia.
        -- intros [= <-]. cbn. apply heap_update; [exact Hq|].
           cbn in Hlen. destruct ok; cbn; lia.
      * intros [= <-]. cbn. apply heap_update; [exact Hq|]. exact Hlen.
    + unfold Broadcast. destruct (try_send (broadcast h) e); try discriminate;
        intros [= <-]; exact Hq.
    + unfold HandleWebSocket. destruct (heap h !! c); [discriminate|].
      intros [= <-]. cbn. apply heap_update; [exact Hq|]. cbn. lia.
    + unfold Stop. destruct (stopCh h); [discriminate|].
      intros [= <-]. exact Hq.
Qed.

Lemma exec_bounded (acts : list action) (h h' : Hub) :
  hub_inv h -> bounded h -> exec acts h = Stepped h' -> bounded h'.
Proof.
  revert h. induction acts as [|a acts IH]; intros h Hinv Hb; cbn [Realtime.exec].
  - intros [= <-]. exact Hb.
  - destruct (Realtime.do_action Marshal a h) as [h1| |] eqn:Ha; try discriminate.
    apply IH.
    + exact (do_action_inv Marshal a h h1 Hinv Ha).
    + exact (do_action_bounded a h h1 Hinv Hb Ha).
Qed.

(** X23: the memory of the hub is bounded: on every schedule from
    [NewHub] the broadcast channel holds at most 5000 entries, the buffer
    fewer than 100, and the channel of every client, registered or not, at
    most 256 messages. *)
Theorem hub_queues_bounded (callback : bool) (acts : list action) (h : Hub) :
  exec acts (NewHub callback) = Stepped h ->
  (length (ch_buf (broadcast h)) <= 5000)%nat
  /\ (length (buffer h) < 100)%nat
  /\ forall c cl, heap h !! c = Some cl -> (length (ch_buf (send cl)) <= 256)%nat.
Proof.
  apply exec_bounded; [apply NewHub_inv|].
  unfold bounded. cbn. split; [lia|]. split; [lia|].
  intros c cl H. rewrite lookup_empty in H. discriminate.
Qed.

(** *** What a client is sent *)

Abbreviation follows := (follows Marshal).
Abbreviation batch_message := (batch_message Marshal).

Lemma follows_refl (cl : client) : follows cl cl.
Proof.
  split; [exists []; rewrite app_nil_r; reflexivity|].
  intros H. split; [exact H|]. exists []. rewrite app_nil_r. split; [reflexivity|constructor].
Qed.

Lemma follows_trans (cl1 cl2 cl3 : client) :
  follows cl1 cl2 -> follows cl2 cl3 -> follows cl1 cl3.
Proof.
  intros [[m1 Hw1] H1] [[m2 Hw2] H2]. split.
  - exists (m1 ++ m2). rewrite Hw2, Hw1, app_assoc. reflexivity.
  - intros H3. destruct (H2 H3) as (Hwr2 & n2 & Hs2 & Hf2).
    destruct (H1 Hwr2) as (Hwr1 & n1 & Hs1 & Hf1).
    split; [exact Hwr1|]. exists (n1 ++ n2).
    split; [rewrite Hs2, Hs1, app_assoc; reflexivity|].
    apply Forall_app. auto.
Qed.

Lemma follows_stopped (cl cl' : client) :
  wire cl' = wire cl -> ~ writing cl' -> follows cl cl'.
Proof.
  intros Hw Hn. split; [exists []; rewrite app_nil_r; exact Hw|].
  intros H. contradiction.
Qed.

Lemma follows_same_stream (cl cl' : client) (more : list (list byte)) :
  wire cl' = wire cl ++ more -> stream cl' = stream cl -> writing cl ->
  follows cl cl'.
Proof.
  intros Hw Hs Hwr. split; [eauto|]. intros _. split; [exact Hwr|].
  exists []. rewrite app_nil_r. split; [exact Hs|constructor].
Qed.

Lemma follows_deliver (data : list byte) (cl : client) :
  batch_message data -> follows cl (deliver data cl).
Proof.
  intros Hd. unfold deliver. split.
  - exists []. rewrite app_nil_r. destruct (full cl); reflexivity.
  - intros Hwr. split; [destruct (full cl); exact Hwr|].
    destruct (full cl).
    + exists []. rewrite app_nil_r. split; [reflexivity|constructor].
    + exists [data]. split; [|repeat constructor; exact Hd].
      unfold stream. cbn. rewrite app_assoc. reflexivity.
Qed.

Lemma flush_follows (h h' : Hub) (c : nat) (cl : client) :
  clients_ok h -> flush h = Some h' -> heap h !! c = Some cl ->
  exists cl', heap h' !! c = Some cl' /\ follows cl cl'.
Proof.
  intros Hok Hf Hc.
  destruct (flush_cases h h' Hok Hf)
    as (_ & _ & [[_ Hh]|(data & Hne & Hm & _ & Hin & Hout)]).
  - exists cl. rewrite Hh. split; [exact Hc|apply follows_refl].
  - destruct (decide (c ∈ clients h)) as [Hcl|Hcl].
    + exists (deliver data cl). rewrite (Hin c Hcl), Hc. split; [reflexivity|].
      apply follows_deliver. exists (buffer h). auto.
    + exists cl. rewrite (Hout c Hcl). split; [exact Hc|apply follows_refl].
Qed.

Lemma update_follows (m : gmap nat client) (c0 c : nat) (cl0 cl0' cl : client) :
  m !! c0 = Some cl0 -> follows cl0 cl0' -> m !! c = Some cl ->
  exists cl', <[c0 := cl0']> m !! c = Some cl' /\ follows cl cl'.
Proof.
  intros H0 Hf Hc. destruct (decide (c0 = c)) as [->|Hne].
  - rewrite lookup_insert_eq. exists cl0'. split; [reflexivity|]. congruence.
  - rewrite lookup_insert_ne by exact Hne. exists cl. split; [exact Hc|apply follows_refl].
Qed.

Lemma do_action_follows (a : action) (h h' : Hub) (c : nat) (cl : client) :
  hub_inv h -> do_action a h = Stepped h' -> heap h !! c = Some cl ->
  exists cl', heap h' !! c = Some cl' /\ follows cl cl'.
Proof.
  intros Hinv Ha Hc. assert (Hok : clients_ok h) by apply Hinv.
  assert (Hsame : exists cl', heap h !! c = Some cl' /\ follows cl cl')
    by (exists cl; split; [exact Hc|apply follows_refl]).
  assert (Hflush : forall h0 h1, clients_ok h0 -> heap h0 = heap h ->
            of_option (flush h0) = Stepped h1 ->
            exists cl', heap h1 !! c = Some cl' /\ follows cl cl').
  { intros h0 h1 H0 Hh H1. destruct (Realtime.flush Marshal h0) as [h2|] eqn:E;
      [|discriminate]. injection H1 as <-.
    apply (flush_follows h0 h2 c cl H0 E). rewrite Hh. exact Hc. }
  revert Ha. destruct a as [ev|c0 ok|e|c0|]; cbn [Realtime.do_action].
  - unfold Realtime.Run_step.
    destruct (running h); cbn [negb]; [|discriminate].
    destruct ev as [|c0|c0| |].
    + destruct (stopCh h); [|discriminate].
      destruct (Realtime.flush Marshal h) as [h1|] eqn:E; [|discriminate].
      cbn. intros [= <-]. cbn.
      apply (Hflush h h1 Hok eq_refl). rewrite E. reflexivity.
    + destruct (heap h !! c0) as [cl0|] eqn:H0; [|discriminate].
      destruct (pc cl0) eqn:Hpc; try discriminate. intros [= <-]. cbn.
      apply (update_follows _ _ _ cl0); [exact H0| |exact Hc].
      apply (follows_same_stream _ _ []); [rewrite app_nil_r; reflexivity|reflexivity|].
      left. exact Hpc.
    + destruct (heap h !! c0) as [cl0|] eqn:H0; [|discriminate].
      destruct (pc cl0) eqn:Hpc; try discriminate.
      destruct (bool_decide (c0 ∈ clients h)); intros [= <-]; cbn;
        (apply (update_follows _ _ _ cl0); [exact H0| |exact Hc]);
        (apply follows_stopped; [reflexivity|]);
        intros [H|H]; discriminate.
    + destruct (ch_buf (broadcast h)) as [|entry rest]; [discriminate|].
      match goal with |- (if ?b then _ else _) = _ -> _ => destruct b end.
      * intros H. eapply Hflush; [| |exact H]; [exact Hok|reflexivity].
      * intros [= <-]. exact Hsame.
    + intros H. eapply Hflush; [| |exact H]; [exact Hok|reflexivity].
  - unfold writer_step. destruct (heap h !! c0) as [cl0|] eqn:H0; [|discriminate].
    destruct (pc cl0) eqn:Hpc; try discriminate.
    + destruct (ch_buf (send cl0)) as [|msg rest] eqn:Hbuf.
      * destruct (ch_closed (send cl0)); [|discriminate].
        intros [= <-]. cbn.
        apply (update_follows _ _ _ cl0); [exact H0| |exact Hc].
        apply follows_stopped; [reflexivity|]. intros [H|H]; discriminate.
      * intros [= <-]. cbn.
        apply (update_follows _ _ _ cl0); [exact H0| |exact Hc].
        destruct ok.
        -- apply (follows_same_stream _ _ [msg]); [reflexivity| |right; exact Hpc].
           unfold stream. cbn. rewrite Hbuf, <- app_assoc. reflexivity.
        -- apply follows_stopped; [reflexivity|]. intros [H|H]; discriminate.
    + intros [= <-]. cbn.
      apply (update_follows _ _ _ cl0); [exact H0| |exact Hc].
      apply follows_stopped; [reflexivity|]. intros [H|H]; discriminate.
  - unfold Broadcast. destruct (try_send (broadcast h) e); try discriminate;
      intros [= <-]; exact Hsame.
  - unfold HandleWebSocket. destruct (heap h !! c0) eqn:H0; [discriminate|].
    intros [= <-]. cbn. exists cl. split; [|apply follows_refl].
    rewrite lookup_insert_ne; [exact Hc|]. intros ->. congruence.
  - unfold Stop. destruct (stopCh h); [discriminate|].
    intros [= <-]. exact Hsame.
Qed.

(** X24: what a client is sent: along every schedule, whatever was written
    to its connection stays written, in the same order; and as long as its
    writer has met no failed write and no closed channel, the messages
    written and queued for it grow at the end only, by the JSON texts of
    batches that are not empty: no message is lost, doubled or put before
    an earlier one. *)
Theorem client_stream_in_order (acts : list action) (h h' : Hub) (c : nat)
    (cl : client) :
  hub_inv h -> exec acts h = Stepped h' -> heap h !! c = Some cl ->
  exists cl', heap h' !! c = Some cl'
    /\ (exists more, wire cl' = wire cl ++ more)
    /\ (writing cl' ->
        writing cl
        /\ exists new, stream cl' = stream cl ++ new /\ Forall batch_message new).
Proof.
  revert h cl. induction acts as [|a acts IH]; intros h cl Hinv; cbn [Realtime.exec].
  - intros [= <-] Hc. exists cl. split; [exact Hc|apply follows_refl].
  - destruct (Realtime.do_action Marshal a h) as [h1| |] eqn:Ha; try discriminate.
    intros He Hc.
    destruct (do_action_follows a h h1 c cl Hinv Ha Hc) as (cl1 & Hc1 & Hf1).
    destruct (IH h1 cl1 (do_action_inv Marshal a h h1 Hinv Ha) He Hc1)
      as (cl' & Hc' & Hf').
    exists cl'. split; [exact Hc'|].
    exact (follows_trans cl cl1 cl' Hf1 Hf').
Qed.

(** *** The clients removed are the clients whose channel is closed *)

Lemma flush_removed (h h' : Hub) :
  clients_ok h -> closed_when_removed h -> flush h = Some h' ->
  closed_when_removed h'.
Proof.
  intros Hok Hcw Hf.
  destruct (flush_spec Marshal h Hok) as (h1 & Hf1 & _ & _ & _ & Hsend & Hnone).
  rewrite Hf in Hf1. injection Hf1 as <-.
  destruct (buffer h) as [|e rest] eqn:Hbuf.
  { destruct Hnone as [Hc Hh]; [auto|]. unfold closed_when_removed.
    rewrite Hc, Hh. exact Hcw. }
  destruct (Marshal (e :: rest)) as [data|err] eqn:Hm.
  2:{ destruct Hnone as [Hc Hh]; [right; eauto|]. unfold closed_when_removed.
      rewrite Hc, Hh. exact Hcw. }
  destruct (Hsend data) as (Hc & Hin & Hout); [discriminate|reflexivity|].
  intros c cl' Hcl' Hnot.
  destruct (decide (c ∈ clients h)) as [Hreg|Hreg].
  - rewrite (Hin c Hreg) in Hcl'.
    destruct (heap h !! c) as [cl|] eqn:Hcl; [|discriminate].
    injection Hcl' as <-. right.
    assert (Hfull : full cl = true).
    { destruct (full cl) eqn:E; [reflexivity|]. exfalso. apply Hnot, Hc.
      split; [exact Hreg|]. intros (cl0 & H0 & H1). congruence. }
    unfold deliver. rewrite Hfull. reflexivity.
  - rewrite (Hout c Hreg) in Hcl'. exact (Hcw c cl' Hcl' Hreg).
Qed.

Lemma removed_update (h : Hub) (s : gset nat) (c0 : nat) (cl0' : client) :
  closed_when_removed h ->
  (forall c, c ∉ s -> c <> c0 -> c ∉ clients h) ->
  (c0 ∉ s -> pc cl0' = AtRegister \/ ch_closed (send cl0') = true) ->
  forall c cl, <[c0 := cl0']> (heap h) !! c = Some cl -> c ∉ s ->
               pc cl = AtRegister \/ ch_closed (send cl) = true.
Proof.
  intros Hcw Hs H0 c cl Hc Hnot.
  apply lookup_insert_Some in Hc as [[<- <-]|[Hne Hc]]; [auto|].
  apply (Hcw c cl Hc). apply Hs; [exact Hnot|congruence].
Qed.

Lemma do_action_removed (a : action) (h h' : Hub) :
  hub_inv h -> closed_when_removed h -> do_action a h = Stepped h' ->
  closed_when_removed h'.
Proof.
  intros Hinv Hcw. assert (Hok : clients_ok h) by apply Hinv.
  assert (Hflush : forall h0 h1, clients_ok h0 -> closed_when_removed h0 ->
            of_option (flush h0) = Stepped h1 -> closed_when_removed h1).
  { intros h0 h1 H0 H0' H1. destruct (Realtime.flush Marshal h0) as [h2|] eqn:E;
      [|discriminate]. injection H1 as <-. exact (flush_removed h0 h2 H0 H0' E). }
  destruct a as [ev|c0 ok|e|c0|]; cbn [Realtime.do_action].
  - unfold Realtime.Run_step.
    destruct (running h); cbn [negb]; [|discriminate].
    destruct ev as [|c0|c0| |].
    + destruct (stopCh h); [|discriminate].
      destruct (Realtime.flush Marshal h) as [h1|] eqn:E; [|discriminate].
      cbn. intros [= <-]. exact (flush_removed h h1 Hok Hcw E).
    + destruct (heap h !! c0) as [cl0|] eqn:H0; [|discriminate].
      destruct (pc cl0) eqn:Hpc; try discriminate. intros [= <-].
      unfold closed_when_removed. cbn.
      apply removed_update; [exact Hcw| |].
      * intros c Hc Hne Hin. apply Hc. apply elem_of_union. right. exact Hin.
      * intros Hc. exfalso. apply Hc. apply elem_of_union. left.
        apply elem_of_singleton. reflexivity.
    + destruct (heap h !! c0) as [cl0|] eqn:H0; [|discriminate].
      destruct (pc cl0) eqn:Hpc; try discriminate.
      destruct (bool_decide (c0 ∈ clients h)) eqn:Hb; intros [= <-];
        unfold closed_when_removed; cbn.
      * apply removed_update; [exact Hcw| |].
        -- intros c Hc Hne Hin. apply Hc. apply elem_of_difference.
           split; [exact Hin|]. intros H. apply elem_of_singleton in H. contradiction.
        -- intros _. right. reflexivity.
      * apply bool_decide_eq_false in Hb.
        apply removed_update; [exact Hcw|auto|].
        intros _. cbn. destruct (Hcw c0 cl0 H0 Hb) as [H|H]; [congruence|auto].
    + destruct (ch_buf (broadcast h)) as [|entry rest]; [discriminate|].
      match goal with |- (if ?b then _ else _) = _ -> _ => destruct b end.
      * intros H. eapply Hflush; [| |exact H]; [exact Hok|exact Hcw].
      * intros [= <-]. exact Hcw.
    + intros H. eapply Hflush; [| |exact H]; [exact Hok|exact Hcw].
  - unfold writer_step. destruct (heap h !! c0) as [cl0|] eqn:H0; [|discriminate].
    assert (Hkeep : forall cl0', ch_closed (send cl0') = ch_closed (send cl0) ->
              pc cl0 <> AtRegister ->
              closed_when_removed (set_heap h (<[c0 := cl0']> (heap h)))).
    { intros cl0' Hcl Hpc0. unfold closed_when_removed. cbn.
      apply removed_update; [exact Hcw|auto|].
      intros Hc. right. rewrite Hcl.
      destruct (Hcw c0 cl0 H0 Hc) as [H|H]; [contradiction|exact H]. }
    destruct (pc cl0) eqn:Hpc; try discriminate.
    + destruct (ch_buf (send cl0)) as [|msg rest] eqn:Hbuf.
      * destruct (ch_closed (send cl0)) eqn:Hcl; [|discriminate].
        intros [= <-]. apply Hkeep; [exact Hcl|discriminate].
      * intros [= <-]. apply Hkeep; [destruct ok; reflexivity|discriminate].
    + intros [= <-]. apply Hkeep; [reflexivity|discriminate].
  - unfold Broadcast. destruct (try_send (broadcast h) e); try discriminate;
      intros [= <-]; exact Hcw.
  - unfold HandleWebSocket. destruct (heap h !! c0) eqn:H0; [discriminate|].
    intros [= <-]. unfold closed_when_removed. cbn.
    apply removed_update; [exact Hcw|auto|]. intros _. left. reflexivity.
  - unfold Stop. destruct (stopCh h); [discriminate|].
    intros [= <-]. exact Hcw.
Qed.

Lemma exec_removed (acts : list action) (h h' : Hub) :
  hub_inv h -> closed_when_removed h -> exec acts h = Stepped h' ->
  closed_when_removed h'.
Proof.
  revert h. induction acts as [|a acts IH]; intros h Hinv Hcw; cbn [Realtime.exec].
  - intros [= <-]. exact Hcw.
  - destruct (Realtime.do_action Marshal a h) as [h1| |] eqn:Ha; try discriminate.
    apply IH.
    + exact (do_action_inv Marshal a h h1 Hinv Ha).
    + exact (do_action_removed a h h1 Hinv Hcw Ha).
Qed.

(** X25: the hub closes the channel of exactly the clients it removes:
    on every schedule from [NewHub], a client is registered if and only if
    it has got past its registration and its send channel is open.  So both
    places that close a channel, which take a registered client, close an
    open channel, and no client is left unregistered with an open
    channel. *)
Theorem registered_iff_channel_open (callback : bool) (acts : list action)
    (h : Hub) (c : nat) (cl : client) :
  exec acts (NewHub callback) = Stepped h ->
  heap h !! c = Some cl ->
  (c ∈ clients h <-> pc cl <> AtRegister /\ ch_closed (send cl) = false).
Proof.
  intros He Hc.
  pose proof (exec_inv Marshal acts _ h (NewHub_inv callback) He)
    as (_ & _ & _ & _ & _ & Hok & Hreg & _).
  assert (Hcw : closed_when_removed h).
  { apply (exec_removed acts (NewHub callback) h (NewHub_inv callback)); [|exact He].
    intros c0 cl0 H0. cbn in H0. rewrite lookup_empty in H0. discriminate. }
  split.
  - intros Hin. split; [exact (Hreg c cl Hin Hc)|].
    destruct (Hok c Hin) as (cl' & Hc' & Hopen & _). congruence.
  - intros [Hpc Hopen]. destruct (decide (c ∈ clients h)) as [Hin|Hnot]; [exact Hin|].
    destruct (Hcw c cl Hc Hnot) as [H|H]; congruence.
Qed.

(** *** After [Run] has returned *)

Lemma drained_refl (cl : client) : drained cl cl.
Proof. split; [auto|]. split; [reflexivity|]. exists []. reflexivity. Qed.

Lemma drained_trans (cl1 cl2 cl3 : client) :
  drained cl1 cl2 -> drained cl2 cl3 -> drained cl1 cl3.
Proof.
  intros (Hr1 & Hc1 & t1 & Hb1) (Hr2 & Hc2 & t2 & Hb2). split; [|split].
  - intros H. rewrite <- (Hr1 H). apply Hr2. rewrite (Hr1 H). exact H.
  - congruence.
  - exists (t1 ++ t2). rewrite Hb1, Hb2, app_assoc. reflexivity.
Qed.

Lemma do_action_returned_idle (a : action) (h h' : Hub) :
  running h = false -> do_action a h = Stepped h' ->
  running h' = false /\ clients h' = clients h /\ buffer h' = buffer h
  /\ gauge h' = gauge h
  /\ (exists more, ch_buf (broadcast h') = ch_buf (broadcast h) ++ more)
  /\ (forall c, heap h' !! c = None -> heap h !! c = None)
  /\ (forall c cl', heap h' !! c = Some cl' ->
        (exists cl, heap h !! c = Some cl /\ drained cl cl')
        \/ (heap h !! c = None /\ cl' = new_client)).
Proof.
  intros Hrun.
  assert (Hsame : running h = false /\ clients h = clients h /\ buffer h = buffer h
            /\ gauge h = gauge h
            /\ (exists more, ch_buf (broadcast h) = ch_buf (broadcast h) ++ more)
            /\ (forall c, heap h !! c = None -> heap h !! c = None)
            /\ (forall c cl', heap h !! c = Some cl' ->
                  (exists cl, heap h !! c = Some cl /\ drained cl cl')
                  \/ (heap h !! c = None /\ cl' = new_client))).
  { repeat (split; [auto; fail|]). split; [exists []; rewrite app_nil_r; reflexivity|].
    split; [auto|]. intros c cl' H. left. exists cl'. split; [exact H|apply drained_refl]. }
  assert (Hupd : forall c0 cl0 cl0', heap h !! c0 = Some cl0 -> drained cl0 cl0' ->
            (forall c, <[c0 := cl0']> (heap h) !! c = None -> heap h !! c = None)
            /\ (forall c cl', <[c0 := cl0']> (heap h) !! c = Some cl' ->
                  (exists cl, heap h !! c = Some cl /\ drained cl cl')
                  \/ (heap h !! c = None /\ cl' = new_client))).
  { intros c0 cl0 cl0' H0 Hd. split.
    - intros c H. apply lookup_insert_None in H. tauto.
    - intros c cl' H. left. apply lookup_insert_Some in H as [[<- <-]|[_ H]].
      + exists cl0. auto.
      + exists cl'. split; [exact H|apply drained_refl]. }
  destruct a as [ev|c0 ok|e|c0|]; cbn [Realtime.do_action].
  - unfold Realtime.Run_step. rewrite Hrun. discriminate.
  - unfold writer_step. destruct (heap h !! c0) as [cl0|] eqn:H0; [|discriminate].
    destruct (pc cl0) eqn:Hpc; try discriminate.
    + destruct (ch_buf (send cl0)) as [|msg rest] eqn:Hbuf.
      * destruct (ch_closed (send cl0)); [|discriminate].
        intros [= <-]. cbn. repeat (split; [auto; fail|]).
        split; [exists []; rewrite app_nil_r; reflexivity|].
        apply (Hupd c0 cl0); [exact H0|].
        split; [congruence|]. split; [reflexivity|]. exists []. reflexivity.
      * intros [= <-]. cbn. repeat (split; [auto; fail|]).
        split; [exists []; rewrite app_nil_r; reflexivity|].
        apply (Hupd c0 cl0); [exact H0|].
        split; [congruence|]. split; [destruct ok; reflexivity|].
        exists [msg]. rewrite Hbuf. destruct ok; reflexivity.
    + intros [= <-]. cbn. repeat (split; [auto; fail|]).
      split; [exists []; rewrite app_nil_r; reflexivity|].
      apply (Hupd c0 cl0); [exact H0|].
      split; [congruence|]. split; [reflexivity|]. exists []. reflexivity.
  - unfold Broadcast, try_send. destruct (ch_closed (broadcast h)); [discriminate|].
    destruct (length (ch_buf (broadcast h)) <? ch_cap (broadcast h))%nat;
      intros [= <-]; [|exact Hsame].
    cbn. repeat (split; [auto; fail|]). split; [eauto|].
    split; [auto|]. intros c cl' H. left. exists cl'. split; [exact H|apply drained_refl].
  - unfold HandleWebSocket. destruct (heap h !! c0) eqn:H0; [discriminate|].
    intros [= <-]. cbn. repeat (split; [auto; fail|]).
    split; [exists []; rewrite app_nil_r; reflexivity|]. split.
    + intros c H. apply lookup_insert_None in H. tauto.
    + intros c cl' H. apply lookup_insert_Some in H as [[<- <-]|[_ H]].
      * right. auto.
      * left. exists cl'. split; [exact H|apply drained_refl].
  - unfold Stop. destruct (stopCh h); [discriminate|].
    intros [= <-]. exact Hsame.
Qed.

(** X26: once [Run] has returned, the hub delivers nothing: on every
    schedule no client is registered or unregistered and the callback is
    not called; the buffer stays as it is and the entries that [Broadcast]
    still accepts stay in the broadcast channel; no message is queued for
    a client and no channel is closed (a writer can only take what was
    queued before); and a websocket that connects stays as
    [HandleWebSocket] made it, waiting to be registered. *)
Theorem nothing_delivered_after_return (acts : list action) (h h' : Hub) :
  running h = false -> exec acts h = Stepped h' ->
  running h' = false /\ clients h' = clients h /\ buffer h' = buffer h
  /\ gauge h' = gauge h
  /\ (exists more, ch_buf (broadcast h') = ch_buf (broadcast h) ++ more)
  /\ (forall c cl', heap h' !! c = Some cl' ->
        (exists cl, heap h !! c = Some cl
           /\ (pc cl = AtRegister -> cl' = cl)
           /\ ch_closed (send cl') = ch_closed (send cl)
           /\ exists taken, ch_buf (send cl) = taken ++ ch_buf (send cl'))
        \/ (heap h !! c = None /\ cl' = new_client)).
Proof.
  revert h. induction acts as [|a acts IH]; intros h Hrun; cbn [Realtime.exec].
  - intros [= <-]. repeat (split; [auto; fail|]).
    split; [exists []; rewrite app_nil_r; reflexivity|].
    intros c cl' H. left. exists cl'. split; [exact H|apply drained_refl].
  - destruct (Realtime.do_action Marshal a h) as [h1| |] eqn:Ha; try discriminate.
    intros He.
    destruct (do_action_returned_idle a h h1 Hrun Ha)
      as (Hr1 & Hc1 & Hb1 & Hg1 & [m1 Hm1] & Hn1 & Hh1).
    destruct (IH h1 Hr1 He) as (Hr2 & Hc2 & Hb2 & Hg2 & [m2 Hm2] & Hh2).
    split; [exact Hr2|]. split; [congruence|]. split; [congruence|].
    split; [congruence|].
    split; [exists (m1 ++ m2); rewrite Hm2, Hm1, app_assoc; reflexivity|].
    intros c cl' Hc'.
    destruct (Hh2 c cl' Hc') as [(cl1 & Hcl1 & Hd2)|[Hnone ->]].
    + destruct (Hh1 c cl1 Hcl1) as [(cl & Hcl & Hd1)|[Hnone ->]].
      * left. exists cl. split; [exact Hcl|].
        exact (drained_trans cl cl1 cl' Hd1 Hd2).
      * right. split; [exact Hnone|]. apply Hd2. reflexivity.
    + right. split; [apply Hn1, Hnone|reflexivity].
Qed.

(** *** A client that was shed *)

(** The writer takes the queued messages one after the other, as long as
    its writes succeed. *)
Lemma writer_drains (c : nat) (k : nat) :
  forall (h : Hub) (cl : client),
  heap h !! c = Some cl -> pc cl = InRange ->
  (k <= length (ch_buf (send cl)))%nat ->
  exists h1,
    exec (replicate k (AWriter c true)) h = Stepped h1
    /\ heap h1 = <[c := mk_client (mk_chan (drop k (ch_buf (send cl)))
                                           (ch_cap (send cl)) (ch_closed (send cl)))
                                  (conn cl) (wire cl ++ take k (ch_buf (send cl)))
                                  InRange]> (heap h)
    /\ clients h1 = clients h /\ running h1 = running h /\ gauge h1 = gauge h.
Proof.
  induction k as [|k IH]; intros h cl Hc Hpc Hk.
  - exists h. cbn [replicate Realtime.exec]. split; [reflexivity|].
    split; [|auto]. rewrite drop_0, take_0, app_nil_r. symmetry. apply insert_id.
    rewrite Hc. f_equal. destruct cl as [[b cap cl0] cn w p]. cbn in *. congruence.
  - destruct (ch_buf (send cl)) as [|msg rest] eqn:Hbuf; [cbn in Hk; lia|].
    cbn [replicate Realtime.exec Realtime.do_action].
    unfold writer_step at 1. rewrite Hc, Hpc, Hbuf.
    set (cl1 := mk_client (mk_chan rest (ch_cap (send cl)) (ch_closed (send cl)))
                          (conn cl) (wire cl ++ [msg]) InRange).
    destruct (IH (set_heap h (<[c := cl1]> (heap h))) cl1)
      as (h1 & He & Hh & Hcl & Hr & Hg).
    + cbn. apply lookup_insert_eq.
    + reflexivity.
    + cbn in Hk |- *. lia.
    + exists h1. split; [exact He|]. split; [|auto].
      rewrite Hh. cbn. rewrite insert_insert_eq, <- app_assoc. reflexivity.
Qed.

(** X27: a client that the hub has shed is wound down in an orderly way,
    on the schedules where its writer takes its steps one after the other
    while [Run] goes on, the step of [Run] that unregisters it coming before
    the last: the writer writes the queued messages in their order until a
    write fails or the closed channel is empty; the message whose write
    failed is taken from the channel and not written, and the messages
    behind it stay in the channel, not written.  The writer then sends
    itself to be unregistered, which leaves the registered clients, the
    gauge and the closed channel as they are, and closes the connection
    with the status of a normal closure.  [k] is the number of writes that
    succeed. *)
Theorem shed_client_is_closed (h : Hub) (c : nat) (cl : client) (k : nat)
    (ok : bool) :
  running h = true ->
  heap h !! c = Some cl -> pc cl = InRange ->
  ch_closed (send cl) = true -> c ∉ clients h ->
  (k <= length (ch_buf (send cl)))%nat ->
  ((k < length (ch_buf (send cl)))%nat -> ok = false) ->
  exists h',
    exec (wind_down c k ok) h = Stepped h'
    /\ heap h' !! c
       = Some (mk_client (mk_chan (drop (Datatypes.S k) (ch_buf (send cl)))
                                  (ch_cap (send cl)) true)
                 (ConnClosed StatusNormalClosure "closing")
                 (wire cl ++ take k (ch_buf (send cl))) Finished)
    /\ clients h' = clients h /\ gauge h' = gauge h
    /\ (forall c0, c0 <> c -> heap h' !! c0 = heap h !! c0).
Proof.
  intros Hrun Hc Hpc Hclosed Hnot Hk Hok.
  destruct (writer_drains c k h cl Hc Hpc Hk) as (h1 & He & Hh & Hcl & Hr & Hg).
  unfold wind_down. rewrite exec_app, He.
  cbn [Realtime.exec Realtime.do_action].
  assert (Hnext : drop (Datatypes.S k) (ch_buf (send cl))
                  = drop 1 (drop k (ch_buf (send cl)))).
  { rewrite drop_drop. f_equal. lia. }
  rewrite Hnext.
  unfold writer_step at 1. rewrite Hh, lookup_insert_eq.
  cbn [pc send ch_buf ch_closed ch_cap conn wire].
  destruct (drop k (ch_buf (send cl))) as [|msg rest] eqn:Hd.
  - rewrite Hclosed.
    unfold Realtime.Run_step. cbn. rewrite Hr, Hrun. cbn.
    rewrite lookup_insert_eq. cbn.
    rewrite bool_decide_eq_false_2 by (rewrite Hcl; exact Hnot).
    unfold writer_step. cbn. rewrite lookup_insert_eq. cbn.
    eexists. split; [reflexivity|]. cbn.
    split; [rewrite lookup_insert_eq; reflexivity|].
    split; [exact Hcl|]. split; [exact Hg|].
    intros c0 Hne. rewrite !lookup_insert_ne by congruence. reflexivity.
  - rewrite Hok.
    2:{ destruct (decide (k < length (ch_buf (send cl)))%nat) as [Hlt|Hge];
          [exact Hlt|].
        rewrite drop_ge in Hd by lia. discriminate. }
    unfold Realtime.Run_step. cbn. rewrite Hr, Hrun. cbn.
    rewrite lookup_insert_eq. cbn.
    rewrite bool_decide_eq_false_2 by (rewrite Hcl; exact Hnot).
    unfold writer_step. cbn. rewrite lookup_insert_eq. cbn.
    eexists. split; [reflexivity|]. cbn.
    split; [rewrite lookup_insert_eq, Hclosed; reflexivity|].
    split; [exact Hcl|]. split; [exact Hg|].
    intros c0 Hne. rewrite !lookup_insert_ne by congruence. reflexivity.
Qed.

End HubMore.

(** *** The theorems at work *)

Lemma hub_panics_on_second_Stop_only_witness :
  exists p q, [AStop; AStop] = p ++ AStop :: q /\ AStop ∈ p.
Proof.
  apply (hub_panics_on_second_Stop_only marshal_len true [AStop; AStop]).
  vm_compute. reflexivity.
Defined.

Lemma gauge_tracks_clients_witness :
  (true = true ->
   reported (run_from_new acts_stop) = size (clients (run_from_new acts_stop)))
  /\ (true = false -> gauge (run_from_new acts_stop) = []).
Proof.
  apply (gauge_tracks_clients marshal_len true acts_stop).
  vm_compute. reflexivity.
Defined.

Lemma hub_queues_bounded_witness :
  (length (ch_buf (broadcast (run_from_new acts_stop))) <= 5000)%nat
  /\ (length (buffer (run_from_new acts_stop)) < 100)%nat
  /\ forall c cl, heap (run_from_new acts_stop) !! c = Some cl ->
                  (length (ch_buf (send cl)) <= 256)%nat.
Proof.
  apply (hub_queues_bounded marshal_len true acts_stop).
  vm_compute. reflexivity.
Defined.

Lemma registered_iff_channel_open_witness :
  1%nat ∈ clients (run_from_new acts_stop)
  <-> pc client_registered <> AtRegister
      /\ ch_closed (send client_registered) = false.
Proof.
  apply (registered_iff_channel_open marshal_len true acts_stop).
  - vm_compute. reflexivity.
  - vm_compute. reflexivity.
Defined.

Lemma client_stream_in_order_witness :
  exists cl',
    heap (run_from_new (connect 1 ++ push ++ [ARun TickerFired])) !! 1%nat = Some cl'
    /\ (exists more, wire cl' = wire client_registered ++ more)
    /\ (writing cl' ->
        writing client_registered
        /\ exists new, stream cl' = stream client_registered ++ new
                       /\ Forall (batch_message marshal_len) new).
Proof.
  apply (client_stream_in_order marshal_len (push ++ [ARun TickerFired])
           (run_from_new (connect 1))).
  - apply run_from_new_inv.
  - vm_compute. reflexivity.
  - vm_compute. reflexivity.
Defined.

Lemma nothing_delivered_after_return_witness :
  running (run_from_new (acts_stop ++ [ARun StopClosed; ABroadcast entry1; AHandle 2]))
    = false
  /\ clients (run_from_new (acts_stop ++ [ARun StopClosed; ABroadcast entry1; AHandle 2]))
     = clients (run_from_new (acts_stop ++ [ARun StopClosed])).
Proof.
  destruct (nothing_delivered_after_return marshal_len [ABroadcast entry1; AHandle 2]
              (run_from_new (acts_stop ++ [ARun StopClosed]))
              (run_from_new (acts_stop ++ [ARun StopClosed; ABroadcast entry1; AHandle 2])))
    as (Hr & Hc & _).
  - vm_compute. reflexivity.
  - vm_compute. reflexivity.
  - split; [exact Hr|exact Hc].
Defined.

Lemma shed_client_is_closed_witness :
  (exists h',
      exec marshal_len (wind_down 1 3 false) hub_after_shed = Stepped h'
      /\ heap h' !! 1%nat
         = Some (mk_client (mk_chan (drop 4 (ch_buf (send client_1_shed)))
                                    (ch_cap (send client_1_shed)) true)
                   (ConnClosed StatusNormalClosure "closing")
                   (wire client_1_shed ++ take 3 (ch_buf (send client_1_shed)))
                   Finished)
      /\ clients h' = clients hub_after_shed /\ gauge h' = gauge hub_after_shed
      /\ (forall c0, c0 <> 1%nat -> heap h' !! c0 = heap hub_after_shed !! c0))
  /\ (exists h',
        exec marshal_len (wind_down 1 256 true) hub_after_shed = Stepped h'
        /\ heap h' !! 1%nat
           = Some (mk_client (mk_chan (drop 257 (ch_buf (send client_1_shed)))
                                      (ch_cap (send client_1_shed)) true)
                     (ConnClosed StatusNormalClosure "closing")
                     (wire client_1_shed ++ take 256 (ch_buf (send client_1_shed)))
                     Finished)
        /\ clients h' = clients hub_after_shed /\ gauge h' = gauge hub_after_shed
        /\ (forall c0, c0 <> 1%nat -> heap h' !! c0 = heap hub_after_shed !! c0)).
Proof.
  assert (Hlen : length (ch_buf (send client_1_shed)) = 256%nat)
    by (vm_compute; reflexivity).
  split.
  - apply (shed_client_is_closed marshal_len hub_after_shed 1 client_1_shed 3 false).
    + vm_compute. reflexivity.
    + vm_compute. reflexivity.
    + vm_compute. reflexivity.
    + vm_compute. reflexivity.
    + apply (bool_decide_eq_false_1 (1%nat ∈ clients hub_after_shed)).
      vm_compute. reflexivity.
    + rewrite Hlen. lia.
    + reflexivity.
  - apply (shed_client_is_closed marshal_len hub_after_shed 1 client_1_shed 256 true).
    + vm_compute. reflexivity.
    + vm_compute. reflexivity.
    + vm_compute. reflexivity.
    + vm_compute. reflexivity.
    + apply (bool_decide_eq_false_1 (1%nat ∈ clients hub_after_shed)).
      vm_compute. reflexivity.
    + rewrite Hlen. lia.
    + rewrite Hlen. lia.
Defined.

End RealtimeMore.

(** ** Opening and migrating the database *)

Module FactoryMore.
Import Factory FactoryTerms.

Lemma lower_nil (s : string) : lower s = "" -> s = "".
Proof. destruct s; [reflexivity|discriminate]. Qed.

Section DriversMore.

Variable ToLower : string -> string.
Variable open_error : dialect -> string -> option error.
Variable db_ok : bool.

(** What [strings.ToLower] is known to do. *)
Hypothesis ToLower_empty : ToLower "" = "".
Hypothesis ToLower_nonempty : forall s, ToLower s = "" -> s = "".
Hypothesis ToLower_sqlite : ToLower "sqlite" = "sqlite".

Abbreviation choose := (choose ToLower).
Abbreviation NewDatabase := (NewDatabase ToLower open_error db_ok).

(** The driver name the rest of [NewDatabase] sees tells the dialect
    chosen. *)
Lemma choose_sqlite (driver dsn : string) (dl : dialect) (dsn' driver' : string) :
  choose driver dsn = inl (dl, dsn', driver') ->
  (String.eqb (ToLower driver') "sqlite" || String.eqb driver' ""
   = match dl with SQLite => true | _ => false end)
  /\ (String.eqb (ToLower driver') "sqlite" || String.eqb (ToLower driver') ""
      = match dl with SQLite => true | _ => false end)
  /\ (dsn' = dsn
      \/ (dsn = "" /\ dl = SQLite /\ dsn' = "argus.db")
      \/ (dsn = "" /\ dl = MySQL /\ dsn' = mysql_default_dsn)).
Proof.
  unfold Factory.choose. cbv zeta.
  destruct (String.eqb_spec (ToLower driver) "postgres") as [E1|N1]; cbn [orb].
  { destruct (String.eqb_spec dsn ""); [discriminate|]. intros [= <- <- <-].
    rewrite E1. cbn.
    destruct (String.eqb_spec driver "") as [->|_]; [|auto].
    rewrite ToLower_empty in E1. discriminate. }
  destruct (String.eqb_spec (ToLower driver) "postgresql") as [E2|N2]; cbn [orb].
  { destruct (String.eqb_spec dsn ""); [discriminate|]. intros [= <- <- <-].
    rewrite E2. cbn.
    destruct (String.eqb_spec driver "") as [->|_]; [|auto].
    rewrite ToLower_empty in E2. discriminate. }
  destruct (String.eqb_spec (ToLower driver) "sqlserver") as [E3|N3]; cbn [orb].
  { destruct (String.eqb_spec dsn ""); [discriminate|]. intros [= <- <- <-].
    rewrite E3. cbn.
    destruct (String.eqb_spec driver "") as [->|_]; [|auto].
    rewrite ToLower_empty in E3. discriminate. }
  destruct (String.eqb_spec (ToLower driver) "mssql") as [E4|N4]; cbn [orb].
  { destruct (String.eqb_spec dsn ""); [discriminate|]. intros [= <- <- <-].
    rewrite E4. cbn.
    destruct (String.eqb_spec driver "") as [->|_]; [|auto].
    rewrite ToLower_empty in E4. discriminate. }
  destruct (String.eqb_spec (ToLower driver) "mysql") as [E5|N5].
  { intros [= <- <- <-]. rewrite E5. cbn.
    split; [|split; [reflexivity|]].
    - destruct (String.eqb_spec driver "") as [->|_]; [|reflexivity].
      rewrite ToLower_empty in E5. discriminate.
    - destruct (String.eqb_spec dsn "") as [->|_]; auto. }
  destruct (String.eqb_spec (ToLower driver) "sqlite") as [E6|N6]; cbn [orb].
  { intros [= <- <- <-].
    destruct (String.eqb_spec driver "") as [->|_].
    - rewrite ToLower_sqlite. cbn. split; [reflexivity|]. split; [reflexivity|].
      destruct (String.eqb_spec dsn "") as [->|_]; auto.
    - rewrite E6. cbn. split; [reflexivity|]. split; [reflexivity|].
      destruct (String.eqb_spec dsn "") as [->|_]; auto. }
  destruct (String.eqb_spec (ToLower driver) "") as [E7|N7]; [|discriminate].
  intros [= <- <- <-]. rewrite (ToLower_nonempty _ E7). cbn.
  rewrite ToLower_sqlite. cbn. split; [reflexivity|]. split; [reflexivity|].
  destruct (String.eqb_spec dsn "") as [->|_]; auto.
Qed.

(** X28: the three places of [NewDatabase] that look at the driver agree:
    a database that is handed back was opened once, with the caller's DSN
    or, when that is empty, with the default of SQLite or MySQL; the three
    pragmas are run exactly when it is a SQLite database; and the pool is
    set to one connection for SQLite and to fifty for the other dialects,
    or left alone when [db.DB()] fails, which is not reported. *)
Theorem NewDatabase_settings_agree (driver dsn : string) (tr : list effect) (db : DB) :
  NewDatabase driver dsn = (tr, inl db) ->
  tr = [GormOpen (db_dialect db) (db_dsn db) true]
         ++ pragmas_of (db_dialect db)
         ++ [GetDB db_ok]
         ++ (if db_ok then pool_of (db_dialect db) else [])
  /\ (db_dsn db = dsn
      \/ (dsn = "" /\ db_dialect db = SQLite /\ db_dsn db = "argus.db")
      \/ (dsn = "" /\ db_dialect db = MySQL /\ db_dsn db = mysql_default_dsn)).
Proof.
  unfold Factory.NewDatabase.
  destruct (Factory.choose ToLower driver dsn) as [[[dl dsn'] driver']|err] eqn:Hc;
    [|discriminate].
  destruct (choose_sqlite driver dsn dl dsn' driver' Hc) as (Hp & Hpool & Hdsn).
  destruct (open_error dl dsn'); [discriminate|].
  rewrite Hp, Hpool. intros [= <- <-]. cbn [db_dialect db_dsn].
  split; [|exact Hdsn].
  destruct dl, db_ok; reflexivity.
Qed.

End DriversMore.

(** X29: [AutoMigrateModels] returns an error exactly when the migration
    fails.  For MySQL it switches the foreign key checks off first, and
    switches them on again only after a migration that succeeded: a failed
    migration leaves them off.  For every other driver it runs no
    statement of its own. *)
Theorem AutoMigrateModels_foreign_key_checks (ToLower : string -> string)
    (migrate : option error) (driver : string) :
  (snd (AutoMigrateModels ToLower migrate driver) = None <-> migrate = None)
  /\ (ToLower driver = "mysql" ->
      head (fst (AutoMigrateModels ToLower migrate driver))
        = Some (Exec "SET FOREIGN_KEY_CHECKS = 0")
      /\ (Exec "SET FOREIGN_KEY_CHECKS = 1"
            ∈ fst (AutoMigrateModels ToLower migrate driver)
          <-> migrate = None))
  /\ (ToLower driver <> "mysql" ->
      forall sql, Exec sql ∉ fst (AutoMigrateModels ToLower migrate driver)).
Proof.
  unfold AutoMigrateModels. cbv zeta. split; [|split].
  - destruct migrate; cbn; split; congruence.
  - intros ->. cbn [String.eqb Ascii.eqb Bool.eqb]. destruct migrate; cbn.
    + split; [reflexivity|]. split; [|discriminate].
      intros H. apply elem_of_cons in H as [H|H]; [discriminate|].
      apply list_elem_of_singleton in H. discriminate.
    + split; [reflexivity|]. split; [reflexivity|].
      do 4 right. left.
  - intros Hne sql. destruct (String.eqb_spec (ToLower driver) "mysql") as [E|_];
      [contradiction|].
    destruct migrate; cbn; intros H; apply list_elem_of_singleton in H; discriminate.
Qed.

(** *** The theorems at work *)

Lemma NewDatabase_settings_agree_witness :
  [GormOpen SQLite "argus.db" true; Exec "PRAGMA journal_mode=WAL";
   Exec "PRAGMA busy_timeout=5000"; Exec "PRAGMA synchronous=NORMAL";
   GetDB true; SetMaxIdleConns 1; SetMaxOpenConns 1; SetConnMaxLifetime hour]
  = [GormOpen SQLite "argus.db" true]
      ++ pragmas_of SQLite ++ [GetDB true] ++ pool_of SQLite
  /\ ("argus.db" = ""
      \/ ("" = "" /\ SQLite = SQLite /\ "argus.db" = "argus.db")
      \/ ("" = "" /\ SQLite = MySQL /\ "argus.db" = mysql_default_dsn)).
Proof.
  apply (NewDatabase_settings_agree lower open_fine true eq_refl lower_nil eq_refl
           "SQLite" "" _ (mk_DB SQLite "argus.db")).
  reflexivity.
Defined.

End FactoryMore.
